(** * Channel: a single-producer / single-consumer ring buffer

    A shallow embedding of [channel.h].  The header exists in three
    revisions, all declaring [template <class T> class Channel]:

    - the [volatile] / [__sync_synchronize] revision that rounds the
      storage up to a power of two (module [Volatile]);
    - the [std::atomic] revision with the same constructor and data
      members (module [Atomic]);
    - the [volatile] revision whose capacity must be one less than a
      power of two and which keeps one dummy slot (module [Reserved]).

    C++ [int] values are integers of [Z] that must stay inside the
    32-bit signed range: signed overflow, an out-of-bounds subscript and
    the conversion of a non-finite [double] to [int] have no defined
    behaviour, and are modelled by the outcome [Undefined].  Assertions
    are compiled in ([NDEBUG] is not defined) and allocation succeeds.

    A call is modelled twice: as a function from the state before it to
    its result and the state after it (modules [Atomic], [Volatile],
    [Reserved]), which is the call run by one thread alone, and, for the
    two rounding revisions, as a machine that makes one shared-memory
    access per step while the other thread runs (modules [AtomicSteps],
    [VolatileSteps]).  Run without interference the machines compute
    the functions.  Modules [AtomicSystem] and [VolatileSystem] put a
    producer and a consumer side by side on these machines, and module
    [Player] is the example program that plays a .wav file through two
    channels. *)

From Stdlib Require Import ZArith Lia Bool.
From stdpp Require Import base list.

Local Open Scope Z_scope.

(** ** Outcomes of a call *)

Inductive outcome (A : Type) : Type :=
| Ok (a : A)      (* the call returns *)
| AssertFailed    (* an [assert] fails: the process aborts *)
| Throws          (* a C++ exception leaves the call *)
| Undefined       (* the language gives the execution no meaning *)
| OutOfFuel.      (* a loop of the model used up its fuel *)

Arguments Ok {A} a.
Arguments AssertFailed {A}.
Arguments Throws {A}.
Arguments Undefined {A}.
Arguments OutOfFuel {A}.

Definition bind {A B : Type} (m : outcome A) (k : A -> outcome B) : outcome B :=
  match m with
  | Ok a => k a
  | AssertFailed => AssertFailed
  | Throws => Throws
  | Undefined => Undefined
  | OutOfFuel => OutOfFuel
  end.

Notation "'let*' x ':=' m 'in' k" := (bind m (fun x => k))
  (at level 10, x name, m at level 100, k at level 200, only parsing).
Notation "'let*' ' pat ':=' m 'in' k" := (bind m (fun x => let 'pat := x in k))
  (at level 10, pat pattern, m at level 100, k at level 200, only parsing).

Definition assert (b : bool) : outcome unit :=
  if b then Ok tt else AssertFailed.

(** ** The C++ type [int] *)

Definition INT_MIN : Z := - 2 ^ 31.
Definition INT_MAX : Z := 2 ^ 31 - 1.

Definition in_int (z : Z) : bool := (INT_MIN <=? z) && (z <=? INT_MAX).

(** The result of an arithmetic operator on [int]: defined only when the
    mathematical result is representable. *)
Definition int_of (z : Z) : outcome Z :=
  if in_int z then Ok z else Undefined.

Definition int_add (a b : Z) : outcome Z := int_of (a + b).
Definition int_sub (a b : Z) : outcome Z := int_of (a - b).

(** [a & b] on two's complement integers. *)
Definition int_and (a b : Z) : Z := Z.land a b.

(** [a << n]: the count must lie in [0, 32), the left operand must not
    be negative and the result must be representable. *)
Definition int_shl (a n : Z) : outcome Z :=
  if (0 <=? a) && (0 <=? n) && (n <? 32) then int_of (Z.shiftl a n)
  else Undefined.

(** [(int) (floor(log(x) / log(2)) + 1)] for an [int] x.  [log(0)] is
    minus infinity and the logarithm of a negative number is a NaN;
    neither converts to [int].  For x >= 1 the quotient is taken at its
    real value, whose floor is [Z.log2 x]. *)
Definition floor_log2_plus_1 (x : Z) : outcome Z :=
  if x <=? 0 then Undefined else int_add (Z.log2 x) 1.

(** ** Arrays of slots *)

(** A slot of [T buf_[]] or the object behind a [T*]: [None] is a slot
    that nothing was stored into yet. *)
Abbreviation slot T := (option T) (only parsing).

(** [new T[n]]: a negative length makes [new] throw; the slots of the
    new array hold nothing yet. *)
Definition new_array {T : Type} (n : Z) : outcome (list (slot T)) :=
  if n <? 0 then Throws else Ok (replicate (Z.to_nat n) None).

Definition in_bounds {T : Type} (buf : list (slot T)) (i : Z) : bool :=
  (0 <=? i) && (i <? Z.of_nat (length buf)).

(** [buf[i]] read as a value. *)
Definition array_load {T : Type} (buf : list (slot T)) (i : Z) : outcome (slot T) :=
  if in_bounds buf i then Ok (default None (buf !! Z.to_nat i)) else Undefined.

(** [buf[i] = t]. *)
Definition array_store {T : Type} (buf : list (slot T)) (i : Z) (t : T)
  : outcome (list (slot T)) :=
  if in_bounds buf i then Ok (<[Z.to_nat i := Some t]> buf) else Undefined.

(** [__sync_bool_compare_and_swap(&cell, oldval, newval)] on a cell that
    holds [cur]: the success flag and the new content of the cell. *)
Definition sync_bool_compare_and_swap (cur oldval newval : Z) : bool * Z :=
  if cur =? oldval then (true, newval) else (false, cur).

(** ** The class with the rounded-up storage

    The data members and the constructor of the [volatile] revision
    (lines 15-22, 36-45) and of the [std::atomic] revision (lines
    111-118, 132-136) are the same text; one record serves both. *)

Record Channel (T : Type) : Type := MkChannel {
  cap_ : Z;
  size_ : Z;
  size_mask_ : Z;
  buf_ : list (slot T);
  r_ : Z;
  w_ : Z
}.

Arguments MkChannel {T}.
Arguments cap_ {T}.
Arguments size_ {T}.
Arguments size_mask_ {T}.
Arguments buf_ {T}.
Arguments r_ {T}.
Arguments w_ {T}.

Definition set_buf {T} (c : Channel T) (b : list (slot T)) : Channel T :=
  MkChannel (cap_ c) (size_ c) (size_mask_ c) b (r_ c) (w_ c).
Definition set_r {T} (c : Channel T) (r : Z) : Channel T :=
  MkChannel (cap_ c) (size_ c) (size_mask_ c) (buf_ c) r (w_ c).
Definition set_w {T} (c : Channel T) (w : Z) : Channel T :=
  MkChannel (cap_ c) (size_ c) (size_mask_ c) (buf_ c) (r_ c) w.

(** [explicit Channel(int capacity)]. *)
Definition Channel_ctor (T : Type) (capacity : Z) : outcome (Channel T) :=
  let* _ := assert (capacity >=? 0) in
  let* power := floor_log2_plus_1 capacity in
  let* size := int_shl 1 power in
  let* mask := int_sub size 1 in
  let* buf := new_array size in
  Ok (MkChannel capacity size mask buf 0 0).

(** [int capacity() const]. *)
Definition capacity {T} (c : Channel T) : Z := cap_ c.

(** The calls made on a channel and what they returned. *)
Inductive call (T : Type) : Type :=
| CallSend (item : T)
| CallReceive.

Arguments CallSend {T} item.
Arguments CallReceive {T}.

Inductive event (T : Type) : Type :=
| SendEv (item : T) (ok : bool)
| ReceiveEv (ok : bool) (out : slot T).

Arguments SendEv {T} item ok.
Arguments ReceiveEv {T} ok out.

(** ** The [std::atomic] revision (lines 93-164) *)

Module Atomic.
Section Ops.
Context {T : Type}.

(** [bool Channel<T>::Send(const T &item)], lines 139-150. *)
Definition Send (c : Channel T) (item : T) : outcome (bool * Channel T) :=
  let w := w_ c in
  let r := r_ c in
  let* nitems := int_sub w r in
  let* full := (if nitems =? cap_ c then Ok true
                else let* s := int_add nitems (size_ c) in Ok (s =? cap_ c)) in
  if full : bool then Ok (false, c)
  else
    let* buf := array_store (buf_ c) w item in
    let* w1 := int_add w 1 in
    Ok (true, set_w (set_buf c buf) (int_and w1 (size_mask_ c))).

(** [bool Channel<T>::Receive(T* item)], lines 152-162.  [item] is the
    object behind the pointer before the call; the second component of
    the result is that object after the call. *)
Definition Receive (c : Channel T) (item : slot T)
  : outcome (bool * slot T * Channel T) :=
  let r := r_ c in
  let w := w_ c in
  if r =? w then Ok (false, item, c)
  else
    let* v := array_load (buf_ c) r in
    let* r1 := int_add r 1 in
    Ok (true, v, set_r c (int_and r1 (size_mask_ c))).

(** A sequence of calls made one after the other; each [Receive] is
    handed a fresh, uninitialised [T]. *)
Fixpoint run (c : Channel T) (calls : list (call T))
  : outcome (list (event T) * Channel T) :=
  match calls with
  | [] => Ok ([], c)
  | CallSend item :: rest =>
      let* '(ok, c1) := Send c item in
      let* '(evs, c2) := run c1 rest in
      Ok (SendEv item ok :: evs, c2)
  | CallReceive :: rest =>
      let* '(ok, out, c1) := Receive c None in
      let* '(evs, c2) := run c1 rest in
      Ok (ReceiveEv ok out :: evs, c2)
  end.

End Ops.
End Atomic.

(** ** The [volatile] revision with rounded-up storage (lines 1-92) *)

Module Volatile.
Section Ops.
Context {T : Type}.

(** [while (!__sync_bool_compare_and_swap(&w_, w, next)) ;] run by one
    thread alone. *)
Fixpoint spin_w (fuel : nat) (c : Channel T) (w next : Z) : outcome (Channel T) :=
  match fuel with
  | O => OutOfFuel
  | S fuel' =>
      let '(swapped, w') := sync_bool_compare_and_swap (w_ c) w next in
      let c' := set_w c w' in
      if swapped then Ok c' else spin_w fuel' c' w next
  end.

(** [while (!__sync_bool_compare_and_swap(&r_, r, next));] *)
Fixpoint spin_r (fuel : nat) (c : Channel T) (r next : Z) : outcome (Channel T) :=
  match fuel with
  | O => OutOfFuel
  | S fuel' =>
      let '(swapped, r') := sync_bool_compare_and_swap (r_ c) r next in
      let c' := set_r c r' in
      if swapped then Ok c' else spin_r fuel' c' r next
  end.

(** [bool Channel<T>::Send(const T &t)], lines 48-68.  The two
    [__sync_synchronize()] fences change nothing in a sequential run. *)
Definition Send (fuel : nat) (c : Channel T) (t : T) : outcome (bool * Channel T) :=
  let r := r_ c in
  let w := w_ c in
  let* w1 := int_add w 1 in
  let next := int_and w1 (size_mask_ c) in
  let* n := (if w >? r then int_sub w r
             else let* d := int_sub w r in int_add d (size_ c)) in
  if n =? cap_ c then Ok (false, c)
  else
    let* buf := array_store (buf_ c) w t in
    let* c' := spin_w fuel (set_buf c buf) w next in
    Ok (true, c').

(** [bool Channel<T>::Receive(T* item)], lines 70-90. *)
Definition Receive (fuel : nat) (c : Channel T) (item : slot T)
  : outcome (bool * slot T * Channel T) :=
  let r := r_ c in
  let w := w_ c in
  if r =? w then Ok (false, item, c)
  else
    let* v := array_load (buf_ c) r in
    let* r1 := int_add r 1 in
    let next := int_and r1 (size_mask_ c) in
    let* c' := spin_r fuel c r next in
    Ok (true, v, c').

Fixpoint run (fuel : nat) (c : Channel T) (calls : list (call T))
  : outcome (list (event T) * Channel T) :=
  match calls with
  | [] => Ok ([], c)
  | CallSend item :: rest =>
      let* '(ok, c1) := Send fuel c item in
      let* '(evs, c2) := run fuel c1 rest in
      Ok (SendEv item ok :: evs, c2)
  | CallReceive :: rest =>
      let* '(ok, out, c1) := Receive fuel c None in
      let* '(evs, c2) := run fuel c1 rest in
      Ok (ReceiveEv ok out :: evs, c2)
  end.

End Ops.
End Volatile.

(** ** The [volatile] revision with a dummy slot (lines 165-255)

    "The capacity must be specified as one less than a power of 2 (e.g.
    31) ... the buffer's size is one more than the capacity." *)

Module Reserved.

Record Channel (T : Type) : Type := MkChannel {
  n_ : Z;
  size_mask_ : Z;
  buf_ : list (slot T);
  r_ : Z;
  w_ : Z
}.

Arguments MkChannel {T}.
Arguments n_ {T}.
Arguments size_mask_ {T}.
Arguments buf_ {T}.
Arguments r_ {T}.
Arguments w_ {T}.

Section Ops.
Context {T : Type}.

Definition set_buf (c : Channel T) (b : list (slot T)) : Channel T :=
  MkChannel (n_ c) (size_mask_ c) b (r_ c) (w_ c).
Definition set_r (c : Channel T) (r : Z) : Channel T :=
  MkChannel (n_ c) (size_mask_ c) (buf_ c) r (w_ c).
Definition set_w (c : Channel T) (w : Z) : Channel T :=
  MkChannel (n_ c) (size_mask_ c) (buf_ c) (r_ c) w.

(** [explicit Channel(int n)], lines 183-186.  The member initialisers
    [n_(n + 1)], [size_mask_(n)], [buf_(new T[n + 1])], [r_(0)], [w_(0)]
    run first, the [assert] of the body after them. *)
Definition Channel_ctor (n : Z) : outcome (Channel T) :=
  let* n1 := int_add n 1 in
  let* buf := new_array n1 in
  let* _ := assert (int_and n n1 =? 0) in
  Ok (MkChannel n1 n buf 0 0).

(** [int capacity() const { return n_ - 1; }], line 190. *)
Definition capacity (c : Channel T) : outcome Z := int_sub (n_ c) 1.

Fixpoint spin_w (fuel : nat) (c : Channel T) (w next : Z) : outcome (Channel T) :=
  match fuel with
  | O => OutOfFuel
  | S fuel' =>
      let '(swapped, w') := sync_bool_compare_and_swap (w_ c) w next in
      let c' := set_w c w' in
      if swapped then Ok c' else spin_w fuel' c' w next
  end.

Fixpoint spin_r (fuel : nat) (c : Channel T) (r next : Z) : outcome (Channel T) :=
  match fuel with
  | O => OutOfFuel
  | S fuel' =>
      let '(swapped, r') := sync_bool_compare_and_swap (r_ c) r next in
      let c' := set_r c r' in
      if swapped then Ok c' else spin_r fuel' c' r next
  end.

(** [bool Channel<T>::Send(const T &t)], lines 211-231. *)
Definition Send (fuel : nat) (c : Channel T) (t : T) : outcome (bool * Channel T) :=
  let w := w_ c in
  let* w1 := int_add w 1 in
  let next := int_and w1 (size_mask_ c) in
  let r := r_ c in
  if next =? r then Ok (false, c)
  else
    let* buf := array_store (buf_ c) w t in
    let* c' := spin_w fuel (set_buf c buf) w next in
    Ok (true, c').

(** [bool Channel<T>::Receive(T* item)], lines 233-253. *)
Definition Receive (fuel : nat) (c : Channel T) (item : slot T)
  : outcome (bool * slot T * Channel T) :=
  let r := r_ c in
  let w := w_ c in
  if r =? w then Ok (false, item, c)
  else
    let* v := array_load (buf_ c) r in
    let* r1 := int_add r 1 in
    let next := int_and r1 (size_mask_ c) in
    let* c' := spin_r fuel c r next in
    Ok (true, v, c').

Fixpoint run (fuel : nat) (c : Channel T) (calls : list (call T))
  : outcome (list (event T) * Channel T) :=
  match calls with
  | [] => Ok ([], c)
  | CallSend item :: rest =>
      let* '(ok, c1) := Send fuel c item in
      let* '(evs, c2) := run fuel c1 rest in
      Ok (SendEv item ok :: evs, c2)
  | CallReceive :: rest =>
      let* '(ok, out, c1) := Receive fuel c None in
      let* '(evs, c2) := run fuel c1 rest in
      Ok (ReceiveEv ok out :: evs, c2)
  end.

End Ops.
End Reserved.

(** ** What was accepted, what was delivered, what is queued *)

Section Observations.
Context {T : Type}.

(** The items of the [Send] calls that returned [true], in call order. *)
Fixpoint accepted (evs : list (event T)) : list T :=
  match evs with
  | [] => []
  | SendEv item true :: rest => item :: accepted rest
  | _ :: rest => accepted rest
  end.

(** What the [Receive] calls that returned [true] left behind their
    pointer, in call order. *)
Fixpoint delivered (evs : list (event T)) : list (slot T) :=
  match evs with
  | [] => []
  | ReceiveEv true out :: rest => out :: delivered rest
  | _ :: rest => delivered rest
  end.

(** Occupancy, "never stored explicitly": (writeIndex - readIndex) mod
    storageLength. *)
Definition occupancy (c : Channel T) : Z := (w_ c - r_ c) mod size_ c.

Definition slot_at (buf : list (slot T)) (i : Z) : slot T :=
  default None (buf !! Z.to_nat i).

(** The slots from the read index up to the write index, in ring
    order. *)
Definition queued (c : Channel T) : list (slot T) :=
  map (fun k => slot_at (buf_ c) ((r_ c + Z.of_nat k) mod size_ c))
      (seq 0 (Z.to_nat (occupancy c))).

(** Is [z] a power of two?  (Decided through the logarithm.) *)
Definition is_pow2 (z : Z) : bool := (0 <? z) && (2 ^ Z.log2 z =? z).

(** A well-formed channel of the rounded-up revisions. *)
Record wf (c : Channel T) : Prop := {
  wf_size : exists p, 0 <= p <= 30 /\ size_ c = 2 ^ p;
  wf_mask : size_mask_ c = size_ c - 1;
  wf_cap : 0 <= cap_ c < size_ c;
  wf_buf : Z.of_nat (length (buf_ c)) = size_ c;
  wf_r : 0 <= r_ c < size_ c;
  wf_w : 0 <= w_ c < size_ c;
  wf_occ : occupancy c <= cap_ c;
  wf_init : Forall (fun s => s <> None) (queued c)
}.

End Observations.

(** ** States after a call, fresh channels, index bounds *)

Section Model.
Context {T : Type}.
Implicit Types (c : Channel T) (t : T) (evs : list (event T)).

(** The state after a [Send] that stores, and after a [Receive] that
    takes. *)
Definition send_next c t : Channel T :=
  set_w (set_buf c (<[Z.to_nat (w_ c) := Some t]> (buf_ c)))
        ((w_ c + 1) mod size_ c).

Definition recv_next c : Channel T :=
  set_r c ((r_ c + 1) mod size_ c).

(** The channel the constructor builds when its sizing is defined. *)
Definition fresh (capacity : Z) : Channel T :=
  let size := 2 ^ (Z.log2 capacity + 1) in
  MkChannel capacity size (size - 1) (replicate (Z.to_nat size) None) 0 0.

(** Every successful [Receive] of [evs] left behind its pointer the
    item whose position among the accepted items is the number of
    deliveries made before it; [q] is what was queued at the start. *)
Definition next_in_order (q : list (slot T)) evs : Prop :=
  forall evs1 out evs2,
    evs = evs1 ++ ReceiveEv true out :: evs2 ->
    (q ++ map Some (accepted evs1)) !! length (delivered evs1) = Some out.

(** Invariant 1 of the data model, with the sizing it relies on. *)
Definition bounded c : bool :=
  is_pow2 (size_ c) && (size_ c <=? 2 ^ 30) &&
  (size_mask_ c =? size_ c - 1) &&
  (Z.of_nat (length (buf_ c)) =? size_ c) &&
  (0 <=? r_ c) && (r_ c <? size_ c) && (0 <=? w_ c) && (w_ c <? size_ c).

Record in_range c : Prop := {
  ir_size : exists p, 0 <= p <= 30 /\ size_ c = 2 ^ p;
  ir_mask : size_mask_ c = size_ c - 1;
  ir_buf : Z.of_nat (length (buf_ c)) = size_ c;
  ir_r : 0 <= r_ c < size_ c;
  ir_w : 0 <= w_ c < size_ c
}.

Definition index_ok c (i : Z) : Prop := 0 <= i < size_ c.

(** [z] is the smallest power of two that is at least [n]. *)
Definition smallest_pow2_geq (n z : Z) : Prop :=
  is_pow2 z = true /\ n <= z /\
  forall y, is_pow2 y = true -> n <= y -> z <= y.

(** [z] is the smallest power of two that is greater than [n]. *)
Definition smallest_pow2_above (n z : Z) : Prop :=
  is_pow2 z = true /\ n < z /\
  forall y, is_pow2 y = true -> n < y -> z <= y.

End Model.

Arguments fresh T capacity : clear implicits.

Section ReservedModel.
Context {T : Type}.
Implicit Types (c : Reserved.Channel T) (t : T).

(** A well-formed channel of this revision: [n_] is the storage
    length. *)
Record rwf c : Prop := {
  rwf_size : exists p, 0 <= p <= 30 /\ Reserved.n_ c = 2 ^ p;
  rwf_mask : Reserved.size_mask_ c = Reserved.n_ c - 1;
  rwf_buf : Z.of_nat (length (Reserved.buf_ c)) = Reserved.n_ c;
  rwf_r : 0 <= Reserved.r_ c < Reserved.n_ c;
  rwf_w : 0 <= Reserved.w_ c < Reserved.n_ c
}.

Definition rfresh (n : Z) : Reserved.Channel T :=
  Reserved.MkChannel (n + 1) n (replicate (Z.to_nat (n + 1)) None) 0 0.

Definition rsend_next c t : Reserved.Channel T :=
  Reserved.set_w
    (Reserved.set_buf c (<[Z.to_nat (Reserved.w_ c) := Some t]> (Reserved.buf_ c)))
    ((Reserved.w_ c + 1) mod Reserved.n_ c).

Definition rrecv_next c : Reserved.Channel T :=
  Reserved.set_r c ((Reserved.r_ c + 1) mod Reserved.n_ c).

End ReservedModel.

Arguments rfresh T n : clear implicits.

(** ** A call interleaved with the other thread

    One thread runs one call, one shared-memory access or fence per
    step.  Before each of its steps the other thread may have run for
    any length of time; what it did shows in the shared state only
    through the members it writes. *)

Section Interleaving.
Context {St PC I : Type}.
Variable step : St -> PC -> outcome (St * PC).
Variable interfere : I -> St -> St.
Variable returned : PC -> bool.

(** [sched] lists, for each step of the call, what the other thread
    did just before it ([None]: nothing).  The run ends when the call
    has returned or the schedule is used up. *)
Fixpoint exec (sched : list (option I)) (s : St) (pc : PC) : outcome (St * PC) :=
  if returned pc then Ok (s, pc)
  else
    match sched with
    | [] => Ok (s, pc)
    | i :: rest =>
        let s1 := match i with Some x => interfere x s | None => s end in
        let* '(s2, pc2) := step s1 pc in
        exec rest s2 pc2
    end.

End Interleaving.

(** What the consumer does to the state the producer sees: it
    publishes read indices, each of the form [(r + 1) & size_mask_]. *)
Definition consumer_publishes {T} (v : Z) (c : Channel T) : Channel T :=
  set_r c (int_and v (size_mask_ c)).

(** What the producer does to the state the consumer sees: it stores
    an item into a slot and publishes a write index of the form
    [(w + 1) & size_mask_]. *)
Definition producer_publishes {T} (p : nat * T * Z) (c : Channel T) : Channel T :=
  let '(i, t, v) := p in
  set_w (set_buf c (<[i := Some t]> (buf_ c))) (int_and v (size_mask_ c)).

Module VolatileSteps.
Section Machine.
Context {T : Type}.

(** The points of [Volatile.Send] (lines 48-68) with the locals that
    are live there. *)
Inductive send_pc : Type :=
| send_read_r                    (* int r = r_; *)
| send_read_w (r : Z)            (* int w = w_; int next = (w + 1) & size_mask_; *)
| send_fence_acq (r w next : Z)  (* __sync_synchronize(); *)
| send_check (r w next : Z)      (* if (... == cap_) return false; *)
| send_store (w next : Z)        (* buf_[w] = t; *)
| send_fence_rel (w next : Z)    (* __sync_synchronize(); *)
| send_cas (w next : Z)          (* while (!__sync_bool_compare_and_swap(&w_, w, next)) ; *)
| send_done (b : bool).          (* return b; *)

Definition send_step (t : T) (c : Channel T) (pc : send_pc)
  : outcome (Channel T * send_pc) :=
  match pc with
  | send_read_r => Ok (c, send_read_w (r_ c))
  | send_read_w r =>
      let w := w_ c in
      let* w1 := int_add w 1 in
      Ok (c, send_fence_acq r w (int_and w1 (size_mask_ c)))
  | send_fence_acq r w next => Ok (c, send_check r w next)
  | send_check r w next =>
      let* n := (if w >? r then int_sub w r
                 else let* d := int_sub w r in int_add d (size_ c)) in
      if n =? cap_ c then Ok (c, send_done false) else Ok (c, send_store w next)
  | send_store w next =>
      let* buf := array_store (buf_ c) w t in
      Ok (set_buf c buf, send_fence_rel w next)
  | send_fence_rel w next => Ok (c, send_cas w next)
  | send_cas w next =>
      let '(swapped, w') := sync_bool_compare_and_swap (w_ c) w next in
      let c' := set_w c w' in
      if swapped then Ok (c', send_done true) else Ok (c', send_cas w next)
  | send_done b => Ok (c, send_done b)
  end.

Definition send_returned (pc : send_pc) : bool :=
  match pc with send_done _ => true | _ => false end.

(** The points of [Volatile.Receive] (lines 70-90); [item] is the
    object behind the pointer. *)
Inductive receive_pc : Type :=
| receive_read_r (item : slot T)            (* int r = r_; *)
| receive_read_w (item : slot T) (r : Z)    (* int w = w_; *)
| receive_fence_acq (item : slot T) (r w : Z)  (* __sync_synchronize(); *)
| receive_check (item : slot T) (r w : Z)   (* if (r == w) return false; *)
| receive_load (r : Z)                      (* *item = buf_[r]; next = (r + 1) & size_mask_; *)
| receive_fence (item : slot T) (r next : Z)   (* __sync_synchronize(); *)
| receive_cas (item : slot T) (r next : Z)  (* while (!__sync_bool_compare_and_swap(&r_, r, next)); *)
| receive_done (b : bool) (item : slot T).  (* return b; *)

Definition receive_step (c : Channel T) (pc : receive_pc)
  : outcome (Channel T * receive_pc) :=
  match pc with
  | receive_read_r item => Ok (c, receive_read_w item (r_ c))
  | receive_read_w item r => Ok (c, receive_fence_acq item r (w_ c))
  | receive_fence_acq item r w => Ok (c, receive_check item r w)
  | receive_check item r w =>
      if r =? w then Ok (c, receive_done false item) else Ok (c, receive_load r)
  | receive_load r =>
      let* v := array_load (buf_ c) r in
      let* r1 := int_add r 1 in
      Ok (c, receive_fence v r (int_and r1 (size_mask_ c)))
  | receive_fence item r next => Ok (c, receive_cas item r next)
  | receive_cas item r next =>
      let '(swapped, r') := sync_bool_compare_and_swap (r_ c) r next in
      let c' := set_r c r' in
      if swapped then Ok (c', receive_done true item)
      else Ok (c', receive_cas item r next)
  | receive_done b item => Ok (c, receive_done b item)
  end.

Definition receive_returned (pc : receive_pc) : bool :=
  match pc with receive_done _ _ => true | _ => false end.

(** [Send] run by the producer while the consumer runs. *)
Definition Send_interleaved (sched : list (option Z)) (c : Channel T) (t : T)
  : outcome (Channel T * send_pc) :=
  exec (send_step t) consumer_publishes send_returned sched c send_read_r.

(** [Receive] run by the consumer while the producer runs. *)
Definition Receive_interleaved (sched : list (option (nat * T * Z)))
    (c : Channel T) (item : slot T) : outcome (Channel T * receive_pc) :=
  exec receive_step producer_publishes receive_returned sched c (receive_read_r item).

End Machine.
End VolatileSteps.

Module AtomicSteps.
Section Machine.
Context {T : Type}.

(** The points of [Atomic.Send] (lines 139-150). *)
Inductive send_pc : Type :=
| send_load_w              (* w = w_.load(relaxed); *)
| send_load_r (w : Z)      (* r = r_.load(acquire); nitems = w - r; if (...) return false; *)
| send_store (w : Z)       (* buf_[w] = item; *)
| send_publish (w : Z)     (* w_.store((w+1) & size_mask_, release); *)
| send_done (b : bool).    (* return b; *)

Definition send_step (item : T) (c : Channel T) (pc : send_pc)
  : outcome (Channel T * send_pc) :=
  match pc with
  | send_load_w => Ok (c, send_load_r (w_ c))
  | send_load_r w =>
      let r := r_ c in
      let* nitems := int_sub w r in
      let* full := (if nitems =? cap_ c then Ok true
                    else let* s := int_add nitems (size_ c) in Ok (s =? cap_ c)) in
      if full : bool then Ok (c, send_done false) else Ok (c, send_store w)
  | send_store w =>
      let* buf := array_store (buf_ c) w item in
      Ok (set_buf c buf, send_publish w)
  | send_publish w =>
      let* w1 := int_add w 1 in
      Ok (set_w c (int_and w1 (size_mask_ c)), send_done true)
  | send_done b => Ok (c, send_done b)
  end.

Definition send_returned (pc : send_pc) : bool :=
  match pc with send_done _ => true | _ => false end.

(** The points of [Atomic.Receive] (lines 152-162). *)
Inductive receive_pc : Type :=
| receive_load_r (item : slot T)          (* r = r_.load(relaxed); *)
| receive_load_w (item : slot T) (r : Z)  (* w = w_.load(acquire); if (r == w) return false; *)
| receive_copy (r : Z)                    (* *item = buf_[r]; *)
| receive_publish (item : slot T) (r : Z) (* r_.store((r+1) & size_mask_, release); *)
| receive_done (b : bool) (item : slot T).

Definition receive_step (c : Channel T) (pc : receive_pc)
  : outcome (Channel T * receive_pc) :=
  match pc with
  | receive_load_r item => Ok (c, receive_load_w item (r_ c))
  | receive_load_w item r =>
      let w := w_ c in
      if r =? w then Ok (c, receive_done false item) else Ok (c, receive_copy r)
  | receive_copy r =>
      let* v := array_load (buf_ c) r in
      Ok (c, receive_publish v r)
  | receive_publish item r =>
      let* r1 := int_add r 1 in
      Ok (set_r c (int_and r1 (size_mask_ c)), receive_done true item)
  | receive_done b item => Ok (c, receive_done b item)
  end.

Definition receive_returned (pc : receive_pc) : bool :=
  match pc with receive_done _ _ => true | _ => false end.

Definition Send_interleaved (sched : list (option Z)) (c : Channel T) (item : T)
  : outcome (Channel T * send_pc) :=
  exec (send_step item) consumer_publishes send_returned sched c send_load_w.

Definition Receive_interleaved (sched : list (option (nat * T * Z)))
    (c : Channel T) (item : slot T) : outcome (Channel T * receive_pc) :=
  exec receive_step producer_publishes receive_returned sched c (receive_load_r item).

End Machine.
End AtomicSteps.

(** ** Ranks and invariants of the step machines *)

Section Ranks.
Context {T : Type}.
Implicit Types (c : Channel T).

(** [Volatile.Send]: the locals agree with what the producer owns. *)
Definition vsend_rank (pc : VolatileSteps.send_pc) : nat :=
  match pc with
  | VolatileSteps.send_read_r => 7
  | VolatileSteps.send_read_w _ => 6
  | VolatileSteps.send_fence_acq _ _ _ => 5
  | VolatileSteps.send_check _ _ _ => 4
  | VolatileSteps.send_store _ _ => 3
  | VolatileSteps.send_fence_rel _ _ => 2
  | VolatileSteps.send_cas _ _ => 1
  | VolatileSteps.send_done _ => 0
  end.

Definition vsend_inv c (pc : VolatileSteps.send_pc) : Prop :=
  in_range c /\
  match pc with
  | VolatileSteps.send_read_r => True
  | VolatileSteps.send_read_w r => index_ok c r
  | VolatileSteps.send_fence_acq r w next
  | VolatileSteps.send_check r w next =>
      index_ok c r /\ w = w_ c /\ index_ok c next
  | VolatileSteps.send_store w next
  | VolatileSteps.send_fence_rel w next
  | VolatileSteps.send_cas w next => w = w_ c /\ index_ok c next
  | VolatileSteps.send_done _ => True
  end.

(** [Volatile.Receive]: the locals agree with what the consumer owns. *)
Definition vreceive_rank (pc : VolatileSteps.receive_pc (T:=T)) : nat :=
  match pc with
  | VolatileSteps.receive_read_r _ => 7
  | VolatileSteps.receive_read_w _ _ => 6
  | VolatileSteps.receive_fence_acq _ _ _ => 5
  | VolatileSteps.receive_check _ _ _ => 4
  | VolatileSteps.receive_load _ => 3
  | VolatileSteps.receive_fence _ _ _ => 2
  | VolatileSteps.receive_cas _ _ _ => 1
  | VolatileSteps.receive_done _ _ => 0
  end.

Definition vreceive_inv c (pc : VolatileSteps.receive_pc (T:=T)) : Prop :=
  in_range c /\
  match pc with
  | VolatileSteps.receive_read_r _ => True
  | VolatileSteps.receive_read_w _ r
  | VolatileSteps.receive_fence_acq _ r _
  | VolatileSteps.receive_check _ r _
  | VolatileSteps.receive_load r => r = r_ c
  | VolatileSteps.receive_fence _ r next
  | VolatileSteps.receive_cas _ r next => r = r_ c /\ index_ok c next
  | VolatileSteps.receive_done _ _ => True
  end.

(** [Atomic.Send] and [Atomic.Receive]: straight-line code. *)
Definition asend_rank (pc : AtomicSteps.send_pc) : nat :=
  match pc with
  | AtomicSteps.send_load_w => 4
  | AtomicSteps.send_load_r _ => 3
  | AtomicSteps.send_store _ => 2
  | AtomicSteps.send_publish _ => 1
  | AtomicSteps.send_done _ => 0
  end.

Definition asend_inv c (pc : AtomicSteps.send_pc) : Prop :=
  in_range c /\
  match pc with
  | AtomicSteps.send_load_w => True
  | AtomicSteps.send_load_r w
  | AtomicSteps.send_store w
  | AtomicSteps.send_publish w => w = w_ c
  | AtomicSteps.send_done _ => True
  end.

Definition areceive_rank (pc : AtomicSteps.receive_pc (T:=T)) : nat :=
  match pc with
  | AtomicSteps.receive_load_r _ => 4
  | AtomicSteps.receive_load_w _ _ => 3
  | AtomicSteps.receive_copy _ => 2
  | AtomicSteps.receive_publish _ _ => 1
  | AtomicSteps.receive_done _ _ => 0
  end.

Definition areceive_inv c (pc : AtomicSteps.receive_pc (T:=T)) : Prop :=
  in_range c /\
  match pc with
  | AtomicSteps.receive_load_r _ => True
  | AtomicSteps.receive_load_w _ r
  | AtomicSteps.receive_copy r
  | AtomicSteps.receive_publish _ r => r = r_ c
  | AtomicSteps.receive_done _ _ => True
  end.

End Ranks.

(** ** Who writes what

    The members a call may change: the producer's side is the write
    index and the slot under it, the consumer's side the read index. *)

Section Sides.
Context {T : Type}.

Definition producer_side_only (c c' : Channel T) : Prop :=
  cap_ c' = cap_ c /\ size_ c' = size_ c /\ size_mask_ c' = size_mask_ c /\
  r_ c' = r_ c /\
  length (buf_ c') = length (buf_ c) /\
  forall k : nat, k <> Z.to_nat (w_ c) -> buf_ c' !! k = buf_ c !! k.

Definition consumer_side_only (c c' : Channel T) : Prop :=
  cap_ c' = cap_ c /\ size_ c' = size_ c /\ size_mask_ c' = size_mask_ c /\
  w_ c' = w_ c /\ buf_ c' = buf_ c.

(** A channel of the rounding revisions seen as one of the dummy-slot
    revision, and back: [n_] is the storage length, and the capacity
    is one less. *)
Definition of_rounded (c : Channel T) : Reserved.Channel T :=
  Reserved.MkChannel (size_ c) (size_mask_ c) (buf_ c) (r_ c) (w_ c).

Definition as_rounded (d : Reserved.Channel T) : Channel T :=
  MkChannel (Reserved.n_ d - 1) (Reserved.n_ d) (Reserved.size_mask_ d)
            (Reserved.buf_ d) (Reserved.r_ d) (Reserved.w_ d).

End Sides.

(** ** A producer and a consumer running together

    The producer makes one [Send] call per item of [todo], in order,
    and the consumer makes [Receive] calls without end, both of the
    [std::atomic] revision; a schedule says whose shared-memory access
    comes next.  [sent] and [got] record what the calls that returned
    [true] accepted and delivered.  With [retry] the producer offers an
    item again until it is accepted ([while (!c.Send(s)) ;]); without,
    it goes on to the next item. *)

Module AtomicSystem.
Section Sys.
Context {T : Type}.

Inductive thread : Type := Producer | Consumer.

Record system : Type := MkSystem {
  shared : Channel T;
  todo : list T;
  ppc : AtomicSteps.send_pc;
  cpc : AtomicSteps.receive_pc (T:=T);
  sent : list T;
  got : list (slot T)
}.

Definition producer_step (retry : bool) (s : system) : outcome system :=
  match todo s with
  | [] => Ok s
  | item :: rest =>
      let* '(c', pc') := AtomicSteps.send_step item (shared s) (ppc s) in
      match pc' with
      | AtomicSteps.send_done true =>
          Ok (MkSystem c' rest AtomicSteps.send_load_w (cpc s)
                       (sent s ++ [item]) (got s))
      | AtomicSteps.send_done false =>
          Ok (MkSystem c' (if retry then item :: rest else rest)
                       AtomicSteps.send_load_w (cpc s) (sent s) (got s))
      | _ => Ok (MkSystem c' (todo s) pc' (cpc s) (sent s) (got s))
      end
  end.

Definition consumer_step (s : system) : outcome system :=
  let* '(c', pc') := AtomicSteps.receive_step (shared s) (cpc s) in
  match pc' with
  | AtomicSteps.receive_done true out =>
      Ok (MkSystem c' (todo s) (ppc s) (AtomicSteps.receive_load_r None)
                   (sent s) (got s ++ [out]))
  | AtomicSteps.receive_done false _ =>
      Ok (MkSystem c' (todo s) (ppc s) (AtomicSteps.receive_load_r None)
                   (sent s) (got s))
  | _ => Ok (MkSystem c' (todo s) (ppc s) pc' (sent s) (got s))
  end.

Fixpoint run (retry : bool) (sched : list thread) (s : system) : outcome system :=
  match sched with
  | [] => Ok s
  | who :: rest =>
      let* s' := match who with
                 | Producer => producer_step retry s
                 | Consumer => consumer_step s
                 end in
      run retry rest s'
  end.

Definition start (c : Channel T) (items : list T) : system :=
  MkSystem c items AtomicSteps.send_load_w (AtomicSteps.receive_load_r None) [] [].

(** What holds between any two accesses: the channel is well formed,
    the logs and the queue tell the same story, and each thread's
    locals agree with the side it owns; a producer past its full test
    has room, a consumer past its empty test has an item. *)
Definition producer_ok (s : system) : Prop :=
  let c := shared s in
  match ppc s with
  | AtomicSteps.send_load_w => True
  | AtomicSteps.send_load_r w => w = w_ c
  | AtomicSteps.send_store w => w = w_ c /\ occupancy c < cap_ c
  | AtomicSteps.send_publish w =>
      w = w_ c /\ occupancy c < cap_ c /\
      exists item rest,
        todo s = item :: rest /\ buf_ c !! Z.to_nat w = Some (Some item)
  | AtomicSteps.send_done _ => False
  end.

Definition consumer_ok (s : system) : Prop :=
  let c := shared s in
  match cpc s with
  | AtomicSteps.receive_load_r _ => True
  | AtomicSteps.receive_load_w _ r => r = r_ c
  | AtomicSteps.receive_copy r => r = r_ c /\ occupancy c > 0
  | AtomicSteps.receive_publish v r =>
      r = r_ c /\ occupancy c > 0 /\ v = slot_at (buf_ c) r
  | AtomicSteps.receive_done _ _ => False
  end.

Definition sys_inv (items : list T) (retry : bool) (s : system) : Prop :=
  wf (shared s) /\
  map Some (sent s) = got s ++ queued (shared s) /\
  (retry = true -> sent s ++ todo s = items) /\
  producer_ok s /\ consumer_ok s.

End Sys.
End AtomicSystem.

(** The same two threads on the [volatile] revision of lines 1-92.
    There [Send] reads [r_] before [w_] and [Receive] reads [w_] after
    [r_], so each thread tests a value of the other's index that may
    be out of date by the time of the test. *)

Module VolatileSystem.
Section Sys.
Context {T : Type}.

Record system : Type := MkSystem {
  shared : Channel T;
  todo : list T;
  ppc : VolatileSteps.send_pc;
  cpc : VolatileSteps.receive_pc (T:=T);
  sent : list T;
  got : list (slot T)
}.

Definition producer_step (retry : bool) (s : system) : outcome system :=
  match todo s with
  | [] => Ok s
  | item :: rest =>
      let* '(c', pc') := VolatileSteps.send_step item (shared s) (ppc s) in
      match pc' with
      | VolatileSteps.send_done true =>
          Ok (MkSystem c' rest VolatileSteps.send_read_r (cpc s)
                       (sent s ++ [item]) (got s))
      | VolatileSteps.send_done false =>
          Ok (MkSystem c' (if retry then item :: rest else rest)
                       VolatileSteps.send_read_r (cpc s) (sent s) (got s))
      | _ => Ok (MkSystem c' (todo s) pc' (cpc s) (sent s) (got s))
      end
  end.

Definition consumer_step (s : system) : outcome system :=
  let* '(c', pc') := VolatileSteps.receive_step (shared s) (cpc s) in
  match pc' with
  | VolatileSteps.receive_done true out =>
      Ok (MkSystem c' (todo s) (ppc s) (VolatileSteps.receive_read_r None)
                   (sent s) (got s ++ [out]))
  | VolatileSteps.receive_done false _ =>
      Ok (MkSystem c' (todo s) (ppc s) (VolatileSteps.receive_read_r None)
                   (sent s) (got s))
  | _ => Ok (MkSystem c' (todo s) (ppc s) pc' (sent s) (got s))
  end.

Fixpoint run (retry : bool) (sched : list AtomicSystem.thread) (s : system)
  : outcome system :=
  match sched with
  | [] => Ok s
  | who :: rest =>
      let* s' := match who with
                 | AtomicSystem.Producer => producer_step retry s
                 | AtomicSystem.Consumer => consumer_step s
                 end in
      run retry rest s'
  end.

Definition start (c : Channel T) (items : list T) : system :=
  MkSystem c items VolatileSteps.send_read_r (VolatileSteps.receive_read_r None) [] [].

(** The read index the producer holds is one the consumer published
    while the write index had its present value: the occupancy it
    gives is at least the present one and at most the capacity. *)
Definition stale_r (c : Channel T) (r : Z) : Prop :=
  0 <= r < size_ c /\
  occupancy c <= (w_ c - r) mod size_ c <= cap_ c.

Definition producer_ok (s : system) : Prop :=
  let c := shared s in
  match ppc s with
  | VolatileSteps.send_read_r => True
  | VolatileSteps.send_read_w r => stale_r c r
  | VolatileSteps.send_fence_acq r w next
  | VolatileSteps.send_check r w next =>
      w = w_ c /\ next = (w + 1) mod size_ c /\ stale_r c r
  | VolatileSteps.send_store w next =>
      w = w_ c /\ next = (w + 1) mod size_ c /\ occupancy c < cap_ c
  | VolatileSteps.send_fence_rel w next
  | VolatileSteps.send_cas w next =>
      w = w_ c /\ next = (w + 1) mod size_ c /\ occupancy c < cap_ c /\
      exists item rest,
        todo s = item :: rest /\ buf_ c !! Z.to_nat w = Some (Some item)
  | VolatileSteps.send_done _ => False
  end.

Definition consumer_ok (s : system) : Prop :=
  let c := shared s in
  match cpc s with
  | VolatileSteps.receive_read_r _ => True
  | VolatileSteps.receive_read_w _ r => r = r_ c
  | VolatileSteps.receive_fence_acq _ r w
  | VolatileSteps.receive_check _ r w =>
      r = r_ c /\ (r <> w -> occupancy c > 0)
  | VolatileSteps.receive_load r => r = r_ c /\ occupancy c > 0
  | VolatileSteps.receive_fence v r next
  | VolatileSteps.receive_cas v r next =>
      r = r_ c /\ next = (r + 1) mod size_ c /\ occupancy c > 0 /\
      v = slot_at (buf_ c) r
  | VolatileSteps.receive_done _ _ => False
  end.

Definition sys_inv (items : list T) (retry : bool) (s : system) : Prop :=
  wf (shared s) /\ 1 <= cap_ (shared s) /\
  map Some (sent s) = got s ++ queued (shared s) /\
  (retry = true -> sent s ++ todo s = items) /\
  producer_ok s /\ consumer_ok s.

End Sys.
End VolatileSystem.

(** ** The .wav player that illustrates the channel (example program)

    The main thread reads the file buffer by buffer into reusable
    chunks and sends them to the audio thread over [filledChunks]; the
    audio callback plays a chunk and sends it back over [emptyChunks].
    A chunk pointer is the number of the [new float[]] that made it;
    [heap] holds what each chunk contains, [None] once it was deleted.
    The file is the list of its full buffers followed by [tail], the
    last, short read padded with zeros.  The libraries are taken to
    succeed: the file opens, the stream starts, and the callback is
    invoked, any number of times, between [Pa_StartStream] and
    [Pa_StopStream].  The two threads alternate call by call; the calls
    are those of the rounding revisions (the capacity 10 fails the
    assertion of the dummy-slot revision). *)

Module Player.
Section Program.
Context {block : Type}.
Variable zeros : block.
Variable tail : block.

Definition kChunks : nat := 10.

(** Where the main thread is. *)
Inductive main_pc : Type :=
| main_alloc (i : nat)          (* for (i < kChunks): new, memset, emptyChunks.Send *)
| main_wait_empty               (* while (!emptyChunks.Receive(&chunk)) Pa_Sleep(10); *)
| main_read (chunk : nat)       (* n = sf_readf_float(f, chunk, ...); memset(...); *)
| main_wait_filled (chunk : nat) (full_read : bool)
                                (* while (!filledChunks.Send(chunk)) Pa_Sleep(10); *)
| main_drain (i : nat)          (* for (i < kChunks): Receive, delete[] chunk; *)
| main_stopped.                 (* Pa_StopStream ...; return 0; *)

Record player : Type := MkPlayer {
  filledChunks : Channel nat;
  emptyChunks : Channel nat;
  heap : list (option block);
  file : list block;
  mpc : main_pc;
  cb : option nat;               (* the chunk the callback has received and not yet sent back *)
  out : list (option block);     (* per callback: the chunk copied to the sound card, or zeros *)
  deleted : list nat;
  leaked : list nat              (* chunks whose [Send] returned [false], unnoticed *)
}.

(** Reading or writing through a chunk pointer: the chunk must exist
    and not have been deleted. *)
Definition chunk_load (h : list (option block)) (chunk : nat) : outcome block :=
  match h !! chunk with
  | Some (Some b) => Ok b
  | _ => Undefined
  end.

(** [Channel<float*> filledChunks(kChunks); Channel<float*> emptyChunks(kChunks);]
    and the start of [main]. *)
Definition boot (f : list block) : outcome player :=
  let* filled := Channel_ctor nat (Z.of_nat kChunks) in
  let* empty := Channel_ctor nat (Z.of_nat kChunks) in
  Ok (MkPlayer filled empty [] f (main_alloc 0) None [] [] []).

(** One call of the main thread (lines 76-129). *)
Definition main_step (p : player) : outcome player :=
  match mpc p with
  | main_alloc i =>
      if (i <? kChunks)%nat then
        let chunk := length (heap p) in
        let* '(ok, e) := Atomic.Send (emptyChunks p) chunk in
        Ok (MkPlayer (filledChunks p) e (heap p ++ [Some zeros]) (file p)
                     (main_alloc (S i)) (cb p) (out p) (deleted p)
                     (if ok then leaked p else leaked p ++ [chunk]))
      else
        Ok (MkPlayer (filledChunks p) (emptyChunks p) (heap p) (file p)
                     main_wait_empty (cb p) (out p) (deleted p) (leaked p))
  | main_wait_empty =>
      let* '(ok, got, e) := Atomic.Receive (emptyChunks p) None in
      if ok then
        match got with
        | Some chunk =>
            Ok (MkPlayer (filledChunks p) e (heap p) (file p)
                         (main_read chunk) (cb p) (out p) (deleted p) (leaked p))
        | None => Undefined
        end
      else
        Ok (MkPlayer (filledChunks p) e (heap p) (file p)
                     main_wait_empty (cb p) (out p) (deleted p) (leaked p))
  | main_read chunk =>
      let* _ := chunk_load (heap p) chunk in
      match file p with
      | b :: rest =>
          Ok (MkPlayer (filledChunks p) (emptyChunks p) (<[chunk := Some b]> (heap p))
                       rest (main_wait_filled chunk true) (cb p) (out p)
                       (deleted p) (leaked p))
      | [] =>
          Ok (MkPlayer (filledChunks p) (emptyChunks p) (<[chunk := Some tail]> (heap p))
                       [] (main_wait_filled chunk false) (cb p) (out p)
                       (deleted p) (leaked p))
      end
  | main_wait_filled chunk full_read =>
      let* '(ok, f) := Atomic.Send (filledChunks p) chunk in
      Ok (MkPlayer f (emptyChunks p) (heap p) (file p)
                   (if ok then (if full_read then main_wait_empty else main_drain 0)
                    else main_wait_filled chunk full_read)
                   (cb p) (out p) (deleted p) (leaked p))
  | main_drain i =>
      if (i <? kChunks)%nat then
        let* '(ok, got, e) := Atomic.Receive (emptyChunks p) None in
        if ok then
          match got with
          | Some chunk =>
              let* _ := chunk_load (heap p) chunk in
              Ok (MkPlayer (filledChunks p) e (<[chunk := None]> (heap p)) (file p)
                           (main_drain (S i)) (cb p) (out p)
                           (deleted p ++ [chunk]) (leaked p))
          | None => Undefined
          end
        else
          Ok (MkPlayer (filledChunks p) e (heap p) (file p)
                       (main_drain i) (cb p) (out p) (deleted p) (leaked p))
      else
        Ok (MkPlayer (filledChunks p) (emptyChunks p) (heap p) (file p)
                     main_stopped (cb p) (out p) (deleted p) (leaked p))
  | main_stopped => Ok p
  end.

(** Is the stream running, so that the callback is invoked? *)
Definition streaming (pc : main_pc) : bool :=
  match pc with
  | main_alloc _ | main_stopped => false
  | _ => true
  end.

(** One call of the audio thread inside [callback] (lines 37-55): the
    [Receive] with the copy to the sound card, or the [Send] that
    returns the chunk. *)
Definition audio_step (p : player) : outcome player :=
  if streaming (mpc p) then
    match cb p with
    | None =>
        let* '(ok, got, f) := Atomic.Receive (filledChunks p) None in
        if ok then
          match got with
          | Some chunk =>
              let* b := chunk_load (heap p) chunk in
              Ok (MkPlayer f (emptyChunks p) (heap p) (file p) (mpc p)
                           (Some chunk) (out p ++ [Some b]) (deleted p) (leaked p))
          | None => Undefined
          end
        else
          Ok (MkPlayer f (emptyChunks p) (heap p) (file p) (mpc p)
                       None (out p ++ [None]) (deleted p) (leaked p))
    | Some chunk =>
        let* '(ok, e) := Atomic.Send (emptyChunks p) chunk in
        Ok (MkPlayer (filledChunks p) e (heap p) (file p) (mpc p)
                     None (out p) (deleted p)
                     (if ok then leaked p else leaked p ++ [chunk]))
    end
  else Ok p.

Inductive thread : Type := Main | Audio.

Fixpoint run (sched : list thread) (p : player) : outcome player :=
  match sched with
  | [] => Ok p
  | who :: rest =>
      let* p' := match who with Main => main_step p | Audio => audio_step p end in
      run rest p'
  end.

(** The buffers that reached the sound card, without the silences. *)
Definition played (p : player) : list block := omap id (out p).

(** The chunks a thread holds outside the channels. *)
Definition held (p : player) : list (option nat) :=
  match mpc p with
  | main_read chunk | main_wait_filled chunk _ => [Some chunk]
  | _ => []
  end ++
  match cb p with Some chunk => [Some chunk] | None => [] end.

(** The buffer read from the file and not yet sent. *)
Definition pending (p : player) : list block :=
  match mpc p with
  | main_wait_filled chunk _ =>
      match heap p !! chunk with Some (Some b) => [b] | _ => [] end
  | _ => []
  end.

(** What is still to be read from the file. *)
Definition remaining (p : player) : list block :=
  match mpc p with
  | main_alloc _ | main_wait_empty | main_read _ | main_wait_filled _ true =>
      file p ++ [tail]
  | _ => []
  end.

(** The queued pointer [s] points to a live chunk that contains [b]. *)
Definition holds_block (h : list (option block)) (s : option nat) (b : block) : Prop :=
  exists chunk, s = Some chunk /\ h !! chunk = Some (Some b).

Definition phase_ok (f : list block) (p : player) : Prop :=
  match mpc p with
  | main_alloc i =>
      length (heap p) = i /\ (i <= kChunks)%nat /\ queued (filledChunks p) = [] /\
      cb p = None /\ deleted p = [] /\ out p = [] /\ file p = f
  | main_wait_empty | main_read _ | main_wait_filled _ _ =>
      length (heap p) = kChunks /\ deleted p = []
  | main_drain i =>
      length (heap p) = kChunks /\ length (deleted p) = i /\ (i <= kChunks)%nat
  | main_stopped =>
      length (heap p) = kChunks /\ length (deleted p) = kChunks
  end.

(** Every chunk is in exactly one place; the deleted chunks are the
    dead ones; the buffers played, queued, pending and unread make up
    the file. *)
Definition player_inv (f : list block) (p : player) : Prop :=
  wf (filledChunks p) /\ wf (emptyChunks p) /\
  cap_ (filledChunks p) = Z.of_nat kChunks /\
  cap_ (emptyChunks p) = Z.of_nat kChunks /\
  queued (emptyChunks p) ++ queued (filledChunks p) ++ held p ++ map Some (deleted p)
    ≡ₚ map Some (seq 0 (length (heap p))) /\
  (forall chunk, heap p !! chunk = Some None <-> chunk ∈ deleted p) /\
  leaked p = [] /\
  phase_ok f p /\
  exists qb,
    Forall2 (holds_block (heap p)) (queued (filledChunks p)) qb /\
    played p ++ qb ++ pending p ++ remaining p = f ++ [tail].

End Program.
End Player.

(** * Properties *)

(** ** Arithmetic of the indices *)

Lemma int_of_Ok (z : Z) : INT_MIN <= z <= INT_MAX -> int_of z = Ok z.
Proof.
  intros H. unfold int_of, in_int.
  destruct (Z.leb_spec INT_MIN z), (Z.leb_spec z INT_MAX); simpl; auto; lia.
Qed.

Lemma int_of_inv (z v : Z) : int_of z = Ok v -> v = z /\ INT_MIN <= z <= INT_MAX.
Proof.
  unfold int_of, in_int.
  destruct (Z.leb_spec INT_MIN z), (Z.leb_spec z INT_MAX); simpl;
    intros E; inversion E; subst; lia.
Qed.

Lemma land_mask (x p : Z) : 0 <= p -> Z.land x (2 ^ p - 1) = x mod 2 ^ p.
Proof.
  intros Hp. rewrite <- (Z.land_ones x p Hp). f_equal.
  rewrite Z.ones_equiv. lia.
Qed.

Lemma pow2_bounds (p : Z) : 0 <= p <= 30 -> 1 <= 2 ^ p <= 2 ^ 30.
Proof.
  intros Hp. split.
  - apply (Z.pow_le_mono_r 2 0 p); lia.
  - apply Z.pow_le_mono_r; lia.
Qed.

Lemma mod_wrap_sub (a b s : Z) :
  0 <= a < s -> 0 <= b < s ->
  (a - b) mod s = if b <=? a then a - b else a - b + s.
Proof.
  intros Ha Hb. destruct (Z.leb_spec b a).
  - apply Z.mod_small. lia.
  - rewrite <- (Z.mod_add (a - b) 1 s) by lia.
    rewrite Z.mul_1_l. apply Z.mod_small. lia.
Qed.

Lemma mod_wrap_succ (a s : Z) :
  0 <= a < s -> (a + 1) mod s = if a + 1 =? s then 0 else a + 1.
Proof.
  intros Ha. destruct (Z.eqb_spec (a + 1) s) as [E|N].
  - rewrite E. apply Z.mod_same. lia.
  - apply Z.mod_small. lia.
Qed.

Lemma int_max_val : INT_MAX = 2147483647.
Proof. reflexivity. Qed.

Lemma int_min_val : INT_MIN = -2147483648.
Proof. reflexivity. Qed.

Lemma pow2_30_val : 2 ^ 30 = 1073741824.
Proof. reflexivity. Qed.

Ltac splits := repeat match goal with |- _ /\ _ => split end.

Ltac int_facts :=
  pose proof int_max_val; pose proof int_min_val; pose proof pow2_30_val.

(** ** One call on a well-formed channel *)

Section Steps.
Context {T : Type}.
Implicit Types (c : Channel T) (t : T) (item : slot T).

Lemma wf_size_bounds c : wf c -> 1 <= size_ c <= 2 ^ 30.
Proof. intros [[p [Hp E]] _ _ _ _ _ _ _]. rewrite E. now apply pow2_bounds. Qed.

Lemma wf_and_mask c x : wf c -> int_and x (size_mask_ c) = x mod size_ c.
Proof.
  intros [[p [Hp E]] M _ _ _ _ _ _]. unfold int_and.
  rewrite M, E. apply land_mask. lia.
Qed.

Lemma wf_occupancy c :
  wf c ->
  occupancy c = if r_ c <=? w_ c then w_ c - r_ c else w_ c - r_ c + size_ c.
Proof. intros H. destruct H. unfold occupancy. now apply mod_wrap_sub. Qed.

Lemma wf_in_bounds c i : wf c -> 0 <= i < size_ c -> in_bounds (buf_ c) i = true.
Proof.
  intros H Hi. destruct H. unfold in_bounds.
  destruct (Z.leb_spec 0 i), (Z.ltb_spec i (Z.of_nat (length (buf_ c)))); simpl; auto; lia.
Qed.

Lemma Atomic_Send_wf c t :
  wf c ->
  Atomic.Send c t =
    if occupancy c =? cap_ c then Ok (false, c) else Ok (true, send_next c t).
Proof.
  intros H. pose proof (wf_size_bounds c H) as Hs.
  pose proof (wf_occupancy c H) as Ho.
  pose proof (wf_and_mask c (w_ c + 1) H) as Hm.
  pose proof (wf_in_bounds c (w_ c) H) as Hb.
  destruct H. int_facts.
  unfold Atomic.Send, int_sub, int_add.
  rewrite int_of_Ok by lia. simpl bind.
  rewrite Ho.
  destruct (Z.eqb_spec (w_ c - r_ c) (cap_ c)) as [E|N].
  - simpl. destruct (Z.leb_spec (r_ c) (w_ c)); [|lia].
    rewrite E, Z.eqb_refl. reflexivity.
  - rewrite int_of_Ok by lia. simpl bind.
    destruct (Z.leb_spec (r_ c) (w_ c)).
    + destruct (Z.eqb_spec (w_ c - r_ c + size_ c) (cap_ c)); [lia|].
      destruct (Z.eqb_spec (w_ c - r_ c) (cap_ c)); [lia|].
      unfold array_store. rewrite Hb by lia. simpl bind.
      rewrite int_of_Ok by lia. simpl bind. rewrite Hm. reflexivity.
    + destruct (Z.eqb_spec (w_ c - r_ c + size_ c) (cap_ c)); [reflexivity|].
      unfold array_store. rewrite Hb by lia. simpl bind.
      rewrite int_of_Ok by lia. simpl bind. rewrite Hm. reflexivity.
Qed.

Lemma Atomic_Receive_wf c item :
  wf c ->
  Atomic.Receive c item =
    if occupancy c =? 0 then Ok (false, item, c)
    else Ok (true, slot_at (buf_ c) (r_ c), recv_next c).
Proof.
  intros H. pose proof (wf_size_bounds c H) as Hs.
  pose proof (wf_occupancy c H) as Ho.
  pose proof (wf_and_mask c (r_ c + 1) H) as Hm.
  pose proof (wf_in_bounds c (r_ c) H) as Hb.
  destruct H. int_facts.
  unfold Atomic.Receive, int_add. rewrite Ho.
  destruct (Z.eqb_spec (r_ c) (w_ c)) as [E|N].
  - rewrite E, Z.leb_refl, Z.sub_diag. reflexivity.
  - assert (((if r_ c <=? w_ c then w_ c - r_ c else w_ c - r_ c + size_ c) =? 0) = false) as ->.
    { destruct (Z.leb_spec (r_ c) (w_ c)); apply Z.eqb_neq; lia. }
    unfold array_load. rewrite Hb by lia. simpl bind.
    rewrite int_of_Ok by lia. simpl bind. rewrite Hm. reflexivity.
Qed.

Lemma ring_index_inj (r k j s : Z) :
  0 <= k < s -> 0 <= j < s -> (r + k) mod s = (r + j) mod s -> k = j.
Proof.
  intros Hk Hj E.
  rewrite <- (Z.mod_small k s), <- (Z.mod_small j s) by lia.
  replace k with (r + k - r) by lia. replace j with (r + j - r) by lia.
  rewrite <- (Zminus_mod_idemp_l (r + k)), <- (Zminus_mod_idemp_l (r + j)).
  now rewrite E.
Qed.

Lemma ring_index_write (r w s : Z) :
  0 <= w < s -> (r + (w - r) mod s) mod s = w.
Proof.
  intros Hw. rewrite Z.add_mod_idemp_r by lia.
  replace (r + (w - r)) with w by lia. apply Z.mod_small. lia.
Qed.

Lemma slot_at_insert_eq (buf : list (slot T)) (i : Z) t :
  0 <= i < Z.of_nat (length buf) ->
  slot_at (<[Z.to_nat i := Some t]> buf) i = Some t.
Proof.
  intros Hi. unfold slot_at.
  rewrite list_lookup_insert_eq by lia. reflexivity.
Qed.

Lemma slot_at_insert_ne (buf : list (slot T)) (i j : Z) t :
  0 <= i -> 0 <= j -> i <> j ->
  slot_at (<[Z.to_nat i := Some t]> buf) j = slot_at buf j.
Proof.
  intros Hi Hj N. unfold slot_at.
  rewrite list_lookup_insert_ne by lia. reflexivity.
Qed.

Lemma occupancy_send_next c t :
  wf c -> occupancy c <> cap_ c ->
  occupancy (send_next c t) = occupancy c + 1.
Proof.
  intros H N. pose proof (wf_size_bounds c H). destruct H.
  unfold occupancy in *. simpl.
  rewrite Zminus_mod_idemp_l.
  replace (w_ c + 1 - r_ c) with (w_ c - r_ c + 1) by lia.
  rewrite <- Z.add_mod_idemp_l by lia.
  apply Z.mod_small.
  pose proof (Z.mod_pos_bound (w_ c - r_ c) (size_ c)). lia.
Qed.

Lemma occupancy_recv_next c :
  wf c -> occupancy c <> 0 ->
  occupancy (recv_next c) = occupancy c - 1.
Proof.
  intros H N. pose proof (wf_size_bounds c H). destruct H.
  unfold occupancy in *. simpl.
  rewrite Zminus_mod_idemp_r.
  replace (w_ c - (r_ c + 1)) with (w_ c - r_ c - 1) by lia.
  rewrite <- Zminus_mod_idemp_l.
  apply Z.mod_small.
  pose proof (Z.mod_pos_bound (w_ c - r_ c) (size_ c)). lia.
Qed.

Lemma queued_send_next c t :
  wf c -> occupancy c <> cap_ c ->
  queued (send_next c t) = queued c ++ [Some t].
Proof.
  intros H N. pose proof (wf_size_bounds c H) as Hs.
  pose proof (occupancy_send_next c t H N) as Ho.
  unfold queued. rewrite Ho.
  assert (0 <= occupancy c < size_ c) as Hocc.
  { unfold occupancy. apply Z.mod_pos_bound. lia. }
  replace (Z.to_nat (occupancy c + 1)) with (S (Z.to_nat (occupancy c))) by lia.
  rewrite seq_S, List.map_app. simpl. destruct H. f_equal.
  - apply List.map_ext_in. intros k Hk. apply in_seq in Hk.
    apply slot_at_insert_ne; try lia.
    + apply Z.mod_pos_bound. lia.
    + intros E. rewrite <- (ring_index_write (r_ c) (w_ c) (size_ c)) in E at 1 by lia.
      apply ring_index_inj in E; unfold occupancy in *; lia.
  - f_equal. rewrite Z2Nat.id by lia. unfold occupancy.
    rewrite ring_index_write by lia.
    apply slot_at_insert_eq. lia.
Qed.

Lemma queued_recv_next c :
  wf c -> occupancy c <> 0 ->
  queued c = slot_at (buf_ c) (r_ c) :: queued (recv_next c).
Proof.
  intros H N. pose proof (wf_size_bounds c H) as Hs.
  pose proof (occupancy_recv_next c H N) as Ho.
  unfold queued. rewrite Ho.
  assert (0 <= occupancy c < size_ c) as Hocc.
  { unfold occupancy. apply Z.mod_pos_bound. lia. }
  replace (Z.to_nat (occupancy c)) with (S (Z.to_nat (occupancy c - 1))) by lia.
  destruct H. simpl seq. rewrite <- seq_shift. simpl map. rewrite List.map_map. simpl. f_equal.
  - rewrite Z.add_0_r, Z.mod_small by lia. reflexivity.
  - apply List.map_ext. intros k. f_equal.
    rewrite Z.add_mod_idemp_l by lia. f_equal. lia.
Qed.

Lemma wf_send_next c t : wf c -> occupancy c <> cap_ c -> wf (send_next c t).
Proof.
  intros H N. pose proof (wf_size_bounds c H) as Hs.
  pose proof (occupancy_send_next c t H N) as Ho.
  pose proof (queued_send_next c t H N) as Hq.
  destruct H. split; simpl; auto.
  - rewrite length_insert. assumption.
  - apply Z.mod_pos_bound. lia.
  - rewrite Ho. lia.
  - rewrite Hq. apply Forall_app. split; [assumption|].
    constructor; [discriminate|constructor].
Qed.

Lemma wf_recv_next c : wf c -> occupancy c <> 0 -> wf (recv_next c).
Proof.
  intros H N. pose proof (wf_size_bounds c H) as Hs.
  pose proof (occupancy_recv_next c H N) as Ho.
  pose proof (queued_recv_next c H N) as Hq.
  destruct H. split; simpl; auto.
  - apply Z.mod_pos_bound. lia.
  - rewrite Ho. lia.
  - rewrite Hq in wf_init0. now inversion wf_init0.
Qed.

End Steps.

(** ** Construction *)

Section Construction.
Context {T : Type}.

Lemma int_shl_1 (p : Z) :
  int_shl 1 p = if (0 <=? p) && (p <=? 30) then Ok (2 ^ p) else Undefined.
Proof.
  unfold int_shl. int_facts.
  destruct (Z.leb_spec 0 p); simpl; [|reflexivity].
  destruct (Z.ltb_spec p 32), (Z.leb_spec p 30); simpl; try lia; try reflexivity.
  - rewrite Z.shiftl_1_l. apply int_of_Ok.
    pose proof (pow2_bounds p). lia.
  - assert (p = 31) as -> by lia. reflexivity.
Qed.

Lemma Channel_ctor_cases (capacity : Z) :
  Channel_ctor T capacity =
    if capacity <? 0 then AssertFailed
    else if (capacity =? 0) || (2 ^ 30 <=? capacity) then Undefined
    else Ok (fresh T capacity).
Proof.
  unfold Channel_ctor, assert, floor_log2_plus_1. rewrite Z.geb_leb.
  destruct (Z.ltb_spec capacity 0), (Z.leb_spec 0 capacity); try lia;
    simpl bind; [reflexivity|].
  destruct (Z.eqb_spec capacity 0) as [->|N]; [reflexivity|].
  destruct (Z.leb_spec capacity 0); [lia|]. simpl orb.
  pose proof (Z.log2_nonneg capacity) as Hl. int_facts.
  unfold int_add.
  destruct (Z.leb_spec (2 ^ 30) capacity) as [Hc|Hc].
  - apply Z.log2_le_pow2 in Hc; [|lia].
    unfold int_of. destruct (in_int (Z.log2 capacity + 1)); [|reflexivity].
    simpl bind. rewrite int_shl_1.
    destruct (Z.leb_spec 0 (Z.log2 capacity + 1)),
             (Z.leb_spec (Z.log2 capacity + 1) 30); try lia; reflexivity.
  - apply Z.log2_lt_pow2 in Hc; [|lia].
    rewrite int_of_Ok by lia. simpl bind. rewrite int_shl_1.
    destruct (Z.leb_spec 0 (Z.log2 capacity + 1)),
             (Z.leb_spec (Z.log2 capacity + 1) 30); try lia.
    simpl bind. pose proof (pow2_bounds (Z.log2 capacity + 1)).
    unfold int_sub. rewrite int_of_Ok by lia. simpl bind.
    unfold new_array.
    destruct (Z.ltb_spec (2 ^ (Z.log2 capacity + 1)) 0); [lia|]. reflexivity.
Qed.

Lemma Channel_ctor_inv (capacity : Z) (c : Channel T) :
  Channel_ctor T capacity = Ok c -> 1 <= capacity < 2 ^ 30 /\ c = fresh T capacity.
Proof.
  rewrite Channel_ctor_cases.
  destruct (Z.ltb_spec capacity 0); [discriminate|].
  destruct (Z.eqb_spec capacity 0); [discriminate|].
  destruct (Z.leb_spec (2 ^ 30) capacity); [discriminate|].
  simpl. intros E. inversion E. split; [lia|reflexivity].
Qed.

Lemma Channel_ctor_Ok (capacity : Z) :
  1 <= capacity < 2 ^ 30 -> Channel_ctor T capacity = Ok (fresh T capacity).
Proof.
  intros H. rewrite Channel_ctor_cases.
  destruct (Z.ltb_spec capacity 0); [lia|].
  destruct (Z.eqb_spec capacity 0); [lia|].
  destruct (Z.leb_spec (2 ^ 30) capacity); [lia|]. reflexivity.
Qed.

Lemma fresh_size_gt (capacity : Z) :
  1 <= capacity -> capacity < 2 ^ (Z.log2 capacity + 1).
Proof.
  intros H. replace (Z.log2 capacity + 1) with (Z.succ (Z.log2 capacity)) by lia.
  apply Z.log2_spec. lia.
Qed.

Lemma occupancy_fresh (capacity : Z) :
  1 <= capacity -> occupancy (fresh T capacity) = 0.
Proof.
  intros H. pose proof (fresh_size_gt capacity H).
  unfold occupancy, fresh. cbn [w_ r_ size_].
  rewrite Z.sub_diag. apply Z.mod_0_l. lia.
Qed.

Lemma wf_fresh (capacity : Z) : 1 <= capacity < 2 ^ 30 -> wf (fresh T capacity).
Proof.
  intros H.
  assert (0 <= Z.log2 capacity + 1 <= 30) as Hp.
  { pose proof (Z.log2_nonneg capacity).
    assert (Z.log2 capacity < 30) by (apply Z.log2_lt_pow2; lia). lia. }
  pose proof (pow2_bounds _ Hp) as Hs.
  pose proof (fresh_size_gt capacity ltac:(lia)) as Hg.
  pose proof (occupancy_fresh capacity ltac:(lia)) as Hz.
  split; simpl.
  - eexists. split; [exact Hp|reflexivity].
  - reflexivity.
  - lia.
  - rewrite length_replicate. lia.
  - lia.
  - lia.
  - rewrite Hz. lia.
  - unfold queued. rewrite Hz. constructor.
Qed.

End Construction.

(** ** Sequences of calls on the [std::atomic] revision *)

Section AtomicRuns.
Context {T : Type}.
Implicit Types (c : Channel T) (calls : list (call T)) (evs : list (event T)).
Implicit Types (q : list (slot T)).

Lemma next_in_order_nil q : next_in_order q [].
Proof. intros [|e evs1] out evs2 E; discriminate. Qed.

Lemma next_in_order_send_false q item evs :
  next_in_order q evs -> next_in_order q (SendEv item false :: evs).
Proof.
  intros H [|e evs1] out evs2 E; [discriminate|].
  injection E as <- E. simpl. now apply (H evs1 out evs2).
Qed.

Lemma next_in_order_send_true q item evs :
  next_in_order (q ++ [Some item]) evs -> next_in_order q (SendEv item true :: evs).
Proof.
  intros H [|e evs1] out evs2 E; [discriminate|].
  injection E as <- E. simpl.
  specialize (H evs1 out evs2 E). now rewrite <- app_assoc in H.
Qed.

Lemma next_in_order_receive_false q out0 evs :
  next_in_order q evs -> next_in_order q (ReceiveEv false out0 :: evs).
Proof.
  intros H [|e evs1] out evs2 E; [discriminate|].
  injection E as <- E. simpl. now apply (H evs1 out evs2).
Qed.

Lemma next_in_order_receive_true q v evs :
  next_in_order q evs -> next_in_order (v :: q) (ReceiveEv true v :: evs).
Proof.
  intros H [|e evs1] out evs2 E.
  - injection E as <- _. reflexivity.
  - injection E as <- E. simpl. now apply (H evs1 out evs2).
Qed.

(** The invariant of a run, from any well-formed channel. *)
Lemma Atomic_run_wf calls : forall c,
  wf c ->
  exists evs c',
    Atomic.run c calls = Ok (evs, c') /\
    wf c' /\
    cap_ c' = cap_ c /\ size_ c' = size_ c /\
    queued c ++ map Some (accepted evs) = delivered evs ++ queued c' /\
    next_in_order (queued c) evs.
Proof.
  induction calls as [|[item|] rest IH]; intros c H.
  - exists [], c. simpl. rewrite app_nil_r.
    splits; auto using next_in_order_nil.
  - simpl. rewrite Atomic_Send_wf by assumption.
    destruct (Z.eqb_spec (occupancy c) (cap_ c)) as [E|N]; simpl bind.
    + destruct (IH c H) as (evs & c' & -> & Hwf & Hc & Hs & Hq & Hn).
      exists (SendEv item false :: evs), c'. simpl.
      splits; auto using next_in_order_send_false.
    + destruct (IH _ (wf_send_next c item H N))
        as (evs & c' & -> & Hwf & Hc & Hs & Hq & Hn).
      rewrite (queued_send_next c item H N) in Hq, Hn.
      exists (SendEv item true :: evs), c'. simpl.
      splits; auto using next_in_order_send_true.
      now rewrite <- app_assoc in Hq.
  - simpl. rewrite Atomic_Receive_wf by assumption.
    destruct (Z.eqb_spec (occupancy c) 0) as [E|N]; simpl bind.
    + destruct (IH c H) as (evs & c' & -> & Hwf & Hc & Hs & Hq & Hn).
      exists (ReceiveEv false None :: evs), c'. simpl.
      splits; auto using next_in_order_receive_false.
    + destruct (IH _ (wf_recv_next c H N))
        as (evs & c' & -> & Hwf & Hc & Hs & Hq & Hn).
      exists (ReceiveEv true (slot_at (buf_ c) (r_ c)) :: evs), c'. simpl.
      rewrite (queued_recv_next c H N).
      splits; auto using next_in_order_receive_true.
      simpl. now rewrite Hq.
Qed.

Lemma queued_fresh (capacity : Z) :
  1 <= capacity < 2 ^ 30 -> queued (fresh T capacity) = [].
Proof.
  intros H. unfold queued. rewrite occupancy_fresh by lia. reflexivity.
Qed.

Lemma length_queued c : wf c -> Z.of_nat (length (queued c)) = occupancy c.
Proof.
  intros H. pose proof (wf_size_bounds c H). unfold queued.
  rewrite length_map, length_seq.
  pose proof (Z.mod_pos_bound (w_ c - r_ c) (size_ c)). unfold occupancy. lia.
Qed.

End AtomicRuns.

(** ** The [volatile] revision, call by call *)

Section VolatileRuns.
Context {T : Type}.
Implicit Types (c : Channel T) (calls : list (call T)) (t : T).

(** Run by one thread alone, the compare-and-swap finds the value that
    was just read and the loop body is entered once. *)
Lemma spin_w_first_try (fuel : nat) c w next :
  w_ c = w -> Volatile.spin_w (S fuel) c w next = Ok (set_w c next).
Proof.
  intros <-. simpl. unfold sync_bool_compare_and_swap. now rewrite Z.eqb_refl.
Qed.

Lemma spin_r_first_try (fuel : nat) c r next :
  r_ c = r -> Volatile.spin_r (S fuel) c r next = Ok (set_r c next).
Proof.
  intros <-. simpl. unfold sync_bool_compare_and_swap. now rewrite Z.eqb_refl.
Qed.

Lemma Volatile_Send_wf (fuel : nat) c t :
  wf c -> 1 <= cap_ c ->
  Volatile.Send (S fuel) c t =
    if occupancy c =? cap_ c then Ok (false, c) else Ok (true, send_next c t).
Proof.
  intros H Hc. pose proof (wf_size_bounds c H) as Hs.
  pose proof (wf_occupancy c H) as Ho.
  pose proof (wf_and_mask c (w_ c + 1) H) as Hm.
  pose proof (wf_in_bounds c (w_ c) H) as Hb.
  destruct H. int_facts.
  unfold Volatile.Send, int_sub, int_add.
  rewrite int_of_Ok by lia. cbn [bind]. rewrite Ho, Hm.
  rewrite Z.gtb_ltb.
  assert (forall x (k : Z -> outcome (bool * Channel T)),
            (let* n := Ok x in k n) = k x) as Hbind by reflexivity.
  destruct (Z.ltb_spec (r_ c) (w_ c)), (Z.leb_spec (r_ c) (w_ c)); try lia.
  - rewrite int_of_Ok by lia. rewrite Hbind.
    destruct (Z.eqb_spec (w_ c - r_ c) (cap_ c)); [reflexivity|].
    unfold array_store. rewrite Hb by lia. cbn [bind].
    rewrite spin_w_first_try by reflexivity. reflexivity.
  - assert (r_ c = w_ c) as E by lia.
    rewrite int_of_Ok by lia. cbn [bind]. rewrite int_of_Ok by lia. rewrite Hbind.
    destruct (Z.eqb_spec (w_ c - r_ c + size_ c) (cap_ c)); [lia|].
    destruct (Z.eqb_spec (w_ c - r_ c) (cap_ c)); [lia|].
    unfold array_store. rewrite Hb by lia. cbn [bind].
    rewrite spin_w_first_try by reflexivity. reflexivity.
  - rewrite int_of_Ok by lia. cbn [bind]. rewrite int_of_Ok by lia. rewrite Hbind.
    destruct (Z.eqb_spec (w_ c - r_ c + size_ c) (cap_ c)); [reflexivity|].
    unfold array_store. rewrite Hb by lia. cbn [bind].
    rewrite spin_w_first_try by reflexivity. reflexivity.
Qed.

Lemma Volatile_Receive_wf (fuel : nat) c (item : slot T) :
  wf c ->
  Volatile.Receive (S fuel) c item =
    if occupancy c =? 0 then Ok (false, item, c)
    else Ok (true, slot_at (buf_ c) (r_ c), recv_next c).
Proof.
  intros H. pose proof (wf_size_bounds c H) as Hs.
  pose proof (wf_occupancy c H) as Ho.
  pose proof (wf_and_mask c (r_ c + 1) H) as Hm.
  pose proof (wf_in_bounds c (r_ c) H) as Hb.
  destruct H. int_facts.
  unfold Volatile.Receive, int_add. rewrite Ho.
  destruct (Z.eqb_spec (r_ c) (w_ c)) as [E|N].
  - rewrite E, Z.leb_refl, Z.sub_diag. reflexivity.
  - assert (((if r_ c <=? w_ c then w_ c - r_ c else w_ c - r_ c + size_ c) =? 0) = false) as ->.
    { destruct (Z.leb_spec (r_ c) (w_ c)); apply Z.eqb_neq; lia. }
    unfold array_load. rewrite Hb by lia. cbn [bind].
    rewrite int_of_Ok by lia. cbn [bind]. rewrite Hm.
    rewrite spin_r_first_try by reflexivity. reflexivity.
Qed.

Lemma Volatile_run_Atomic_run (fuel : nat) calls : forall c,
  wf c -> 1 <= cap_ c ->
  Volatile.run (S fuel) c calls = Atomic.run c calls.
Proof.
  induction calls as [|[item|] rest IH]; intros c H Hc.
  - reflexivity.
  - cbn [Volatile.run Atomic.run].
    rewrite Volatile_Send_wf, Atomic_Send_wf by assumption.
    destruct (Z.eqb_spec (occupancy c) (cap_ c)) as [E|N]; cbn [bind].
    + now rewrite IH.
    + rewrite IH; [reflexivity| now apply wf_send_next | exact Hc].
  - cbn [Volatile.run Atomic.run].
    rewrite Volatile_Receive_wf, Atomic_Receive_wf by assumption.
    destruct (Z.eqb_spec (occupancy c) 0) as [E|N]; cbn [bind].
    + now rewrite IH.
    + rewrite IH; [reflexivity| now apply wf_recv_next | exact Hc].
Qed.

End VolatileRuns.

(** ** The revision with a dummy slot, call by call *)

Section ReservedRuns.
Context {T : Type}.
Implicit Types (c : Reserved.Channel T) (calls : list (call T)) (t : T).

(** [(n & (n + 1)) == 0] on a non-negative [n] says that [n + 1] is a
    power of two. *)
Lemma land_succ_pow2 (n : Z) :
  0 <= n -> Z.land n (n + 1) = 0 -> n + 1 = 2 ^ Z.log2 (n + 1).
Proof.
  intros Hn E.
  destruct (Z.log2_spec (n + 1) ltac:(lia)) as [Hlo Hhi].
  destruct (Z.eq_dec (n + 1) (2 ^ Z.log2 (n + 1))) as [|N]; [assumption|].
  exfalso.
  assert (Z.log2 n = Z.log2 (n + 1)) as Hl.
  { apply Z.log2_unique; [apply Z.log2_nonneg|]. lia. }
  assert (0 < n) as Hpos.
  { pose proof (Z.pow_pos_nonneg 2 (Z.log2 (n + 1)) ltac:(lia) (Z.log2_nonneg _)). lia. }
  pose proof (Z.bit_log2 n Hpos) as B1.
  pose proof (Z.bit_log2 (n + 1) ltac:(lia)) as B2.
  rewrite Hl in B1.
  pose proof (Z.land_spec n (n + 1) (Z.log2 (n + 1))) as B.
  rewrite E, B1, B2, Z.bits_0 in B. discriminate.
Qed.

Lemma land_pred_pow2 (p : Z) : 0 <= p -> Z.land (2 ^ p - 1) (2 ^ p) = 0.
Proof.
  intros Hp. rewrite Z.land_comm, land_mask by assumption.
  apply Z.mod_same. pose proof (Z.pow_pos_nonneg 2 p). lia.
Qed.

Lemma Reserved_ctor_cases (n : Z) :
  Reserved.Channel_ctor (T:=T) n =
    if negb (in_int (n + 1)) then Undefined
    else if n + 1 <? 0 then Throws
    else if Z.land n (n + 1) =? 0 then Ok (rfresh T n)
    else AssertFailed.
Proof.
  unfold Reserved.Channel_ctor, int_add, int_of, new_array, assert, int_and.
  destruct (in_int (n + 1)); [|reflexivity]. simpl.
  destruct (n + 1 <? 0); [reflexivity|]. simpl.
  destruct (Z.land n (n + 1) =? 0); reflexivity.
Qed.

Lemma Reserved_ctor_Ok_inv (n : Z) c :
  Reserved.Channel_ctor n = Ok c ->
  c = rfresh T n /\ (n = -1 \/ 0 <= n < INT_MAX /\ n + 1 = 2 ^ Z.log2 (n + 1)).
Proof.
  rewrite Reserved_ctor_cases. unfold in_int. int_facts.
  destruct (Z.leb_spec INT_MIN (n + 1)), (Z.leb_spec (n + 1) INT_MAX);
    simpl; try discriminate.
  destruct (Z.ltb_spec (n + 1) 0); [discriminate|].
  destruct (Z.eqb_spec (Z.land n (n + 1)) 0) as [E|]; [|discriminate].
  intros [= <-]. split; [reflexivity|].
  destruct (Z.eq_dec n (-1)); [now left|right].
  split; [lia|]. apply land_succ_pow2; [lia|assumption].
Qed.

Lemma rwf_rfresh (n : Z) :
  0 <= n < INT_MAX -> n + 1 = 2 ^ Z.log2 (n + 1) -> rwf (rfresh T n).
Proof.
  intros Hn E. int_facts.
  assert (0 <= Z.log2 (n + 1) <= 30) as Hp.
  { split; [apply Z.log2_nonneg|].
    assert (Z.log2 (n + 1) < 31); [|lia].
    apply Z.log2_lt_pow2; [lia|]. change (2 ^ 31) with 2147483648. lia. }
  split; simpl.
  - eexists. split; [exact Hp|exact E].
  - lia.
  - rewrite length_replicate. lia.
  - lia.
  - lia.
Qed.

Lemma rwf_size_bounds c : rwf c -> 1 <= Reserved.n_ c <= 2 ^ 30.
Proof. intros [[p [Hp E]] _ _ _ _]. rewrite E. now apply pow2_bounds. Qed.

Lemma rwf_and_mask c x :
  rwf c -> int_and x (Reserved.size_mask_ c) = x mod Reserved.n_ c.
Proof.
  intros [[p [Hp E]] M _ _ _]. unfold int_and.
  rewrite M, E. apply land_mask. lia.
Qed.

Lemma rwf_in_bounds c i :
  rwf c -> 0 <= i < Reserved.n_ c -> in_bounds (Reserved.buf_ c) i = true.
Proof.
  intros H Hi. destruct H. unfold in_bounds.
  destruct (Z.leb_spec 0 i),
    (Z.ltb_spec i (Z.of_nat (length (Reserved.buf_ c)))); simpl; auto; lia.
Qed.

Lemma Reserved_Send_rwf (fuel : nat) c t :
  rwf c ->
  Reserved.Send (S fuel) c t =
    if (Reserved.w_ c + 1) mod Reserved.n_ c =? Reserved.r_ c
    then Ok (false, c) else Ok (true, rsend_next c t).
Proof.
  intros H. pose proof (rwf_size_bounds c H) as Hs.
  pose proof (rwf_and_mask c (Reserved.w_ c + 1) H) as Hm.
  pose proof (rwf_in_bounds c (Reserved.w_ c) H) as Hb.
  destruct H. int_facts.
  unfold Reserved.Send, int_add.
  rewrite int_of_Ok by lia. cbn [bind]. rewrite Hm.
  destruct (_ =? Reserved.r_ c); [reflexivity|].
  unfold array_store. rewrite Hb by lia. cbn [bind].
  simpl. unfold sync_bool_compare_and_swap. rewrite Z.eqb_refl. reflexivity.
Qed.

Lemma Reserved_Receive_rwf (fuel : nat) c (item : slot T) :
  rwf c ->
  Reserved.Receive (S fuel) c item =
    if Reserved.r_ c =? Reserved.w_ c then Ok (false, item, c)
    else Ok (true, slot_at (Reserved.buf_ c) (Reserved.r_ c), rrecv_next c).
Proof.
  intros H. pose proof (rwf_size_bounds c H) as Hs.
  pose proof (rwf_and_mask c (Reserved.r_ c + 1) H) as Hm.
  pose proof (rwf_in_bounds c (Reserved.r_ c) H) as Hb.
  destruct H. int_facts.
  unfold Reserved.Receive, int_add.
  destruct (_ =? Reserved.w_ c); [reflexivity|].
  unfold array_load. rewrite Hb by lia. cbn [bind].
  rewrite int_of_Ok by lia. cbn [bind]. rewrite Hm.
  simpl. unfold sync_bool_compare_and_swap. rewrite Z.eqb_refl. reflexivity.
Qed.

Lemma rwf_rsend_next c t : rwf c -> rwf (rsend_next c t).
Proof.
  intros H. pose proof (rwf_size_bounds c H). destruct H. split; simpl; auto.
  - rewrite length_insert. assumption.
  - apply Z.mod_pos_bound. lia.
Qed.

Lemma rwf_rrecv_next c : rwf c -> rwf (rrecv_next c).
Proof.
  intros H. pose proof (rwf_size_bounds c H). destruct H. split; simpl; auto.
  apply Z.mod_pos_bound. lia.
Qed.

Lemma Reserved_run_rwf (fuel : nat) calls : forall c,
  rwf c ->
  exists evs c',
    Reserved.run (S fuel) c calls = Ok (evs, c') /\ rwf c' /\
    Reserved.n_ c' = Reserved.n_ c.
Proof.
  induction calls as [|[item|] rest IH]; intros c H.
  - exists [], c. auto.
  - cbn [Reserved.run]. rewrite Reserved_Send_rwf by assumption.
    destruct (_ =? Reserved.r_ c); cbn [bind].
    + destruct (IH c H) as (evs & c' & -> & Hwf & Hn). simpl. eauto.
    + destruct (IH _ (rwf_rsend_next c item H)) as (evs & c' & -> & Hwf & Hn).
      simpl. eauto.
  - cbn [Reserved.run]. rewrite Reserved_Receive_rwf by assumption.
    destruct (_ =? Reserved.w_ c); cbn [bind].
    + destruct (IH c H) as (evs & c' & -> & Hwf & Hn). simpl. eauto.
    + destruct (IH _ (rwf_rrecv_next c H)) as (evs & c' & -> & Hwf & Hn).
      simpl. eauto.
Qed.

End ReservedRuns.

(** ** Calls from an arbitrary state *)

Ltac outcome_cases :=
  repeat match goal with
  | H : Ok _ = Ok _ |- _ => inversion H; subst; clear H
  | H : bind ?m _ = Ok _ |- _ =>
      let E := fresh "E" in destruct m eqn:E; cbn [bind] in H; try discriminate
  | H : (if ?b then _ else _) = Ok _ |- _ =>
      let E := fresh "E" in destruct b eqn:E; try discriminate
  | H : (let '(_, _) := ?p in _) = Ok _ |- _ =>
      let E := fresh "E" in destruct p eqn:E
  end.

Section AnyState.
Context {T : Type}.

Lemma Atomic_Send_false (c c' : Channel T) (t : T) :
  Atomic.Send c t = Ok (false, c') -> c' = c.
Proof. unfold Atomic.Send. intros H. outcome_cases; reflexivity. Qed.

Lemma Atomic_Receive_false (c c' : Channel T) (item out : slot T) :
  Atomic.Receive c item = Ok (false, out, c') -> c' = c /\ out = item.
Proof. unfold Atomic.Receive. intros H. outcome_cases; auto. Qed.

Lemma Volatile_Send_false (fuel : nat) (c c' : Channel T) (t : T) :
  Volatile.Send fuel c t = Ok (false, c') -> c' = c.
Proof. unfold Volatile.Send. intros H. outcome_cases; reflexivity. Qed.

Lemma Volatile_Receive_false (fuel : nat) (c c' : Channel T) (item out : slot T) :
  Volatile.Receive fuel c item = Ok (false, out, c') -> c' = c /\ out = item.
Proof. unfold Volatile.Receive. intros H. outcome_cases; auto. Qed.

Lemma Reserved_Send_false (fuel : nat) (c c' : Reserved.Channel T) (t : T) :
  Reserved.Send fuel c t = Ok (false, c') -> c' = c.
Proof. unfold Reserved.Send. intros H. outcome_cases; reflexivity. Qed.

Lemma Reserved_Receive_false (fuel : nat) (c c' : Reserved.Channel T) (item out : slot T) :
  Reserved.Receive fuel c item = Ok (false, out, c') -> c' = c /\ out = item.
Proof. unfold Reserved.Receive. intros H. outcome_cases; auto. Qed.

(** No call assigns [cap_], and none assigns [n_]. *)
Lemma Atomic_Send_cap (c c' : Channel T) (t : T) (b : bool) :
  Atomic.Send c t = Ok (b, c') -> cap_ c' = cap_ c.
Proof. unfold Atomic.Send. intros H. outcome_cases; reflexivity. Qed.

Lemma Atomic_Receive_cap (c c' : Channel T) (item out : slot T) (b : bool) :
  Atomic.Receive c item = Ok (b, out, c') -> cap_ c' = cap_ c.
Proof. unfold Atomic.Receive. intros H. outcome_cases; reflexivity. Qed.

Lemma Atomic_run_cap (calls : list (call T)) : forall (c c' : Channel T) evs,
  Atomic.run c calls = Ok (evs, c') -> cap_ c' = cap_ c.
Proof.
  induction calls as [|[item|] rest IH]; intros c c' evs H; cbn [Atomic.run] in H.
  - now inversion H.
  - destruct (Atomic.Send c item) as [[b c1]| | | |] eqn:E; try discriminate.
    cbn [bind] in H.
    destruct (Atomic.run c1 rest) as [[evs1 c2]| | | |] eqn:E2; try discriminate.
    inversion H; subst. rewrite (IH _ _ _ E2). eapply Atomic_Send_cap; eauto.
  - destruct (Atomic.Receive c None) as [[[b out] c1]| | | |] eqn:E; try discriminate.
    cbn [bind] in H.
    destruct (Atomic.run c1 rest) as [[evs1 c2]| | | |] eqn:E2; try discriminate.
    inversion H; subst. rewrite (IH _ _ _ E2). eapply Atomic_Receive_cap; eauto.
Qed.

Lemma Reserved_spin_w_n (fuel : nat) : forall (c c' : Reserved.Channel T) w next,
  Reserved.spin_w fuel c w next = Ok c' -> Reserved.n_ c' = Reserved.n_ c.
Proof.
  induction fuel as [|fuel IH]; intros c c' w next H; [discriminate|].
  simpl in H. unfold sync_bool_compare_and_swap in H.
  destruct (Reserved.w_ c =? w).
  - now inversion H.
  - apply IH in H. exact H.
Qed.

Lemma Reserved_spin_r_n (fuel : nat) : forall (c c' : Reserved.Channel T) r next,
  Reserved.spin_r fuel c r next = Ok c' -> Reserved.n_ c' = Reserved.n_ c.
Proof.
  induction fuel as [|fuel IH]; intros c c' r next H; [discriminate|].
  simpl in H. unfold sync_bool_compare_and_swap in H.
  destruct (Reserved.r_ c =? r).
  - now inversion H.
  - apply IH in H. exact H.
Qed.

Lemma Reserved_Send_n (fuel : nat) (c c' : Reserved.Channel T) (t : T) (b : bool) :
  Reserved.Send fuel c t = Ok (b, c') -> Reserved.n_ c' = Reserved.n_ c.
Proof.
  unfold Reserved.Send. intros H. outcome_cases; try reflexivity.
  match goal with E : Reserved.spin_w _ _ _ _ = Ok _ |- _ =>
    apply Reserved_spin_w_n in E; exact E end.
Qed.

Lemma Reserved_Receive_n (fuel : nat) (c c' : Reserved.Channel T)
    (item out : slot T) (b : bool) :
  Reserved.Receive fuel c item = Ok (b, out, c') -> Reserved.n_ c' = Reserved.n_ c.
Proof.
  unfold Reserved.Receive. intros H. outcome_cases; try reflexivity.
  match goal with E : Reserved.spin_r _ _ _ _ = Ok _ |- _ =>
    apply Reserved_spin_r_n in E; exact E end.
Qed.

Lemma Reserved_run_n (fuel : nat) (calls : list (call T)) :
  forall (c c' : Reserved.Channel T) evs,
  Reserved.run fuel c calls = Ok (evs, c') -> Reserved.n_ c' = Reserved.n_ c.
Proof.
  induction calls as [|[item|] rest IH]; intros c c' evs H; cbn [Reserved.run] in H.
  - now inversion H.
  - destruct (Reserved.Send fuel c item) as [[b c1]| | | |] eqn:E; try discriminate.
    cbn [bind] in H.
    destruct (Reserved.run fuel c1 rest) as [[evs1 c2]| | | |] eqn:E2; try discriminate.
    inversion H; subst. rewrite (IH _ _ _ E2). eapply Reserved_Send_n; eauto.
  - destruct (Reserved.Receive fuel c None) as [[[b out] c1]| | | |] eqn:E;
      try discriminate.
    cbn [bind] in H.
    destruct (Reserved.run fuel c1 rest) as [[evs1 c2]| | | |] eqn:E2; try discriminate.
    inversion H; subst. rewrite (IH _ _ _ E2). eapply Reserved_Receive_n; eauto.
Qed.

End AnyState.

(** ** Interleaved runs that return

    A ranking argument: when every step from a state of the invariant
    lowers the rank, whatever the other thread did before it, the call
    returns within [rank] steps. *)
Section Ranking.
Context {St PC I : Type}.
Variable step : St -> PC -> outcome (St * PC).
Variable interfere : I -> St -> St.
Variable returned : PC -> bool.
Variable inv : St -> PC -> Prop.
Variable rank : PC -> nat.

Hypothesis rank_zero : forall pc, rank pc = 0%nat -> returned pc = true.
Hypothesis inv_interfere : forall x s pc, inv s pc -> inv (interfere x s) pc.
Hypothesis step_lowers : forall s pc,
  inv s pc -> returned pc = false ->
  exists s' pc', step s pc = Ok (s', pc') /\ inv s' pc' /\ (rank pc' < rank pc)%nat.

Lemma exec_returns (sched : list (option I)) : forall s pc,
  inv s pc -> (rank pc <= length sched)%nat ->
  exists s' pc',
    exec step interfere returned sched s pc = Ok (s', pc') /\
    returned pc' = true /\ inv s' pc'.
Proof.
  induction sched as [|i rest IH]; intros s pc Hinv Hr; simpl.
  - assert (returned pc = true) as R by (apply rank_zero; simpl in Hr; lia).
    rewrite R. eauto.
  - destruct (returned pc) eqn:R; [eauto|].
    set (s1 := match i with Some x => interfere x s | None => s end).
    assert (inv s1 pc) as H1 by (destruct i; subst s1; auto).
    destruct (step_lowers s1 pc H1 R) as (s2 & pc2 & -> & H2 & Hlt).
    cbn [bind]. apply IH; [assumption|]. simpl in Hr. lia.
Qed.

End Ranking.

(** ** Index bounds, as a check and as a proposition *)

Section Bounds.
Context {T : Type}.
Implicit Types (c : Channel T).

Lemma is_pow2_log2 (z : Z) : is_pow2 z = true -> 0 < z /\ z = 2 ^ Z.log2 z.
Proof.
  unfold is_pow2. intros H. apply andb_true_iff in H as [H1 H2].
  apply Z.ltb_lt in H1. apply Z.eqb_eq in H2. auto.
Qed.

Lemma is_pow2_pow (p : Z) : 0 <= p -> is_pow2 (2 ^ p) = true.
Proof.
  intros Hp. unfold is_pow2. apply andb_true_iff. split.
  - apply Z.ltb_lt. apply Z.pow_pos_nonneg; lia.
  - apply Z.eqb_eq. now rewrite Z.log2_pow2.
Qed.

Lemma pow2_le_30 (p : Z) : 0 <= p -> 2 ^ p <= 2 ^ 30 -> p <= 30.
Proof.
  intros Hp H. destruct (Z.le_gt_cases p 30) as [|G]; [assumption|].
  assert (2 ^ 31 <= 2 ^ p) as H' by (apply Z.pow_le_mono_r; lia).
  change (2 ^ 31) with 2147483648 in H'. change (2 ^ 30) with 1073741824 in H. lia.
Qed.

Lemma bounded_in_range c : bounded c = true -> in_range c.
Proof.
  unfold bounded. intros H.
  repeat match goal with
         | H : _ && _ = true |- _ => apply andb_true_iff in H as [H ?]
         end.
  apply is_pow2_log2 in H as [Hpos Hlog].
  repeat match goal with
         | H : (_ <=? _) = true |- _ => apply Z.leb_le in H
         | H : (_ <? _) = true |- _ => apply Z.ltb_lt in H
         | H : (_ =? _) = true |- _ => apply Z.eqb_eq in H
         end.
  split; try lia.
  exists (Z.log2 (size_ c)). split; [|assumption].
  split; [apply Z.log2_nonneg|].
  apply pow2_le_30; [apply Z.log2_nonneg|]. rewrite <- Hlog. assumption.
Qed.

Lemma in_range_bounded c : in_range c -> bounded c = true.
Proof.
  intros [[p [Hp E]] M B R W]. unfold bounded.
  pose proof (pow2_bounds p Hp).
  assert (is_pow2 (size_ c) = true) as -> by (rewrite E; apply is_pow2_pow; lia).
  cbn [andb].
  repeat (apply andb_true_iff; split);
    try (apply Z.leb_le; lia); try (apply Z.ltb_lt; lia); try (apply Z.eqb_eq; lia).
Qed.

Lemma wf_in_range c : wf c -> in_range c.
Proof. intros H. destruct H. split; assumption. Qed.

Lemma in_range_size c : in_range c -> 1 <= size_ c <= 2 ^ 30.
Proof. intros [[p [Hp E]] _ _ _ _]. rewrite E. now apply pow2_bounds. Qed.

Lemma in_range_mask c x : in_range c -> 0 <= int_and x (size_mask_ c) < size_ c.
Proof.
  intros H. pose proof (in_range_size c H). destruct H as [[p [Hp E]] M _ _ _].
  unfold int_and. rewrite M, E, land_mask by lia.
  apply Z.mod_pos_bound. lia.
Qed.

Lemma in_range_store c i : in_range c -> 0 <= i < size_ c -> in_bounds (buf_ c) i = true.
Proof.
  intros H Hi. destruct H. unfold in_bounds.
  destruct (Z.leb_spec 0 i), (Z.ltb_spec i (Z.of_nat (length (buf_ c)))); simpl; auto; lia.
Qed.

Lemma in_range_set_buf c (i : nat) (t : T) :
  in_range c -> in_range (set_buf c (<[i := Some t]> (buf_ c))).
Proof.
  intros H. destruct H. split; simpl; auto. rewrite length_insert. assumption.
Qed.

Lemma in_range_set_w c (w : Z) :
  in_range c -> 0 <= w < size_ c -> in_range (set_w c w).
Proof. intros H Hw. destruct H. split; simpl; auto. Qed.

Lemma in_range_set_r c (r : Z) :
  in_range c -> 0 <= r < size_ c -> in_range (set_r c r).
Proof. intros H Hr. destruct H. split; simpl; auto. Qed.

Lemma in_range_consumer c v : in_range c -> in_range (consumer_publishes v c).
Proof.
  intros H. pose proof (in_range_mask c v H). destruct H.
  split; simpl; auto.
Qed.

Lemma in_range_producer c p : in_range c -> in_range (producer_publishes p c).
Proof.
  intros H. destruct p as [[i t] v]. pose proof (in_range_mask c v H). destruct H.
  split; simpl; auto. rewrite length_insert. assumption.
Qed.

End Bounds.

(** ** Every call returns within a fixed number of its own steps *)

Section WaitFree.
Context {T : Type}.
Implicit Types (c : Channel T).

Lemma vsend_rank_zero pc :
  vsend_rank pc = 0%nat -> VolatileSteps.send_returned pc = true.
Proof. destruct pc; simpl; intros; try discriminate; reflexivity. Qed.

Lemma vsend_inv_interfere v c pc :
  vsend_inv c pc -> vsend_inv (consumer_publishes v c) pc.
Proof.
  intros [H Hpc]. split; [now apply in_range_consumer|].
  destruct pc; exact Hpc.
Qed.

Ltac inv_done :=
  split;
  [ auto using in_range_set_buf, in_range_set_w, in_range_set_r
  | simpl; unfold index_ok in *; simpl; splits; auto; try lia ].

Lemma vsend_step_lowers (t : T) c pc :
  vsend_inv c pc -> VolatileSteps.send_returned pc = false ->
  exists c' pc',
    VolatileSteps.send_step t c pc = Ok (c', pc') /\ vsend_inv c' pc' /\
    (vsend_rank pc' < vsend_rank pc)%nat.
Proof.
  intros [H Hpc] R. pose proof (in_range_size c H) as Hs.
  pose proof (fun x => in_range_mask c x H) as Hm.
  pose proof (fun i => in_range_store c i H) as Hb.
  pose proof H as [_ _ Hlen Hr Hw]. int_facts.
  unfold index_ok in *.
  destruct pc; simpl in *; try discriminate.
  - eexists _, _. splits; [reflexivity| |simpl; lia]. inv_done.
  - unfold int_add. rewrite int_of_Ok by lia. cbn [bind].
    pose proof (Hm (w_ c + 1)).
    eexists _, _. splits; [reflexivity| |simpl; lia]. inv_done.
  - eexists _, _. splits; [reflexivity| |simpl; lia]. inv_done.
  - destruct Hpc as (Hr0 & -> & Hn). unfold int_sub, int_add.
    assert (exists n,
      (if w_ c >? r then int_of (w_ c - r)
       else let* d := int_of (w_ c - r) in int_of (d + size_ c)) = Ok n)
      as [n ->].
    { destruct (w_ c >? r).
      - rewrite int_of_Ok by lia. eauto.
      - rewrite int_of_Ok by lia. cbn [bind]. rewrite int_of_Ok by lia. eauto. }
    cbn [bind]. destruct (n =? cap_ c).
    + eexists _, _. splits; [reflexivity| |simpl; lia]. inv_done.
    + eexists _, _. splits; [reflexivity| |simpl; lia]. inv_done.
  - destruct Hpc as (-> & Hn). unfold array_store. rewrite Hb by lia. cbn [bind].
    eexists _, _. splits; [reflexivity| |simpl; lia]. inv_done.
  - eexists _, _. splits; [reflexivity| |simpl; lia]. inv_done.
  - destruct Hpc as (-> & Hn). unfold sync_bool_compare_and_swap.
    rewrite Z.eqb_refl.
    eexists _, _. splits; [reflexivity| |simpl; lia]. inv_done.
Qed.

Lemma Volatile_Send_returns (sched : list (option Z)) c (t : T) :
  in_range c -> (7 <= length sched)%nat ->
  exists c' b,
    VolatileSteps.Send_interleaved sched c t = Ok (c', VolatileSteps.send_done b) /\
    in_range c'.
Proof.
  intros H L.
  destruct (exec_returns (VolatileSteps.send_step t) consumer_publishes
              VolatileSteps.send_returned vsend_inv vsend_rank
              vsend_rank_zero vsend_inv_interfere (vsend_step_lowers t)
              sched c VolatileSteps.send_read_r)
    as (c' & pc' & E & R & [Hc' _]).
  - split; [assumption|exact I].
  - exact L.
  - destruct pc'; try discriminate. exists c', b. split; assumption.
Qed.

Lemma vreceive_rank_zero (pc : VolatileSteps.receive_pc (T:=T)) :
  vreceive_rank pc = 0%nat -> VolatileSteps.receive_returned pc = true.
Proof. destruct pc; simpl; intros; try discriminate; reflexivity. Qed.

Lemma vreceive_inv_interfere p c pc :
  vreceive_inv c pc -> vreceive_inv (producer_publishes p c) pc.
Proof.
  intros [H Hpc]. split; [now apply in_range_producer|].
  destruct p as [[i t] v]. destruct pc; exact Hpc.
Qed.

Lemma vreceive_step_lowers c pc :
  vreceive_inv c pc -> VolatileSteps.receive_returned pc = false ->
  exists c' pc',
    VolatileSteps.receive_step c pc = Ok (c', pc') /\ vreceive_inv c' pc' /\
    (vreceive_rank pc' < vreceive_rank pc)%nat.
Proof.
  intros [H Hpc] R. pose proof (in_range_size c H) as Hs.
  pose proof (fun x => in_range_mask c x H) as Hm.
  pose proof (fun i => in_range_store c i H) as Hb.
  pose proof H as [_ _ Hlen Hr Hw]. int_facts.
  unfold index_ok in *.
  destruct pc; simpl in *; try discriminate.
  - eexists _, _. splits; [reflexivity| |simpl; lia]. inv_done.
  - eexists _, _. splits; [reflexivity| |simpl; lia]. inv_done.
  - eexists _, _. splits; [reflexivity| |simpl; lia]. inv_done.
  - destruct (r =? w).
    + eexists _, _. splits; [reflexivity| |simpl; lia]. inv_done.
    + eexists _, _. splits; [reflexivity| |simpl; lia]. inv_done.
  - subst r. unfold array_load, int_add. rewrite Hb by lia. cbn [bind].
    rewrite int_of_Ok by lia. cbn [bind].
    pose proof (Hm (r_ c + 1)).
    eexists _, _. splits; [reflexivity| |simpl; lia]. inv_done.
  - eexists _, _. splits; [reflexivity| |simpl; lia]. inv_done.
  - destruct Hpc as (-> & Hn). unfold sync_bool_compare_and_swap.
    rewrite Z.eqb_refl.
    eexists _, _. splits; [reflexivity| |simpl; lia]. inv_done.
Qed.

Lemma Volatile_Receive_returns (sched : list (option (nat * T * Z))) c (item : slot T) :
  in_range c -> (7 <= length sched)%nat ->
  exists c' b out,
    VolatileSteps.Receive_interleaved sched c item
      = Ok (c', VolatileSteps.receive_done b out) /\
    in_range c'.
Proof.
  intros H L.
  destruct (exec_returns VolatileSteps.receive_step producer_publishes
              VolatileSteps.receive_returned vreceive_inv vreceive_rank
              vreceive_rank_zero vreceive_inv_interfere vreceive_step_lowers
              sched c (VolatileSteps.receive_read_r item))
    as (c' & pc' & E & R & [Hc' _]).
  - split; [assumption|exact I].
  - exact L.
  - destruct pc'; try discriminate. exists c', b, item0. split; assumption.
Qed.

Lemma asend_rank_zero pc :
  asend_rank pc = 0%nat -> AtomicSteps.send_returned pc = true.
Proof. destruct pc; simpl; intros; try discriminate; reflexivity. Qed.

Lemma asend_inv_interfere v c pc :
  asend_inv c pc -> asend_inv (consumer_publishes v c) pc.
Proof.
  intros [H Hpc]. split; [now apply in_range_consumer|].
  destruct pc; exact Hpc.
Qed.

Lemma asend_step_lowers (item : T) c pc :
  asend_inv c pc -> AtomicSteps.send_returned pc = false ->
  exists c' pc',
    AtomicSteps.send_step item c pc = Ok (c', pc') /\ asend_inv c' pc' /\
    (asend_rank pc' < asend_rank pc)%nat.
Proof.
  intros [H Hpc] R. pose proof (in_range_size c H) as Hs.
  pose proof (fun x => in_range_mask c x H) as Hm.
  pose proof (fun i => in_range_store c i H) as Hb.
  pose proof H as [_ _ Hlen Hr Hw]. int_facts.
  destruct pc; simpl in *; try discriminate.
  - eexists _, _. splits; [reflexivity| |simpl; lia]. inv_done.
  - subst w. unfold int_sub, int_add. rewrite int_of_Ok by lia. cbn [bind].
    assert (exists full : bool,
      (if w_ c - r_ c =? cap_ c then Ok true
       else let* s := int_of (w_ c - r_ c + size_ c) in Ok (s =? cap_ c)) = Ok full)
      as [full ->].
    { destruct (_ =? cap_ c); [eauto|].
      rewrite int_of_Ok by lia. cbn [bind]. eauto. }
    cbn [bind]. destruct full.
    + eexists _, _. splits; [reflexivity| |simpl; lia]. inv_done.
    + eexists _, _. splits; [reflexivity| |simpl; lia]. inv_done.
  - subst w. unfold array_store. rewrite Hb by lia. cbn [bind].
    eexists _, _. splits; [reflexivity| |simpl; lia]. inv_done.
  - subst w. unfold int_add. rewrite int_of_Ok by lia. cbn [bind].
    pose proof (Hm (w_ c + 1)).
    eexists _, _. splits; [reflexivity| |simpl; lia]. inv_done.
Qed.

Lemma Atomic_Send_returns (sched : list (option Z)) c (item : T) :
  in_range c -> (4 <= length sched)%nat ->
  exists c' b,
    AtomicSteps.Send_interleaved sched c item = Ok (c', AtomicSteps.send_done b) /\
    in_range c'.
Proof.
  intros H L.
  destruct (exec_returns (AtomicSteps.send_step item) consumer_publishes
              AtomicSteps.send_returned asend_inv asend_rank
              asend_rank_zero asend_inv_interfere (asend_step_lowers item)
              sched c AtomicSteps.send_load_w)
    as (c' & pc' & E & R & [Hc' _]).
  - split; [assumption|exact I].
  - exact L.
  - destruct pc'; try discriminate. exists c', b. split; assumption.
Qed.

Lemma areceive_rank_zero (pc : AtomicSteps.receive_pc (T:=T)) :
  areceive_rank pc = 0%nat -> AtomicSteps.receive_returned pc = true.
Proof. destruct pc; simpl; intros; try discriminate; reflexivity. Qed.

Lemma areceive_inv_interfere p c pc :
  areceive_inv c pc -> areceive_inv (producer_publishes p c) pc.
Proof.
  intros [H Hpc]. split; [now apply in_range_producer|].
  destruct p as [[i t] v]. destruct pc; exact Hpc.
Qed.

Lemma areceive_step_lowers c pc :
  areceive_inv c pc -> AtomicSteps.receive_returned pc = false ->
  exists c' pc',
    AtomicSteps.receive_step c pc = Ok (c', pc') /\ areceive_inv c' pc' /\
    (areceive_rank pc' < areceive_rank pc)%nat.
Proof.
  intros [H Hpc] R. pose proof (in_range_size c H) as Hs.
  pose proof (fun x => in_range_mask c x H) as Hm.
  pose proof (fun i => in_range_store c i H) as Hb.
  pose proof H as [_ _ Hlen Hr Hw]. int_facts.
  destruct pc; simpl in *; try discriminate.
  - eexists _, _. splits; [reflexivity| |simpl; lia]. inv_done.
  - destruct (r =? w_ c).
    + eexists _, _. splits; [reflexivity| |simpl; lia]. inv_done.
    + eexists _, _. splits; [reflexivity| |simpl; lia]. inv_done.
  - subst r. unfold array_load. rewrite Hb by lia. cbn [bind].
    eexists _, _. splits; [reflexivity| |simpl; lia]. inv_done.
  - subst r. unfold int_add. rewrite int_of_Ok by lia. cbn [bind].
    pose proof (Hm (r_ c + 1)).
    eexists _, _. splits; [reflexivity| |simpl; lia]. inv_done.
Qed.

Lemma Atomic_Receive_returns (sched : list (option (nat * T * Z))) c (item : slot T) :
  in_range c -> (4 <= length sched)%nat ->
  exists c' b out,
    AtomicSteps.Receive_interleaved sched c item
      = Ok (c', AtomicSteps.receive_done b out) /\
    in_range c'.
Proof.
  intros H L.
  destruct (exec_returns AtomicSteps.receive_step producer_publishes
              AtomicSteps.receive_returned areceive_inv areceive_rank
              areceive_rank_zero areceive_inv_interfere areceive_step_lowers
              sched c (AtomicSteps.receive_load_r item))
    as (c' & pc' & E & R & [Hc' _]).
  - split; [assumption|exact I].
  - exact L.
  - destruct pc'; try discriminate. exists c', b, item0. split; assumption.
Qed.

End WaitFree.

(** ** The step machines, run without interference, are the calls *)

Section Alone.
Context {T : Type}.
Implicit Types (c : Channel T).

Ltac alone :=
  repeat first
    [ progress cbn [exec bind VolatileSteps.send_step VolatileSteps.send_returned
                    VolatileSteps.receive_step VolatileSteps.receive_returned
                    AtomicSteps.send_step AtomicSteps.send_returned
                    AtomicSteps.receive_step AtomicSteps.receive_returned
                    Volatile.spin_w Volatile.spin_r repeat
                    w_ r_ buf_ size_ size_mask_ cap_ set_buf set_w set_r]
    | progress unfold int_add, int_sub, int_of, array_store, array_load,
        sync_bool_compare_and_swap
    | rewrite Z.eqb_refl
    | reflexivity
    | congruence
    | match goal with
      | |- context [if in_int ?x then _ else _] => destruct (in_int x) eqn:?
      | |- context [if in_bounds ?b ?i then _ else _] => destruct (in_bounds b i) eqn:?
      | |- context [if ?a >? ?b then _ else _] => destruct (a >? b) eqn:?
      | |- context [if ?a =? ?b then _ else _] => destruct (a =? b) eqn:?
      end ].

Lemma Volatile_Send_alone c (t : T) :
  VolatileSteps.Send_interleaved (repeat None 7) c t =
    let* '(b, c') := Volatile.Send 1 c t in Ok (c', VolatileSteps.send_done b).
Proof.
  unfold VolatileSteps.Send_interleaved, Volatile.Send,
    int_add, int_sub, int_of, array_store, sync_bool_compare_and_swap.
  alone.
Qed.

Lemma Volatile_Receive_alone c (item : slot T) :
  VolatileSteps.Receive_interleaved (repeat None 7) c item =
    let* '(b, out, c') := Volatile.Receive 1 c item in
    Ok (c', VolatileSteps.receive_done b out).
Proof.
  unfold VolatileSteps.Receive_interleaved, Volatile.Receive,
    int_add, int_sub, int_of, array_load, sync_bool_compare_and_swap.
  alone.
Qed.

Lemma Atomic_Send_alone c (item : T) :
  AtomicSteps.Send_interleaved (repeat None 4) c item =
    let* '(b, c') := Atomic.Send c item in Ok (c', AtomicSteps.send_done b).
Proof.
  unfold AtomicSteps.Send_interleaved, Atomic.Send,
    int_add, int_sub, int_of, array_store.
  alone.
Qed.

Lemma Atomic_Receive_alone c (item : slot T) :
  AtomicSteps.Receive_interleaved (repeat None 4) c item =
    let* '(b, out, c') := Atomic.Receive c item in
    Ok (c', AtomicSteps.receive_done b out).
Proof.
  unfold AtomicSteps.Receive_interleaved, Atomic.Receive,
    int_add, int_sub, int_of, array_load.
  alone.
Qed.

End Alone.

(** ** Producer and consumer, access by access: what every state satisfies *)

Section SystemInvariant.
Context {T : Type}.
Implicit Types (c : Channel T) (s : AtomicSystem.system (T:=T)).

Lemma asend_step_load_r c (item : T) :
  wf c ->
  AtomicSteps.send_step item c (AtomicSteps.send_load_r (w_ c)) =
    Ok (c, if occupancy c =? cap_ c then AtomicSteps.send_done false
           else AtomicSteps.send_store (w_ c)).
Proof.
  intros H. pose proof (wf_size_bounds c H) as Hs.
  pose proof (wf_occupancy c H) as Ho.
  destruct H. int_facts.
  cbn [AtomicSteps.send_step]. unfold int_sub, int_add.
  rewrite int_of_Ok by lia. cbn [bind]. rewrite Ho.
  destruct (Z.eqb_spec (w_ c - r_ c) (cap_ c)) as [E|N].
  - cbn [bind]. destruct (Z.leb_spec (r_ c) (w_ c)); [|lia].
    rewrite E, Z.eqb_refl. reflexivity.
  - rewrite int_of_Ok by lia. cbn [bind].
    destruct (Z.leb_spec (r_ c) (w_ c)).
    + destruct (Z.eqb_spec (w_ c - r_ c + size_ c) (cap_ c)); [lia|].
      destruct (Z.eqb_spec (w_ c - r_ c) (cap_ c)); [lia|]. reflexivity.
    + destruct (Z.eqb_spec (w_ c - r_ c + size_ c) (cap_ c)); reflexivity.
Qed.

Lemma asend_step_store c (item : T) :
  wf c ->
  AtomicSteps.send_step item c (AtomicSteps.send_store (w_ c)) =
    Ok (set_buf c (<[Z.to_nat (w_ c) := Some item]> (buf_ c)),
        AtomicSteps.send_publish (w_ c)).
Proof.
  intros H. pose proof (wf_in_bounds c (w_ c) H) as Hb. destruct H.
  cbn [AtomicSteps.send_step]. unfold array_store. rewrite Hb by lia.
  reflexivity.
Qed.

Lemma asend_step_publish c (item : T) :
  wf c ->
  AtomicSteps.send_step item c (AtomicSteps.send_publish (w_ c)) =
    Ok (set_w c ((w_ c + 1) mod size_ c), AtomicSteps.send_done true).
Proof.
  intros H. pose proof (wf_size_bounds c H) as Hs.
  pose proof (wf_and_mask c (w_ c + 1) H) as Hm. destruct H. int_facts.
  cbn [AtomicSteps.send_step]. unfold int_add.
  rewrite int_of_Ok by lia. cbn [bind]. rewrite Hm. reflexivity.
Qed.

Lemma areceive_step_copy c :
  wf c ->
  AtomicSteps.receive_step c (AtomicSteps.receive_copy (r_ c)) =
    Ok (c, AtomicSteps.receive_publish (slot_at (buf_ c) (r_ c)) (r_ c)).
Proof.
  intros H. pose proof (wf_in_bounds c (r_ c) H) as Hb. destruct H.
  cbn [AtomicSteps.receive_step]. unfold array_load. rewrite Hb by lia.
  reflexivity.
Qed.

Lemma areceive_step_publish c (v : slot T) :
  wf c ->
  AtomicSteps.receive_step c (AtomicSteps.receive_publish v (r_ c)) =
    Ok (recv_next c, AtomicSteps.receive_done true v).
Proof.
  intros H. pose proof (wf_size_bounds c H) as Hs.
  pose proof (wf_and_mask c (r_ c + 1) H) as Hm. destruct H. int_facts.
  cbn [AtomicSteps.receive_step]. unfold int_add.
  rewrite int_of_Ok by lia. cbn [bind]. rewrite Hm. reflexivity.
Qed.

(** Storing under the write index touches no queued slot. *)
Lemma queued_store c (t : T) :
  wf c ->
  queued (set_buf c (<[Z.to_nat (w_ c) := Some t]> (buf_ c))) = queued c.
Proof.
  intros H. pose proof (wf_size_bounds c H) as Hs.
  assert (0 <= occupancy c < size_ c) as Hocc.
  { unfold occupancy. apply Z.mod_pos_bound. lia. }
  unfold queued.
  change (occupancy (set_buf c (<[Z.to_nat (w_ c) := Some t]> (buf_ c))))
    with (occupancy c).
  destruct H. apply List.map_ext_in. intros k Hk. apply in_seq in Hk.
  cbn [buf_ r_ size_ set_buf].
  apply slot_at_insert_ne; try lia.
  - apply Z.mod_pos_bound. lia.
  - intros E. rewrite <- (ring_index_write (r_ c) (w_ c) (size_ c)) in E at 1 by lia.
    apply ring_index_inj in E; unfold occupancy in *; lia.
Qed.

Lemma wf_store c (t : T) :
  wf c -> wf (set_buf c (<[Z.to_nat (w_ c) := Some t]> (buf_ c))).
Proof.
  intros H. pose proof (queued_store c t H) as Hq. destruct H.
  split; try assumption.
  - cbn [buf_ size_ set_buf]. rewrite length_insert. assumption.
  - rewrite Hq. assumption.
Qed.

Lemma send_next_stored c (t : T) :
  buf_ c !! Z.to_nat (w_ c) = Some (Some t) ->
  set_w c ((w_ c + 1) mod size_ c) = send_next c t.
Proof.
  intros H. unfold send_next, set_w, set_buf. cbn [cap_ size_ size_mask_ buf_ r_ w_].
  rewrite (list_insert_id _ _ _ H). reflexivity.
Qed.

Lemma occupancy_pos_ne c : wf c -> r_ c <> w_ c -> occupancy c > 0.
Proof.
  intros H N. rewrite (wf_occupancy c H). destruct H.
  destruct (Z.leb_spec (r_ c) (w_ c)); lia.
Qed.

Lemma producer_step_inv (items : list T) (retry : bool) s :
  AtomicSystem.sys_inv items retry s ->
  exists s',
    AtomicSystem.producer_step retry s = Ok s' /\
    AtomicSystem.sys_inv items retry s' /\
    cap_ (AtomicSystem.shared s') = cap_ (AtomicSystem.shared s).
Proof.
  destruct s as [c todo ppc cpc sent got].
  unfold AtomicSystem.sys_inv, AtomicSystem.producer_ok, AtomicSystem.consumer_ok,
    AtomicSystem.producer_step.
  cbn [AtomicSystem.shared AtomicSystem.todo AtomicSystem.ppc AtomicSystem.cpc
       AtomicSystem.sent AtomicSystem.got].
  intros (Hwf & Hlog & Hloss & Hp & Hc).
  destruct todo as [|item rest].
  { eexists. split; [reflexivity|]. split; [|reflexivity]. cbn. auto. }
  pose proof (wf_occ c Hwf) as Hocc.
  destruct ppc as [|w|w|w|b].
  - eexists. split; [reflexivity|]. split; [|reflexivity]. cbn. auto.
  - subst w. rewrite asend_step_load_r by assumption. cbn [bind].
    destruct (Z.eqb_spec (occupancy c) (cap_ c)) as [E|N].
    + eexists. split; [reflexivity|]. split; [|reflexivity]. cbn. splits; auto.
      intros R. rewrite R. auto.
    + eexists. split; [reflexivity|]. split; [|reflexivity]. cbn. splits; auto. lia.
  - destruct Hp as [-> Hroom]. rewrite asend_step_store by assumption. cbn [bind].
    eexists. split; [reflexivity|]. split; [|reflexivity]. cbn.
    pose proof (wf_in_bounds c (w_ c) Hwf) as Hb. pose proof Hwf as Hw. destruct Hw.
    splits; auto.
    + now apply wf_store.
    + rewrite (queued_store c item Hwf). exact Hlog.
    + exists item, rest. split; [reflexivity|].
      apply list_lookup_insert_eq. lia.
    + destruct cpc as [it|it r|r|v r|b v]; auto.
      destruct Hc as (-> & Hpos & ->). splits; auto.
      symmetry. apply slot_at_insert_ne; try lia.
      intros E. unfold occupancy in Hpos. rewrite E, Z.sub_diag, Z.mod_0_l in Hpos; lia.
  - destruct Hp as (-> & Hroom & item' & rest' & Et & Hslot).
    injection Et as <- <-.
    rewrite asend_step_publish by assumption. cbn [bind].
    eexists. split; [reflexivity|]. split; [|reflexivity]. cbn.
    assert (occupancy c <> cap_ c) as N by lia.
    pose proof (send_next_stored c item Hslot) as Enext.
    splits.
    + rewrite Enext. now apply wf_send_next.
    + rewrite Enext, (queued_send_next c item Hwf N), List.map_app, Hlog.
      now rewrite <- app_assoc.
    + intros R. rewrite <- app_assoc. now apply Hloss.
    + exact I.
    + pose proof (occupancy_send_next c item Hwf N) as Ho. rewrite <- Enext in Ho.
      destruct cpc as [it|it r|r|v r|b v]; auto.
      * destruct Hc as (-> & Hpos). split; [reflexivity|]. rewrite Ho. lia.
      * destruct Hc as (-> & Hpos & ->). splits; auto. rewrite Ho. lia.
  - contradiction.
Qed.

Lemma consumer_step_inv (items : list T) (retry : bool) s :
  AtomicSystem.sys_inv items retry s ->
  exists s',
    AtomicSystem.consumer_step s = Ok s' /\
    AtomicSystem.sys_inv items retry s' /\
    cap_ (AtomicSystem.shared s') = cap_ (AtomicSystem.shared s).
Proof.
  destruct s as [c todo ppc cpc sent got].
  unfold AtomicSystem.sys_inv, AtomicSystem.producer_ok, AtomicSystem.consumer_ok,
    AtomicSystem.consumer_step.
  cbn [AtomicSystem.shared AtomicSystem.todo AtomicSystem.ppc AtomicSystem.cpc
       AtomicSystem.sent AtomicSystem.got].
  intros (Hwf & Hlog & Hloss & Hp & Hc).
  destruct cpc as [it|it r|r|v r|b v].
  - eexists. split; [reflexivity|]. split; [|reflexivity]. cbn. auto.
  - subst r. cbn [AtomicSteps.receive_step bind].
    destruct (Z.eqb_spec (r_ c) (w_ c)) as [E|N].
    + eexists. split; [reflexivity|]. split; [|reflexivity]. cbn. auto.
    + eexists. split; [reflexivity|]. split; [|reflexivity]. cbn. splits; auto.
      now apply occupancy_pos_ne.
  - destruct Hc as [-> Hpos]. rewrite areceive_step_copy by assumption. cbn [bind].
    eexists. split; [reflexivity|]. split; [|reflexivity]. cbn. splits; auto.
  - destruct Hc as (-> & Hpos & ->).
    rewrite areceive_step_publish by assumption. cbn [bind].
    eexists. split; [reflexivity|]. split; [|reflexivity]. cbn.
    assert (occupancy c <> 0) as N by lia.
    pose proof (occupancy_recv_next c Hwf N) as Ho.
    splits.
    + now apply wf_recv_next.
    + rewrite Hlog, (queued_recv_next c Hwf N), <- app_assoc. reflexivity.
    + exact Hloss.
    + destruct ppc as [|w|w|w|b]; auto.
      * destruct Hp as [-> Hroom]. split; [reflexivity|]. rewrite Ho. lia.
      * destruct Hp as (-> & Hroom & Hitem). splits; auto. rewrite Ho. lia.
    + exact I.
  - contradiction.
Qed.

Lemma system_run_inv (items : list T) (retry : bool)
    (sched : list AtomicSystem.thread) : forall s,
  AtomicSystem.sys_inv items retry s ->
  exists s',
    AtomicSystem.run retry sched s = Ok s' /\
    AtomicSystem.sys_inv items retry s' /\
    cap_ (AtomicSystem.shared s') = cap_ (AtomicSystem.shared s).
Proof.
  induction sched as [|who rest IH]; intros s H.
  - exists s. splits; auto.
  - cbn [AtomicSystem.run]. destruct who.
    + destruct (producer_step_inv items retry s H) as (s1 & -> & H1 & C1).
      cbn [bind]. destruct (IH s1 H1) as (s' & E & H' & C'). exists s'.
      splits; auto. congruence.
    + destruct (consumer_step_inv items retry s H) as (s1 & -> & H1 & C1).
      cbn [bind]. destruct (IH s1 H1) as (s' & E & H' & C'). exists s'.
      splits; auto. congruence.
Qed.

Lemma sys_inv_start (items : list T) (retry : bool) c :
  wf c -> queued c = [] ->
  AtomicSystem.sys_inv items retry (AtomicSystem.start c items).
Proof.
  intros H Hq. unfold AtomicSystem.sys_inv, AtomicSystem.start,
    AtomicSystem.producer_ok, AtomicSystem.consumer_ok.
  cbn [AtomicSystem.shared AtomicSystem.todo AtomicSystem.ppc AtomicSystem.cpc
       AtomicSystem.sent AtomicSystem.got].
  rewrite Hq. splits; auto.
Qed.

End SystemInvariant.

(** * The claims *)

Section Claims.
Context {T : Type}.

Lemma lookup_map_Some (l : list T) (n : nat) (out : slot T) :
  map Some l !! n = Some out -> exists item, out = Some item /\ l !! n = Some item.
Proof.
  revert n. induction l as [|x l IH]; intros [|n] H; simpl in H; try discriminate.
  - injection H as <-. exists x. auto.
  - apply IH in H. exact H.
Qed.

Lemma queued_empty (c : Channel T) : occupancy c = 0 -> queued c = [].
Proof. intros E. unfold queued. rewrite E. reflexivity. Qed.

Lemma Atomic_run_fresh (capacity : Z) (c : Channel T) (calls : list (call T)) :
  Channel_ctor T capacity = Ok c ->
  exists evs c',
    Atomic.run c calls = Ok (evs, c') /\ wf c' /\
    cap_ c' = capacity /\ size_ c' = size_ c /\
    map Some (accepted evs) = delivered evs ++ queued c' /\
    next_in_order [] evs.
Proof.
  intros H. apply Channel_ctor_inv in H as [Hc ->].
  destruct (Atomic_run_wf calls (fresh T capacity) (wf_fresh capacity Hc))
    as (evs & c' & E & Hwf & Hcap & Hsize & Hq & Hn).
  rewrite queued_fresh in Hq, Hn by assumption.
  exists evs, c'. splits; auto.
Qed.

(** C1.  On a channel that was constructed, every sequence of [Send]
    and [Receive] calls returns, and the items delivered by the
    successful [Receive]s, followed by what is still queued, are the
    items accepted by the successful [Send]s, in order: once the
    channel is drained the two sequences are equal, and each successful
    [Receive] delivers the accepted item whose position is the number
    of deliveries made before it. *)
Theorem fifo_order (capacity : Z) (c : Channel T) (calls : list (call T)) :
  Channel_ctor T capacity = Ok c ->
  exists evs c',
    Atomic.run c calls = Ok (evs, c') /\
    map Some (accepted evs) = delivered evs ++ queued c' /\
    (occupancy c' = 0 -> delivered evs = map Some (accepted evs)) /\
    (forall evs1 out evs2,
        evs = evs1 ++ ReceiveEv true out :: evs2 ->
        exists item,
          out = Some item /\
          accepted evs1 !! length (delivered evs1) = Some item).
Proof.
  intros H.
  destruct (Atomic_run_fresh capacity c calls H)
    as (evs & c' & E & Hwf & _ & _ & Hq & Hn).
  exists evs, c'. splits; auto.
  - intros Hz. rewrite Hq, (queued_empty c' Hz), app_nil_r. reflexivity.
  - intros evs1 out evs2 Hsplit.
    apply lookup_map_Some. exact (Hn evs1 out evs2 Hsplit).
Qed.

(** C2.  In every state reached by calls on a constructed channel, the
    occupancy is the number of items accepted and not yet delivered,
    [Send] returns [true] exactly when the occupancy is below the
    capacity, and [Receive] returns [true] exactly when the occupancy
    is above zero. *)
Theorem send_receive_success (capacity : Z) (c c' : Channel T)
    (calls : list (call T)) (evs : list (event T)) :
  Channel_ctor T capacity = Ok c ->
  Atomic.run c calls = Ok (evs, c') ->
  Z.of_nat (length (accepted evs)) - Z.of_nat (length (delivered evs))
    = occupancy c' /\
  (forall item, exists b c'',
      Atomic.Send c' item = Ok (b, c'') /\
      (b = true <-> occupancy c' < capacity)) /\
  (forall item, exists b out c'',
      Atomic.Receive c' item = Ok (b, out, c'') /\
      (b = true <-> occupancy c' > 0)).
Proof.
  intros H R.
  destruct (Atomic_run_fresh capacity c calls H)
    as (evs0 & c0 & E & Hwf & Hcap & _ & Hq & _).
  rewrite R in E. injection E as <- <-.
  pose proof (length_queued c' Hwf) as Hl.
  pose proof (wf_occ c' Hwf) as Hocc.
  assert (0 <= occupancy c') as Hpos by lia.
  splits.
  - apply (f_equal (@length _)) in Hq.
    rewrite length_map, length_app in Hq. lia.
  - intros item. rewrite Atomic_Send_wf by assumption.
    destruct (Z.eqb_spec (occupancy c') (cap_ c')).
    + exists false, c'. split; [reflexivity|]. split; [discriminate|lia].
    + exists true, (send_next c' item). split; [reflexivity|]. split; [lia|reflexivity].
  - intros item. rewrite Atomic_Receive_wf by assumption.
    destruct (Z.eqb_spec (occupancy c') 0).
    + exists false, item, c'. split; [reflexivity|]. split; [discriminate|lia].
    + exists true, (slot_at (buf_ c') (r_ c')), (recv_next c').
      split; [reflexivity|]. split; [lia|reflexivity].
Qed.

(** C3, as the code has it.  For a requested capacity from 1 up to
    2^30 - 1 the constructor returns, and the length of the storage it
    allocates is the smallest power of two greater than the capacity. *)
Theorem storage_length_next_pow2 (capacity : Z) :
  1 <= capacity < 2 ^ 30 ->
  exists c : Channel T,
    Channel_ctor T capacity = Ok c /\
    Z.of_nat (length (buf_ c)) = size_ c /\
    smallest_pow2_above capacity (Z.of_nat (length (buf_ c))).
Proof.
  intros H. exists (fresh T capacity).
  pose proof (Z.log2_nonneg capacity) as Hl.
  assert (Z.of_nat (length (buf_ (fresh T capacity))) = 2 ^ (Z.log2 capacity + 1)) as E.
  { simpl. rewrite length_replicate.
    pose proof (Z.pow_pos_nonneg 2 (Z.log2 capacity + 1)). lia. }
  splits.
  - now apply Channel_ctor_Ok.
  - exact E.
  - rewrite E. unfold smallest_pow2_above. splits.
    + apply is_pow2_pow. lia.
    + apply fresh_size_gt. lia.
    + intros y Hy Hlt. apply is_pow2_log2 in Hy as [Hpos Hy].
      rewrite Hy in Hlt. apply Z.log2_lt_pow2 in Hlt; [|lia].
      rewrite Hy. apply Z.pow_le_mono_r; lia.
Qed.

(** C5.  A call that returns [false] returns the channel it was given,
    member for member, and a [Receive] that returns [false] leaves the
    object behind its pointer as it was; in each of the three
    revisions. *)
Theorem false_return_no_change :
  (forall (c c' : Channel T) t, Atomic.Send c t = Ok (false, c') -> c' = c) /\
  (forall (c c' : Channel T) item out,
      Atomic.Receive c item = Ok (false, out, c') -> c' = c /\ out = item) /\
  (forall fuel (c c' : Channel T) t,
      Volatile.Send fuel c t = Ok (false, c') -> c' = c) /\
  (forall fuel (c c' : Channel T) item out,
      Volatile.Receive fuel c item = Ok (false, out, c') -> c' = c /\ out = item) /\
  (forall fuel (c c' : Reserved.Channel T) t,
      Reserved.Send fuel c t = Ok (false, c') -> c' = c) /\
  (forall fuel (c c' : Reserved.Channel T) item out,
      Reserved.Receive fuel c item = Ok (false, out, c') -> c' = c /\ out = item).
Proof.
  splits.
  - intros c c' t. apply Atomic_Send_false.
  - intros c c' item out. apply Atomic_Receive_false.
  - intros fuel c c' t. apply Volatile_Send_false.
  - intros fuel c c' item out. apply Volatile_Receive_false.
  - intros fuel c c' t. apply Reserved_Send_false.
  - intros fuel c c' item out. apply Reserved_Receive_false.
Qed.

(** C6, where the code fails it.  The rounding constructor lets the
    capacities 0 and 2^30 past its assertion and then has no defined
    sizing for them; the dummy-slot constructor lets -1 past its
    assertion, builds a channel without storage and reports -1 as its
    capacity, and the first [Send] on it stores out of bounds. *)
Theorem ctor_accepts_unsizable :
  Channel_ctor T 0 = Undefined /\
  Channel_ctor T (2 ^ 30) = Undefined /\
  Reserved.Channel_ctor (T:=T) (-1) = Ok (Reserved.MkChannel 0 (-1) [] 0 0) /\
  Reserved.capacity (Reserved.MkChannel (T:=T) 0 (-1) [] 0 0) = Ok (-1) /\
  (forall fuel t,
      Reserved.Send fuel (Reserved.MkChannel (T:=T) 0 (-1) [] 0 0) t = Undefined).
Proof. splits; reflexivity. Qed.

(** C7.  After any sequence of calls on a constructed channel,
    [capacity()] returns the constructor's argument: in the
    [std::atomic] revision, and in the dummy-slot revision, where the
    calls can only fail to return on the channel built for -1. *)
Theorem capacity_is_requested (n m : Z) (c : Channel T) (d : Reserved.Channel T)
    (calls : list (call T)) (fuel : nat) :
  Channel_ctor T n = Ok c ->
  Reserved.Channel_ctor m = Ok d ->
  (exists evs c', Atomic.run c calls = Ok (evs, c') /\ capacity c' = n) /\
  match Reserved.run (S fuel) d calls with
  | Ok (_, d') => Reserved.capacity d' = Ok m
  | _ => m = -1
  end.
Proof.
  intros Hc Hd. split.
  - destruct (Atomic_run_fresh n c calls Hc) as (evs & c' & E & _ & Hcap & _).
    exists evs, c'. split; assumption.
  - apply Reserved_ctor_Ok_inv in Hd as [-> Hm]. int_facts.
    assert (forall d' : Reserved.Channel T,
               Reserved.n_ d' = Reserved.n_ (rfresh T m) ->
                       Reserved.capacity d' = Ok m) as Hcap.
    { intros d' E. unfold Reserved.capacity, int_sub. rewrite E. simpl.
      replace (m + 1 - 1) with m by lia. apply int_of_Ok. lia. }
    destruct Hm as [->|[Hm Hp]].
    + destruct (Reserved.run (S fuel) (rfresh T (-1)) calls) as [[evs d']| | | |] eqn:E;
        try reflexivity.
      apply Hcap. eapply Reserved_run_n. exact E.
    + destruct (Reserved_run_rwf fuel calls _ (rwf_rfresh m Hm Hp))
        as (evs & d' & -> & _ & Hn).
      apply Hcap. exact Hn.
Qed.

(** C8.  On a constructed channel the read index and the write index
    lie in [0, storage length), the storage length being that of the
    allocated array: initially; after every sequence of calls, each of
    which returns; and at every instant of every execution of a
    producer thread making [Send] calls and a consumer thread making
    [Receive] calls, that is, in the shared state after the first [k]
    accesses of any schedule of the two threads' single loads and
    stores, whatever the calls in progress at that point. *)
Theorem indices_in_storage (capacity : Z) (c : Channel T) (calls : list (call T))
    (items : list T) (retry : bool) (sched : list AtomicSystem.thread) (k : nat) :
  Channel_ctor T capacity = Ok c ->
  (Z.of_nat (length (buf_ c)) = size_ c /\
   0 <= r_ c < size_ c /\
   0 <= w_ c < size_ c) /\
  (exists evs c',
    Atomic.run c calls = Ok (evs, c') /\
    Z.of_nat (length (buf_ c')) = size_ c' /\
    0 <= r_ c' < size_ c' /\
    0 <= w_ c' < size_ c') /\
  (exists s,
    AtomicSystem.run retry (take k sched) (AtomicSystem.start c items) = Ok s /\
    Z.of_nat (length (buf_ (AtomicSystem.shared s))) = size_ (AtomicSystem.shared s) /\
    0 <= r_ (AtomicSystem.shared s) < size_ (AtomicSystem.shared s) /\
    0 <= w_ (AtomicSystem.shared s) < size_ (AtomicSystem.shared s)).
Proof.
  intros H. split; [|split].
  - apply Channel_ctor_inv in H as [Hc ->].
    destruct (wf_fresh (T:=T) capacity Hc). auto.
  - destruct (Atomic_run_fresh capacity c calls H) as (evs & c' & E & Hwf & _).
    exists evs, c'. destruct Hwf. auto.
  - apply Channel_ctor_inv in H as [Hc ->].
    destruct (system_run_inv items retry (take k sched)
                (AtomicSystem.start (fresh T capacity) items))
      as (s & E & (Hwf & _) & _).
    + apply sys_inv_start; [now apply wf_fresh|now apply queued_fresh].
    + exists s. destruct Hwf. auto.
Qed.

Lemma reachable_bounded (capacity : Z) (c c' : Channel T)
    (calls : list (call T)) (evs : list (event T)) :
  Channel_ctor T capacity = Ok c ->
  Atomic.run c calls = Ok (evs, c') ->
  bounded c' = true.
Proof.
  intros H R.
  destruct (Atomic_run_fresh capacity c calls H) as (evs0 & c0 & E & Hwf & _).
  rewrite R in E. injection E as <- <-.
  apply in_range_bounded, wf_in_range, Hwf.
Qed.

(** C9.  Whatever the other thread does between the steps of a call
    (the consumer publishing read indices while the producer sends, the
    producer storing items and publishing write indices while the
    consumer receives), [Send] and [Receive] of the [volatile] revision
    return within 7 of their own steps, the compare-and-swap loop being
    entered once, and those of the [std::atomic] revision within 4. *)
Theorem calls_return_in_bounded_steps (c : Channel T) (t : T) (item : slot T)
    (cs cs' : list (option Z)) (ps ps' : list (option (nat * T * Z))) :
  bounded c = true ->
  (7 <= length cs)%nat -> (7 <= length ps)%nat ->
  (4 <= length cs')%nat -> (4 <= length ps')%nat ->
  (exists c' b,
      VolatileSteps.Send_interleaved cs c t = Ok (c', VolatileSteps.send_done b)) /\
  (exists c' b out,
      VolatileSteps.Receive_interleaved ps c item
        = Ok (c', VolatileSteps.receive_done b out)) /\
  (exists c' b,
      AtomicSteps.Send_interleaved cs' c t = Ok (c', AtomicSteps.send_done b)) /\
  (exists c' b out,
      AtomicSteps.Receive_interleaved ps' c item
        = Ok (c', AtomicSteps.receive_done b out)).
Proof.
  intros H L1 L2 L3 L4. apply bounded_in_range in H. splits.
  - destruct (Volatile_Send_returns cs c t H L1) as (c' & b & E & _). eauto.
  - destruct (Volatile_Receive_returns ps c item H L2) as (c' & b & out & E & _). eauto.
  - destruct (Atomic_Send_returns cs' c t H L3) as (c' & b & E & _). eauto.
  - destruct (Atomic_Receive_returns ps' c item H L4) as (c' & b & out & E & _). eauto.
Qed.

(** C10.  From the channel constructed for a capacity of at least 1,
    every sequence of calls run by one thread returns, and the
    [volatile] revision and the [std::atomic] revision return the same
    booleans, deliver the same items and end in the same state. *)
Theorem volatile_atomic_agree (capacity : Z) (c : Channel T)
    (calls : list (call T)) (fuel : nat) :
  1 <= capacity ->
  Channel_ctor T capacity = Ok c ->
  Volatile.run (S fuel) c calls = Atomic.run c calls /\
  exists evs c', Atomic.run c calls = Ok (evs, c').
Proof.
  intros Hcap H. split.
  - apply Channel_ctor_inv in H as [Hc ->].
    apply Volatile_run_Atomic_run; [now apply wf_fresh|exact Hcap].
  - destruct (Atomic_run_fresh capacity c calls H) as (evs & c' & E & _). eauto.
Qed.

End Claims.

(** Why C10 asks for a capacity of at least 1: on an empty channel of
    capacity 0 with one slot the full test of the [volatile] revision
    compares [size_] with [cap_] and lets the item in, while the
    [std::atomic] revision compares [nitems] with [cap_] and refuses
    it. *)
Example revisions_differ_at_capacity_0 :
  let c : Channel Z := MkChannel 0 1 0 [None] 0 0 in
  Volatile.Send 1 c 7 = Ok (true, MkChannel 0 1 0 [Some 7] 0 0) /\
  Atomic.Send c 7 = Ok (false, c).
Proof. split; reflexivity. Qed.

(** The wraparound scenario: capacity 4, storage length 8, twenty
    alternating [Send]/[Receive] pairs with increasing integers. *)
Example wraparound_capacity_4 :
  (let* c := Channel_ctor Z 4 in
   let* '(evs, c') := Atomic.run c
     (flat_map (fun k => [CallSend (Z.of_nat k); CallReceive]) (seq 1 20)) in
   Ok (delivered evs, size_ c'))
  = Ok (map (fun k => Some (Z.of_nat k)) (seq 1 20), 8).
Proof. vm_compute. reflexivity. Qed.

(** Boundary scenario 2 (capacity 1). *)
Example scenario_capacity_1 :
  (let* c := Channel_ctor Z 1 in
   let* '(evs, _) := Atomic.run c
     [CallSend 10; CallSend 11; CallReceive; CallReceive; CallSend 12; CallReceive] in
   Ok evs)
  = Ok [SendEv 10 true; SendEv 11 false; ReceiveEv true (Some 10);
        ReceiveEv false None; SendEv 12 true; ReceiveEv true (Some 12)].
Proof. vm_compute. reflexivity. Qed.

(** C4.  Boundary scenario 1: on a fresh channel of capacity 3 the ten
    calls return true, true, true, false, (true, 1), true, (true, 2),
    (true, 3), (true, 4), false. *)
Theorem scenario_capacity_3 :
  (let* c := Channel_ctor Z 3 in
   let* '(evs, _) := Atomic.run c
     [CallSend 1; CallSend 2; CallSend 3; CallSend 4; CallReceive;
      CallSend 4; CallReceive; CallReceive; CallReceive; CallReceive] in
   Ok evs)
  = Ok [SendEv 1 true; SendEv 2 true; SendEv 3 true; SendEv 4 false;
        ReceiveEv true (Some 1); SendEv 4 true; ReceiveEv true (Some 2);
        ReceiveEv true (Some 3); ReceiveEv true (Some 4); ReceiveEv false None].
Proof. vm_compute. reflexivity. Qed.

(** C3, as the specification words it, fails: for the capacity 1 the
    storage has length 2, which is not the smallest power of two that
    is at least 1; and for the capacity 0 there is no sizing at all. *)
Lemma storage_length_not_least_geq :
  Channel_ctor Z 0 = Undefined /\
  exists c : Channel Z,
    Channel_ctor Z 1 = Ok c /\
    Z.of_nat (length (buf_ c)) = 2 /\
    ~ smallest_pow2_geq 1 (Z.of_nat (length (buf_ c))).
Proof.
  split; [reflexivity|]. exists (fresh Z 1). splits; try reflexivity.
  intros (_ & _ & Hmin). specialize (Hmin 1 eq_refl ltac:(lia)).
  simpl in Hmin. lia.
Qed.

(** ** The theorems at concrete channels *)

Lemma fifo_order_witness :
  Channel_ctor Z 3 = Ok (fresh Z 3) /\
  exists evs c',
    Atomic.run (fresh Z 3) [CallSend 1; CallSend 2; CallReceive] = Ok (evs, c') /\
    map Some (accepted evs) = delivered evs ++ queued c' /\
    (occupancy c' = 0 -> delivered evs = map Some (accepted evs)) /\
    (forall evs1 out evs2,
        evs = evs1 ++ ReceiveEv true out :: evs2 ->
        exists item,
          out = Some item /\
          accepted evs1 !! length (delivered evs1) = Some item).
Proof.
  split; [reflexivity|].
  apply (fifo_order 3 (fresh Z 3)). reflexivity.
Defined.

Lemma send_receive_success_witness :
  let c' : Channel Z := MkChannel 3 4 3 [Some 1; Some 2; None; None] 1 2 in
  Channel_ctor Z 3 = Ok (fresh Z 3) /\
  Atomic.run (fresh Z 3) [CallSend 1; CallSend 2; CallReceive]
    = Ok ([SendEv 1 true; SendEv 2 true; ReceiveEv true (Some 1)], c') /\
  (2 - 1 = occupancy c' /\
   (forall item, exists b c'',
       Atomic.Send c' item = Ok (b, c'') /\ (b = true <-> occupancy c' < 3)) /\
   (forall item, exists b out c'',
       Atomic.Receive c' item = Ok (b, out, c'') /\ (b = true <-> occupancy c' > 0))).
Proof.
  intros c'. split; [reflexivity|]. split; [reflexivity|].
  apply (send_receive_success 3 (fresh Z 3) c'
           [CallSend 1; CallSend 2; CallReceive]
           [SendEv 1 true; SendEv 2 true; ReceiveEv true (Some 1)]);
    reflexivity.
Defined.

Lemma storage_length_next_pow2_witness :
  1 <= 4 < 2 ^ 30 /\
  exists c : Channel Z,
    Channel_ctor Z 4 = Ok c /\
    Z.of_nat (length (buf_ c)) = size_ c /\
    smallest_pow2_above 4 (Z.of_nat (length (buf_ c))).
Proof.
  assert (1 <= 4 < 2 ^ 30) as H by (split; [lia|reflexivity]).
  split; [exact H|]. apply (storage_length_next_pow2 4 H).
Defined.

Lemma false_return_no_change_witness :
  let full : Channel Z := MkChannel 1 2 1 [Some 7; None] 0 1 in
  let empty : Channel Z := fresh Z 1 in
  let rfull : Reserved.Channel Z := Reserved.MkChannel 2 1 [Some 7; None] 0 1 in
  let rempty : Reserved.Channel Z := rfresh Z 1 in
  (Atomic.Send full 8 = Ok (false, full) /\ full = full) /\
  (Atomic.Receive empty (Some 9) = Ok (false, Some 9, empty) /\
   empty = empty /\ Some 9 = Some 9) /\
  (Volatile.Send 1 full 8 = Ok (false, full) /\ full = full) /\
  (Volatile.Receive 1 empty (Some 9) = Ok (false, Some 9, empty) /\
   empty = empty /\ Some 9 = Some 9) /\
  (Reserved.Send 1 rfull 8 = Ok (false, rfull) /\ rfull = rfull) /\
  (Reserved.Receive 1 rempty (Some 9) = Ok (false, Some 9, rempty) /\
   rempty = rempty /\ Some 9 = Some 9).
Proof.
  intros full empty rfull rempty.
  destruct (@false_return_no_change Z) as (H1 & H2 & H3 & H4 & H5 & H6).
  split; [|split; [|split; [|split; [|split]]]].
  - split; [reflexivity|]. apply (H1 full full 8). reflexivity.
  - split; [reflexivity|]. apply (H2 empty empty (Some 9) (Some 9)). reflexivity.
  - split; [reflexivity|]. apply (H3 1%nat full full 8). reflexivity.
  - split; [reflexivity|]. apply (H4 1%nat empty empty (Some 9) (Some 9)). reflexivity.
  - split; [reflexivity|]. apply (H5 1%nat rfull rfull 8). reflexivity.
  - split; [reflexivity|]. apply (H6 1%nat rempty rempty (Some 9) (Some 9)). reflexivity.
Defined.

Lemma capacity_is_requested_witness :
  Channel_ctor Z 3 = Ok (fresh Z 3) /\
  Reserved.Channel_ctor 3 = Ok (rfresh Z 3) /\
  (exists evs c',
      Atomic.run (fresh Z 3) [CallSend 1; CallReceive; CallSend 2] = Ok (evs, c') /\
      capacity c' = 3) /\
  match Reserved.run 1 (rfresh Z 3) [CallSend 1; CallReceive; CallSend 2] with
  | Ok (_, d') => Reserved.capacity d' = Ok 3
  | _ => 3 = -1
  end.
Proof.
  split; [reflexivity|]. split; [reflexivity|].
  apply (capacity_is_requested 3 3 (fresh Z 3) (rfresh Z 3)
           [CallSend 1; CallReceive; CallSend 2] 0); reflexivity.
Defined.

Lemma indices_in_storage_witness :
  let sched := [AtomicSystem.Producer; AtomicSystem.Producer; AtomicSystem.Producer;
                AtomicSystem.Consumer; AtomicSystem.Producer; AtomicSystem.Consumer;
                AtomicSystem.Consumer; AtomicSystem.Producer; AtomicSystem.Consumer] in
  Channel_ctor Z 3 = Ok (fresh Z 3) /\
  (Z.of_nat (length (buf_ (fresh Z 3))) = size_ (fresh Z 3) /\
   0 <= r_ (fresh Z 3) < size_ (fresh Z 3) /\
   0 <= w_ (fresh Z 3) < size_ (fresh Z 3)) /\
  (exists evs c',
    Atomic.run (fresh Z 3) [CallSend 1; CallSend 2; CallSend 3; CallReceive; CallSend 4]
      = Ok (evs, c') /\
    Z.of_nat (length (buf_ c')) = size_ c' /\
    0 <= r_ c' < size_ c' /\
    0 <= w_ c' < size_ c') /\
  (exists s,
    AtomicSystem.run true (take 8 sched) (AtomicSystem.start (fresh Z 3) [1; 2]) = Ok s /\
    Z.of_nat (length (buf_ (AtomicSystem.shared s))) = size_ (AtomicSystem.shared s) /\
    0 <= r_ (AtomicSystem.shared s) < size_ (AtomicSystem.shared s) /\
    0 <= w_ (AtomicSystem.shared s) < size_ (AtomicSystem.shared s)).
Proof.
  intros sched. split; [reflexivity|].
  apply (indices_in_storage 3 (fresh Z 3) _ [1; 2] true sched 8). reflexivity.
Defined.

Lemma calls_return_in_bounded_steps_witness :
  let c : Channel Z := MkChannel 3 4 3 [Some 1; Some 2; None; None] 1 2 in
  let cs : list (option Z) := [None; Some 2; None; None; Some 3; None; None] in
  let ps : list (option (nat * Z * Z)) :=
    [None; Some (2%nat, 5, 3); None; None; None; Some (3%nat, 6, 4); None] in
  bounded c = true /\
  (7 <= length cs)%nat /\ (7 <= length ps)%nat /\
  (4 <= length (firstn 4 cs))%nat /\ (4 <= length (firstn 4 ps))%nat /\
  (exists c' b,
      VolatileSteps.Send_interleaved cs c 9 = Ok (c', VolatileSteps.send_done b)) /\
  (exists c' b out,
      VolatileSteps.Receive_interleaved ps c None
        = Ok (c', VolatileSteps.receive_done b out)) /\
  (exists c' b,
      AtomicSteps.Send_interleaved (firstn 4 cs) c 9
        = Ok (c', AtomicSteps.send_done b)) /\
  (exists c' b out,
      AtomicSteps.Receive_interleaved (firstn 4 ps) c None
        = Ok (c', AtomicSteps.receive_done b out)).
Proof.
  intros c cs ps.
  assert (bounded c = true) as H by reflexivity.
  assert (7 <= length cs)%nat as L1 by (simpl; lia).
  assert (7 <= length ps)%nat as L2 by (simpl; lia).
  assert (4 <= length (firstn 4 cs))%nat as L3 by (simpl; lia).
  assert (4 <= length (firstn 4 ps))%nat as L4 by (simpl; lia).
  split; [exact H|]. split; [exact L1|]. split; [exact L2|].
  split; [exact L3|]. split; [exact L4|].
  exact (calls_return_in_bounded_steps c 9 None cs (firstn 4 cs) ps (firstn 4 ps)
           H L1 L2 L3 L4).
Defined.

Lemma volatile_atomic_agree_witness :
  1 <= 3 /\
  Channel_ctor Z 3 = Ok (fresh Z 3) /\
  Volatile.run 1 (fresh Z 3) [CallSend 1; CallSend 2; CallReceive; CallReceive; CallReceive]
    = Atomic.run (fresh Z 3) [CallSend 1; CallSend 2; CallReceive; CallReceive; CallReceive] /\
  exists evs c',
    Atomic.run (fresh Z 3) [CallSend 1; CallSend 2; CallReceive; CallReceive; CallReceive]
      = Ok (evs, c').
Proof.
  assert (1 <= 3) as H by lia.
  split; [exact H|]. split; [reflexivity|].
  apply (volatile_atomic_agree 3 (fresh Z 3) _ 0 H). reflexivity.
Defined.

(** * Further properties of the code *)

(** ** Each call writes only its own side *)

Section Frames.
Context {T : Type}.

Lemma Volatile_spin_w_frame (fuel : nat) : forall (c c' : Channel T) w next,
  Volatile.spin_w fuel c w next = Ok c' ->
  cap_ c' = cap_ c /\ size_ c' = size_ c /\ size_mask_ c' = size_mask_ c /\
  r_ c' = r_ c /\ buf_ c' = buf_ c.
Proof.
  induction fuel as [|fuel IH]; intros c c' w next H; [discriminate|].
  simpl in H. unfold sync_bool_compare_and_swap in H.
  destruct (w_ c =? w).
  - inversion H; subst. simpl. auto.
  - apply IH in H. simpl in H. exact H.
Qed.

Lemma Volatile_spin_r_frame (fuel : nat) : forall (c c' : Channel T) r next,
  Volatile.spin_r fuel c r next = Ok c' ->
  cap_ c' = cap_ c /\ size_ c' = size_ c /\ size_mask_ c' = size_mask_ c /\
  w_ c' = w_ c /\ buf_ c' = buf_ c.
Proof.
  induction fuel as [|fuel IH]; intros c c' r next H; [discriminate|].
  simpl in H. unfold sync_bool_compare_and_swap in H.
  destruct (r_ c =? r).
  - inversion H; subst. simpl. auto.
  - apply IH in H. simpl in H. exact H.
Qed.

Lemma array_store_frame (buf buf' : list (slot T)) (i : Z) (t : T) :
  array_store buf i t = Ok buf' ->
  length buf' = length buf /\
  forall k : nat, k <> Z.to_nat i -> buf' !! k = buf !! k.
Proof.
  unfold array_store. destruct (in_bounds buf i); [|discriminate].
  intros [= <-]. split; [apply length_insert|].
  intros k Hk. apply list_lookup_insert_ne. congruence.
Qed.

Lemma producer_side_only_refl (c : Channel T) : producer_side_only c c.
Proof. unfold producer_side_only. splits; auto. Qed.

Lemma consumer_side_only_refl (c : Channel T) : consumer_side_only c c.
Proof. unfold consumer_side_only. splits; auto. Qed.

(** X1.  [Send] never assigns the read index or a slot other than the
    one under the write index, whether it returns [true] or [false]. *)
Theorem Send_writes_producer_side (fuel : nat) (c c' : Channel T) (t : T) (b : bool) :
  Atomic.Send c t = Ok (b, c') \/ Volatile.Send fuel c t = Ok (b, c') ->
  producer_side_only c c'.
Proof.
  intros [H|H].
  - unfold Atomic.Send in H. outcome_cases; try apply producer_side_only_refl.
    all: match goal with E : array_store _ _ _ = Ok _ |- _ =>
      apply array_store_frame in E as [Hl Hk] end.
    all: unfold producer_side_only; simpl; splits; auto.
  - unfold Volatile.Send in H. outcome_cases; try apply producer_side_only_refl.
    all: match goal with E : array_store _ _ _ = Ok _ |- _ =>
      apply array_store_frame in E as [Hl Hk] end.
    all: match goal with E : Volatile.spin_w _ _ _ _ = Ok _ |- _ =>
      apply Volatile_spin_w_frame in E as (H1 & H2 & H3 & H4 & H5) end.
    all: simpl in *; unfold producer_side_only; rewrite H1, H2, H3, H4, H5;
      splits; auto.
Qed.

(** X2.  [Receive] never assigns the write index or any slot: the slot
    it took from keeps its content. *)
Theorem Receive_writes_consumer_side (fuel : nat) (c c' : Channel T)
    (item out : slot T) (b : bool) :
  Atomic.Receive c item = Ok (b, out, c') \/
  Volatile.Receive fuel c item = Ok (b, out, c') ->
  consumer_side_only c c'.
Proof.
  intros [H|H].
  - unfold Atomic.Receive in H. outcome_cases; try apply consumer_side_only_refl.
    all: unfold consumer_side_only; simpl; splits; auto.
  - unfold Volatile.Receive in H. outcome_cases; try apply consumer_side_only_refl.
    all: match goal with E : Volatile.spin_r _ _ _ _ = Ok _ |- _ =>
      apply Volatile_spin_r_frame in E as (H1 & H2 & H3 & H4 & H5) end.
    all: unfold consumer_side_only; splits; auto.
Qed.

End Frames.

(** ** The dummy-slot revision *)

Section ReservedMore.
Context {T : Type}.

Lemma pow2_succ_log2 (n : Z) :
  0 <= n -> is_pow2 (n + 1) = (Z.land n (n + 1) =? 0).
Proof.
  intros Hn. destruct (Z.eqb_spec (Z.land n (n + 1)) 0) as [E|N].
  - apply land_succ_pow2 in E; [|assumption].
    rewrite E. apply is_pow2_pow. apply Z.log2_nonneg.
  - destruct (is_pow2 (n + 1)) eqn:P; [|reflexivity].
    apply is_pow2_log2 in P as [_ P]. exfalso. apply N.
    replace n with (2 ^ Z.log2 (n + 1) - 1) at 1 by lia.
    rewrite P at 2. apply land_pred_pow2, Z.log2_nonneg.
Qed.

(** X3.  The constructor of lines 183-186 on every [int]: [n + 1] overflows
    for [INT_MAX]; a negative array length makes [new] throw before the
    assertion is reached; the assertion lets through -1 and the [n] for
    which [n + 1] is a power of two, and stops all others. *)
Theorem Reserved_ctor_outcome (n : Z) :
  INT_MIN <= n <= INT_MAX ->
  Reserved.Channel_ctor (T:=T) n =
    if n =? INT_MAX then Undefined
    else if n <? -1 then Throws
    else if (n =? -1) || is_pow2 (n + 1) then Ok (rfresh T n)
    else AssertFailed.
Proof.
  intros Hn. rewrite Reserved_ctor_cases. int_facts. unfold in_int.
  destruct (Z.eqb_spec n INT_MAX) as [->|N].
  - reflexivity.
  - destruct (Z.leb_spec INT_MIN (n + 1)), (Z.leb_spec (n + 1) INT_MAX);
      try lia. simpl.
    destruct (Z.ltb_spec (n + 1) 0), (Z.ltb_spec n (-1)); try lia;
      [reflexivity|].
    destruct (Z.eqb_spec n (-1)) as [->|N1]; [reflexivity|]. simpl.
    rewrite pow2_succ_log2 by lia. reflexivity.
Qed.

Lemma full_test_agrees (r w s : Z) :
  0 <= r < s -> 0 <= w < s ->
  ((w + 1) mod s =? r) = ((w - r) mod s =? s - 1).
Proof.
  intros Hr Hw. rewrite mod_wrap_succ, mod_wrap_sub by lia.
  destruct (Z.eqb_spec (w + 1) s), (Z.leb_spec r w);
    repeat match goal with
           | |- context [?a =? ?b] => destruct (Z.eqb_spec a b)
           end; try reflexivity; lia.
Qed.

Lemma rwf_of_rounded (c : Channel T) : wf c -> rwf (of_rounded c).
Proof. intros H. destruct H. split; assumption. Qed.

Lemma Reserved_Send_Atomic_Send (fuel : nat) (c : Channel T) (t : T) :
  wf c -> cap_ c = size_ c - 1 ->
  Reserved.Send (S fuel) (of_rounded c) t =
    let* '(b, c') := Atomic.Send c t in Ok (b, of_rounded c').
Proof.
  intros H Hc.
  rewrite Reserved_Send_rwf by now apply rwf_of_rounded.
  rewrite Atomic_Send_wf by assumption.
  unfold occupancy. rewrite Hc. cbn [of_rounded Reserved.w_ Reserved.r_ Reserved.n_].
  destruct H. rewrite full_test_agrees by assumption.
  destruct (_ =? size_ c - 1); reflexivity.
Qed.

Lemma Reserved_Receive_Atomic_Receive (fuel : nat) (c : Channel T) (item : slot T) :
  wf c ->
  Reserved.Receive (S fuel) (of_rounded c) item =
    let* '(b, out, c') := Atomic.Receive c item in Ok (b, out, of_rounded c').
Proof.
  intros H.
  rewrite Reserved_Receive_rwf by now apply rwf_of_rounded.
  unfold Atomic.Receive. cbn [of_rounded Reserved.w_ Reserved.r_ Reserved.buf_].
  pose proof (wf_in_bounds c (r_ c) H) as Hb.
  pose proof (wf_and_mask c (r_ c + 1) H) as Hm.
  pose proof (wf_size_bounds c H) as Hs.
  destruct (r_ c =? w_ c); [reflexivity|].
  destruct H. int_facts.
  unfold array_load, int_add. rewrite Hb by lia. cbn [bind].
  rewrite int_of_Ok by lia. cbn [bind]. rewrite Hm. reflexivity.
Qed.

Lemma Reserved_run_Atomic_run (fuel : nat) (calls : list (call T)) :
  forall c : Channel T,
  wf c -> cap_ c = size_ c - 1 ->
  Reserved.run (S fuel) (of_rounded c) calls =
    let* '(evs, c') := Atomic.run c calls in Ok (evs, of_rounded c').
Proof.
  induction calls as [|[item|] rest IH]; intros c H Hc.
  - reflexivity.
  - cbn [Reserved.run Atomic.run].
    rewrite Reserved_Send_Atomic_Send by assumption.
    rewrite Atomic_Send_wf by assumption.
    destruct (Z.eqb_spec (occupancy c) (cap_ c)) as [E|N]; cbn [bind].
    + rewrite IH by assumption.
      destruct (Atomic.run c rest) as [[evs c']| | | |]; reflexivity.
    + rewrite IH; [|now apply wf_send_next|exact Hc].
      destruct (Atomic.run (send_next c item) rest) as [[evs c']| | | |]; reflexivity.
  - cbn [Reserved.run Atomic.run].
    rewrite Reserved_Receive_Atomic_Receive by assumption.
    rewrite Atomic_Receive_wf by assumption.
    destruct (Z.eqb_spec (occupancy c) 0) as [E|N]; cbn [bind].
    + rewrite IH by assumption.
      destruct (Atomic.run c rest) as [[evs c']| | | |]; reflexivity.
    + rewrite IH; [|now apply wf_recv_next|exact Hc].
      destruct (Atomic.run (recv_next c) rest) as [[evs c']| | | |]; reflexivity.
Qed.

(** The rounded channel behind the one the dummy-slot constructor
    builds for [n]. *)
Lemma wf_as_rounded_rfresh (n : Z) :
  0 <= n < INT_MAX -> n + 1 = 2 ^ Z.log2 (n + 1) ->
  wf (as_rounded (rfresh T n)) /\
  rfresh T n = of_rounded (as_rounded (rfresh T n)) /\
  cap_ (as_rounded (rfresh T n)) = n /\
  queued (as_rounded (rfresh T n)) = [].
Proof.
  intros Hn E. pose proof (rwf_rfresh (T:=T) n Hn E) as R.
  pose proof (rwf_size_bounds _ R) as Hs. destruct R. simpl in *.
  assert (occupancy (as_rounded (rfresh T n)) = 0) as Hz.
  { unfold occupancy. simpl. rewrite Z.sub_diag. apply Z.mod_0_l. lia. }
  splits.
  - split; simpl; auto; try lia;
      try (rewrite Hz; lia); try (unfold queued; rewrite Hz; constructor).
  - reflexivity.
  - simpl. lia.
  - unfold queued. rewrite Hz. reflexivity.
Qed.

Lemma as_rounded_of_rounded (c : Channel T) :
  cap_ c = size_ c - 1 -> as_rounded (of_rounded c) = c.
Proof. destruct c as [cap size mask buf r w]. simpl. intros ->. reflexivity. Qed.

(** X4.  On the channel the dummy-slot constructor builds for a
    capacity [n >= 0], every sequence of calls returns; the items come out in
    the order they went in; [Send] returns [true] exactly when fewer
    than [n] items are queued, so that one slot of the [n + 1] always
    stays unused; and [Receive] returns [true] exactly when an item is
    queued. *)
Theorem Reserved_fifo_and_capacity (n : Z) (d : Reserved.Channel T)
    (calls : list (call T)) (fuel : nat) :
  0 <= n ->
  Reserved.Channel_ctor n = Ok d ->
  exists evs d',
    Reserved.run (S fuel) d calls = Ok (evs, d') /\
    map Some (accepted evs) = delivered evs ++ queued (as_rounded d') /\
    Z.of_nat (length (queued (as_rounded d'))) <= n /\
    (forall t, exists b d'',
        Reserved.Send (S fuel) d' t = Ok (b, d'') /\
        (b = true <-> Z.of_nat (length (queued (as_rounded d'))) < n)) /\
    (forall item, exists b out d'',
        Reserved.Receive (S fuel) d' item = Ok (b, out, d'') /\
        (b = true <-> queued (as_rounded d') <> [])).
Proof.
  intros Hn Hd. apply Reserved_ctor_Ok_inv in Hd as [-> [->|[Hn' Hp]]]; [lia|].
  destruct (wf_as_rounded_rfresh n Hn' Hp) as (Hwf & Heq & Hcap & Hq).
  set (c0 := as_rounded (rfresh T n)) in *.
  assert (cap_ c0 = size_ c0 - 1) as Hcs by (subst c0; simpl; lia).
  destruct (Atomic_run_wf calls c0 Hwf)
    as (evs & c' & E & Hwf' & Hcap' & Hsize' & Hfifo & _).
  assert (cap_ c' = size_ c' - 1) as Hcs' by lia.
  exists evs, (of_rounded c').
  rewrite Heq, (Reserved_run_Atomic_run fuel calls c0 Hwf Hcs), E.
  rewrite (as_rounded_of_rounded c' Hcs').
  rewrite Hq in Hfifo. simpl in Hfifo.
  pose proof (length_queued c' Hwf') as Hl.
  pose proof (wf_occ c' Hwf') as Hocc.
  splits.
  - reflexivity.
  - exact Hfifo.
  - lia.
  - intros t. rewrite Reserved_Send_Atomic_Send, Atomic_Send_wf by assumption.
    destruct (Z.eqb_spec (occupancy c') (cap_ c')).
    + exists false, (of_rounded c'). split; [reflexivity|].
      split; [discriminate|lia].
    + exists true, (of_rounded (send_next c' t)). split; [reflexivity|].
      split; [lia|reflexivity].
  - intros item.
    rewrite Reserved_Receive_Atomic_Receive, Atomic_Receive_wf by assumption.
    destruct (Z.eqb_spec (occupancy c') 0) as [Ez|Nz].
    + exists false, item, (of_rounded c'). split; [reflexivity|].
      split; [discriminate|]. intros Hne. exfalso. apply Hne.
      now apply queued_empty.
    + exists true, (slot_at (buf_ c') (r_ c')), (of_rounded (recv_next c')).
      split; [reflexivity|]. split; [|reflexivity].
      intros _ Hnil. rewrite Hnil in Hl. simpl in Hl. lia.
Qed.

Lemma log2_pred_pow2 (n : Z) :
  1 <= n -> n + 1 = 2 ^ Z.log2 (n + 1) -> Z.log2 n + 1 = Z.log2 (n + 1).
Proof.
  intros Hn E. pose proof (Z.log2_nonneg (n + 1)) as Hl.
  assert (1 <= Z.log2 (n + 1)) as Hp.
  { destruct (Z.eq_dec (Z.log2 (n + 1)) 0) as [Z0|]; [|lia].
    rewrite Z0 in E. simpl in E. lia. }
  assert (Z.log2 n = Z.log2 (n + 1) - 1); [|lia].
  apply Z.log2_unique; [lia|].
  replace (Z.succ (Z.log2 (n + 1) - 1)) with (Z.log2 (n + 1)) by lia.
  assert (2 ^ Z.log2 (n + 1) = 2 * 2 ^ (Z.log2 (n + 1) - 1)) as E2.
  { rewrite <- Z.pow_succ_r by lia. f_equal. lia. }
  pose proof (Z.pow_pos_nonneg 2 (Z.log2 (n + 1) - 1)). lia.
Qed.

(** X5.  For a capacity [n >= 1] that the dummy-slot constructor accepts,
    the rounding constructor builds the same storage, mask and indices,
    and every sequence of calls returns the same results and leaves the
    same storage and indices in the dummy-slot revision and in the
    [std::atomic] revision. *)
Theorem Reserved_agrees_with_Atomic (n : Z) (d : Reserved.Channel T)
    (calls : list (call T)) (fuel : nat) :
  1 <= n ->
  Reserved.Channel_ctor n = Ok d ->
  exists c : Channel T,
    Channel_ctor T n = Ok c /\
    d = of_rounded c /\
    Reserved.run (S fuel) d calls =
      let* '(evs, c') := Atomic.run c calls in Ok (evs, of_rounded c').
Proof.
  intros Hn Hd. apply Reserved_ctor_Ok_inv in Hd as [-> [->|[Hn' Hp]]]; [lia|].
  pose proof (log2_pred_pow2 n Hn Hp) as Hl.
  assert (n < 2 ^ 30) as Hlt.
  { pose proof (rwf_size_bounds _ (rwf_rfresh (T:=T) n Hn' Hp)) as Hs.
    simpl in Hs. lia. }
  assert (rfresh T n = of_rounded (fresh T n)) as Heq.
  { unfold rfresh, of_rounded, fresh. cbn -[Z.pow Z.log2 Z.to_nat].
    rewrite Hl, <- Hp. f_equal. lia. }
  exists (fresh T n). splits.
  - apply Channel_ctor_Ok. lia.
  - exact Heq.
  - rewrite Heq. apply Reserved_run_Atomic_run.
    + apply wf_fresh. lia.
    + unfold fresh. cbn -[Z.pow Z.log2 Z.to_nat]. rewrite Hl, <- Hp. lia.
Qed.

End ReservedMore.

(** ** Filling and draining *)

Section FillDrain.
Context {T : Type}.
Implicit Types (c : Channel T) (items : list T) (rest : list (call T)).

Lemma run_sends_room items : forall c rest,
  wf c -> occupancy c + Z.of_nat (length items) <= cap_ c ->
  exists c1,
    wf c1 /\ cap_ c1 = cap_ c /\
    queued c1 = queued c ++ map Some items /\
    Atomic.run c (map CallSend items ++ rest) =
      let* '(evs, c') := Atomic.run c1 rest in
      Ok (map (fun t => SendEv t true) items ++ evs, c').
Proof.
  induction items as [|t items IH]; intros c rest H Hroom.
  - exists c. rewrite app_nil_r. splits; auto.
    simpl. destruct (Atomic.run c rest) as [[evs c']| | | |]; reflexivity.
  - simpl length in Hroom.
    assert (occupancy c <> cap_ c) as N by lia.
    pose proof (occupancy_send_next c t H N) as Ho.
    destruct (IH (send_next c t) rest (wf_send_next c t H N)) as (c1 & H1 & Hc & Hq & E).
    { rewrite Ho. simpl. lia. }
    exists c1. rewrite (queued_send_next c t H N), <- app_assoc in Hq.
    splits; auto.
    cbn [map app Atomic.run]. rewrite Atomic_Send_wf by assumption.
    destruct (Z.eqb_spec (occupancy c) (cap_ c)); [contradiction|].
    cbn [bind]. rewrite E.
    destruct (Atomic.run c1 rest) as [[evs c']| | | |]; reflexivity.
Qed.

Lemma run_receives_queued items : forall c rest q,
  wf c -> queued c = map Some items ++ q ->
  exists c1,
    wf c1 /\ cap_ c1 = cap_ c /\ queued c1 = q /\
    Atomic.run c (repeat CallReceive (length items) ++ rest) =
      let* '(evs, c') := Atomic.run c1 rest in
      Ok (map (fun t => ReceiveEv true (Some t)) items ++ evs, c').
Proof.
  induction items as [|t items IH]; intros c rest q H Hq.
  - exists c. splits; auto.
    simpl. destruct (Atomic.run c rest) as [[evs c']| | | |]; reflexivity.
  - assert (occupancy c <> 0) as N.
    { pose proof (length_queued c H) as Hl. rewrite Hq in Hl. simpl in Hl. lia. }
    pose proof (queued_recv_next c H N) as Hr. rewrite Hq in Hr.
    simpl in Hr. injection Hr as Hhd Htl.
    destruct (IH (recv_next c) rest q (wf_recv_next c H N) (eq_sym Htl))
      as (c1 & H1 & Hc & Hq1 & E).
    exists c1. splits; auto.
    cbn [length repeat app Atomic.run]. rewrite Atomic_Receive_wf by assumption.
    destruct (Z.eqb_spec (occupancy c) 0); [contradiction|].
    cbn [bind]. rewrite E, <- Hhd.
    destruct (Atomic.run c1 rest) as [[evs c']| | | |]; reflexivity.
Qed.

(** X6.  A channel constructed for capacity [n] holds exactly [n] items:
    [n] [Send]s in a row succeed and the next one fails; then [n]
    [Receive]s return the items in the order sent and the next one
    fails, leaving the channel empty. *)
Theorem fill_then_drain (n : Z) (c : Channel T) (items : list T) (extra : T) :
  Channel_ctor T n = Ok c ->
  Z.of_nat (length items) = n ->
  exists c',
    Atomic.run c (map CallSend items ++ CallSend extra ::
                  repeat CallReceive (length items) ++ [CallReceive])
    = Ok (map (fun t => SendEv t true) items ++ SendEv extra false ::
          map (fun t => ReceiveEv true (Some t)) items ++ [ReceiveEv false None],
          c') /\
    queued c' = [].
Proof.
  intros Hc Hlen. apply Channel_ctor_inv in Hc as [Hn ->].
  pose proof (wf_fresh (T:=T) n Hn) as H0.
  destruct (run_sends_room items (fresh T n)
              (CallSend extra :: repeat CallReceive (length items) ++ [CallReceive]) H0)
    as (c1 & H1 & Hc1 & Hq1 & E1).
  { rewrite occupancy_fresh by lia. simpl. lia. }
  rewrite queued_fresh in Hq1 by assumption. simpl in Hq1.
  assert (occupancy c1 = cap_ c1) as Hfull.
  { pose proof (length_queued c1 H1) as Hl. rewrite Hq1, length_map in Hl.
    rewrite Hc1. simpl. lia. }
  destruct (run_receives_queued items c1 [CallReceive] [] H1)
    as (c2 & H2 & Hc2 & Hq2 & E2).
  { rewrite app_nil_r. exact Hq1. }
  assert (occupancy c2 = 0) as Hempty.
  { pose proof (length_queued c2 H2) as Hl. rewrite Hq2 in Hl. simpl in Hl. lia. }
  exists c2. split; [|exact Hq2].
  rewrite E1. cbn [Atomic.run]. rewrite Atomic_Send_wf, Hfull, Z.eqb_refl by assumption.
  cbn [bind]. rewrite E2. cbn [Atomic.run].
  rewrite Atomic_Receive_wf, Hempty by assumption. reflexivity.
Qed.

End FillDrain.

(** ** Producer and consumer interleaved access by access *)

Section SystemRuns.
Context {T : Type}.

(** X7.  Whatever the order of the two threads' accesses, no access is out
    of bounds or otherwise undefined, the items delivered so far
    followed by the queued ones are the items accepted so far, in
    order (so no [Receive] succeeds on an empty channel, none delivers
    a slot that was not stored, and no [Send] overwrites an unread
    slot), the queue never exceeds the capacity, and a producer that
    retries loses no item. *)
Theorem interleaved_fifo (n : Z) (c : Channel T) (items : list T) (retry : bool)
    (sched : list AtomicSystem.thread) :
  Channel_ctor T n = Ok c ->
  exists s',
    AtomicSystem.run retry sched (AtomicSystem.start c items) = Ok s' /\
    map Some (AtomicSystem.sent s')
      = AtomicSystem.got s' ++ queued (AtomicSystem.shared s') /\
    Z.of_nat (length (queued (AtomicSystem.shared s'))) <= n /\
    (retry = false \/ AtomicSystem.sent s' ++ AtomicSystem.todo s' = items).
Proof.
  intros Hc. apply Channel_ctor_inv in Hc as [Hn ->].
  destruct (system_run_inv items retry sched (AtomicSystem.start (fresh T n) items))
    as (s' & E & (Hwf & Hlog & Hloss & _) & Hcap).
  - apply sys_inv_start; [now apply wf_fresh|now apply queued_fresh].
  - exists s'. splits; auto.
    + rewrite (length_queued _ Hwf). pose proof (wf_occ _ Hwf) as Hocc.
      change (cap_ (AtomicSystem.shared (AtomicSystem.start (fresh T n) items)))
        with n in Hcap. lia.
    + destruct retry; [right; now apply Hloss|now left].
Qed.

End SystemRuns.

(** ** The same for the [volatile] revision *)

Section VolatileSystemRuns.
Context {T : Type}.
Implicit Types (c : Channel T) (s : VolatileSystem.system (T:=T)).

Lemma vsend_step_read_w c (item : T) (r : Z) :
  wf c ->
  VolatileSteps.send_step item c (VolatileSteps.send_read_w r) =
    Ok (c, VolatileSteps.send_fence_acq r (w_ c) ((w_ c + 1) mod size_ c)).
Proof.
  intros H. pose proof (wf_size_bounds c H) as Hs.
  pose proof (wf_and_mask c (w_ c + 1) H) as Hm. destruct H. int_facts.
  cbn [VolatileSteps.send_step]. unfold int_add.
  rewrite int_of_Ok by lia. cbn [bind]. rewrite Hm. reflexivity.
Qed.

Lemma vsend_step_check c (item : T) (r next : Z) :
  wf c -> 1 <= cap_ c -> 0 <= r < size_ c -> (w_ c - r) mod size_ c <= cap_ c ->
  exists full : bool,
    VolatileSteps.send_step item c (VolatileSteps.send_check r (w_ c) next) =
      Ok (c, if full then VolatileSteps.send_done false
             else VolatileSteps.send_store (w_ c) next) /\
    (full = false -> (w_ c - r) mod size_ c < cap_ c).
Proof.
  intros H Hc Hr Hstale. pose proof (wf_size_bounds c H) as Hs.
  destruct H. int_facts.
  rewrite mod_wrap_sub in Hstale |- * by lia.
  cbn [VolatileSteps.send_step]. unfold int_sub, int_add. rewrite Z.gtb_ltb.
  destruct (Z.ltb_spec r (w_ c)), (Z.leb_spec r (w_ c)); try lia.
  - rewrite int_of_Ok by lia. cbn [bind].
    destruct (Z.eqb_spec (w_ c - r) (cap_ c)).
    + exists true. split; [reflexivity|discriminate].
    + exists false. split; [reflexivity|lia].
  - rewrite int_of_Ok by lia. cbn [bind]. rewrite int_of_Ok by lia. cbn [bind].
    destruct (Z.eqb_spec (w_ c - r + size_ c) (cap_ c)); [lia|].
    exists false. split; [reflexivity|lia].
  - rewrite int_of_Ok by lia. cbn [bind]. rewrite int_of_Ok by lia. cbn [bind].
    destruct (Z.eqb_spec (w_ c - r + size_ c) (cap_ c)).
    + exists true. split; [reflexivity|discriminate].
    + exists false. split; [reflexivity|lia].
Qed.

Lemma vsend_step_store c (item : T) (next : Z) :
  wf c ->
  VolatileSteps.send_step item c (VolatileSteps.send_store (w_ c) next) =
    Ok (set_buf c (<[Z.to_nat (w_ c) := Some item]> (buf_ c)),
        VolatileSteps.send_fence_rel (w_ c) next).
Proof.
  intros H. pose proof (wf_in_bounds c (w_ c) H) as Hb. destruct H.
  cbn [VolatileSteps.send_step]. unfold array_store. rewrite Hb by lia.
  reflexivity.
Qed.

Lemma vsend_step_cas c (item : T) (next : Z) :
  VolatileSteps.send_step item c (VolatileSteps.send_cas (w_ c) next) =
    Ok (set_w c next, VolatileSteps.send_done true).
Proof.
  cbn [VolatileSteps.send_step]. unfold sync_bool_compare_and_swap.
  rewrite Z.eqb_refl. reflexivity.
Qed.

Lemma vreceive_step_load c :
  wf c ->
  VolatileSteps.receive_step c (VolatileSteps.receive_load (r_ c)) =
    Ok (c, VolatileSteps.receive_fence (slot_at (buf_ c) (r_ c)) (r_ c)
             ((r_ c + 1) mod size_ c)).
Proof.
  intros H. pose proof (wf_size_bounds c H) as Hs.
  pose proof (wf_in_bounds c (r_ c) H) as Hb.
  pose proof (wf_and_mask c (r_ c + 1) H) as Hm. destruct H. int_facts.
  cbn [VolatileSteps.receive_step]. unfold array_load, int_add.
  rewrite Hb by lia. cbn [bind]. rewrite int_of_Ok by lia. cbn [bind].
  rewrite Hm. reflexivity.
Qed.

Lemma vreceive_step_cas c (v : slot T) (next : Z) :
  VolatileSteps.receive_step c (VolatileSteps.receive_cas v (r_ c) next) =
    Ok (set_r c next, VolatileSteps.receive_done true v).
Proof.
  cbn [VolatileSteps.receive_step]. unfold sync_bool_compare_and_swap.
  rewrite Z.eqb_refl. reflexivity.
Qed.

(** What the consumer relies on survives a producer's access, and the
    other way round. *)
Lemma vconsumer_ok_shared c c' todo todo' ppc ppc' cpc sent sent' got got' :
  r_ c' = r_ c -> size_ c' = size_ c -> occupancy c <= occupancy c' ->
  (occupancy c > 0 -> slot_at (buf_ c') (r_ c) = slot_at (buf_ c) (r_ c)) ->
  VolatileSystem.consumer_ok (VolatileSystem.MkSystem c todo ppc cpc sent got) ->
  VolatileSystem.consumer_ok (VolatileSystem.MkSystem c' todo' ppc' cpc sent' got').
Proof.
  intros Hr Hs Ho Hb. unfold VolatileSystem.consumer_ok.
  cbn [VolatileSystem.shared VolatileSystem.cpc].
  destruct cpc as [it|it r|it r w|it r w|r|v r next|v r next|b v]; auto.
  - congruence.
  - intros [-> H]. split; [congruence|]. intros N. specialize (H N). lia.
  - intros [-> H]. split; [congruence|]. intros N. specialize (H N). lia.
  - intros [-> H]. split; [congruence|lia].
  - intros (-> & -> & H & ->). rewrite Hr, Hs, Hb by assumption. splits; auto. lia.
  - intros (-> & -> & H & ->). rewrite Hr, Hs, Hb by assumption. splits; auto. lia.
Qed.

Lemma vproducer_ok_shared c c' todo ppc cpc cpc' sent sent' got got' :
  w_ c' = w_ c -> size_ c' = size_ c -> cap_ c' = cap_ c -> buf_ c' = buf_ c ->
  occupancy c' <= occupancy c ->
  VolatileSystem.producer_ok (VolatileSystem.MkSystem c todo ppc cpc sent got) ->
  VolatileSystem.producer_ok (VolatileSystem.MkSystem c' todo ppc cpc' sent' got').
Proof.
  intros Hw Hs Hc Hb Ho. unfold VolatileSystem.producer_ok, VolatileSystem.stale_r.
  cbn [VolatileSystem.shared VolatileSystem.ppc VolatileSystem.todo].
  rewrite Hw, Hs, Hc, Hb.
  destruct ppc as [|r|r w next|r w next|w next|w next|w next|b]; auto.
  - intros (H1 & H2). splits; auto; lia.
  - intros (H1 & H2 & H3 & H4). splits; auto; lia.
  - intros (H1 & H2 & H3 & H4). splits; auto; lia.
  - intros (H1 & H2 & H3). splits; auto; lia.
  - intros (H1 & H2 & H3 & H4). splits; auto; lia.
  - intros (H1 & H2 & H3 & H4). splits; auto; lia.
Qed.

Ltac vsys_open :=
  unfold VolatileSystem.sys_inv, VolatileSystem.producer_step,
    VolatileSystem.consumer_step;
  cbn [VolatileSystem.shared VolatileSystem.todo VolatileSystem.ppc
       VolatileSystem.cpc VolatileSystem.sent VolatileSystem.got].

Ltac vsys_next :=
  eexists; split; [reflexivity|]; split; [|reflexivity];
  cbn [VolatileSystem.shared VolatileSystem.todo VolatileSystem.ppc
       VolatileSystem.cpc VolatileSystem.sent VolatileSystem.got].

Lemma vproducer_step_inv (items : list T) (retry : bool) s :
  VolatileSystem.sys_inv items retry s ->
  exists s',
    VolatileSystem.producer_step retry s = Ok s' /\
    VolatileSystem.sys_inv items retry s' /\
    cap_ (VolatileSystem.shared s') = cap_ (VolatileSystem.shared s).
Proof.
  destruct s as [c todo ppc cpc sent got]. vsys_open.
  intros (Hwf & Hcap & Hlog & Hloss & Hp & Hc).
  destruct todo as [|item rest].
  { eexists. split; [reflexivity|]. cbn. splits; auto. }
  pose proof (wf_occ c Hwf) as Hocc.
  pose proof (wf_size_bounds c Hwf) as Hs.
  pose proof Hwf as Hw. destruct Hw as [_ _ _ Hlen Hr Hw _ _].
  unfold VolatileSystem.producer_ok in Hp.
  cbn [VolatileSystem.shared VolatileSystem.todo VolatileSystem.ppc] in Hp.
  destruct ppc as [|r|r w next|r w next|w next|w next|w next|b].
  - cbn [VolatileSteps.send_step bind]. vsys_next. splits; auto.
    unfold VolatileSystem.producer_ok, VolatileSystem.stale_r. cbn.
    fold (occupancy c). splits; auto; lia.
  - rewrite vsend_step_read_w by assumption. cbn [bind]. vsys_next. splits; auto.
    unfold VolatileSystem.producer_ok. cbn. splits; auto.
  - cbn [VolatileSteps.send_step bind]. vsys_next. splits; auto.
  - destruct Hp as (-> & -> & Hr0 & Hst).
    destruct (vsend_step_check c item r ((w_ c + 1) mod size_ c) Hwf Hcap Hr0
                ltac:(lia)) as (full & -> & Hfull).
    cbn [bind]. destruct full.
    + vsys_next. splits; auto.
      * intros R. rewrite R. auto.
      * exact I.
    + vsys_next. splits; auto.
      unfold VolatileSystem.producer_ok. cbn. splits; auto.
      specialize (Hfull eq_refl). lia.
  - destruct Hp as (-> & -> & Hroom).
    rewrite vsend_step_store by assumption. cbn [bind]. vsys_next. splits; auto.
    + now apply wf_store.
    + rewrite (queued_store c item Hwf). exact Hlog.
    + unfold VolatileSystem.producer_ok. cbn. splits; auto.
      exists item, rest. split; [reflexivity|].
      apply list_lookup_insert_eq. lia.
    + eapply vconsumer_ok_shared; [..|exact Hc]; cbn; try reflexivity; try lia.
      intros Hpos. apply slot_at_insert_ne; try lia.
      intros E. unfold occupancy in Hpos. rewrite E, Z.sub_diag, Z.mod_0_l in Hpos; lia.
  - cbn [VolatileSteps.send_step bind]. vsys_next. splits; auto.
  - destruct Hp as (-> & -> & Hroom & item' & rest' & Et & Hslot).
    injection Et as <- <-.
    rewrite vsend_step_cas. cbn [bind]. vsys_next.
    assert (occupancy c <> cap_ c) as N by lia.
    pose proof (send_next_stored c item Hslot) as Enext.
    pose proof (occupancy_send_next c item Hwf N) as Ho. rewrite <- Enext in Ho.
    splits.
    + rewrite Enext. now apply wf_send_next.
    + exact Hcap.
    + rewrite Enext, (queued_send_next c item Hwf N), List.map_app, Hlog.
      now rewrite <- app_assoc.
    + intros R. rewrite <- app_assoc. now apply Hloss.
    + exact I.
    + eapply vconsumer_ok_shared; [..|exact Hc]; try reflexivity.
      rewrite Ho. lia.
  - contradiction.
Qed.

Lemma vconsumer_step_inv (items : list T) (retry : bool) s :
  VolatileSystem.sys_inv items retry s ->
  exists s',
    VolatileSystem.consumer_step s = Ok s' /\
    VolatileSystem.sys_inv items retry s' /\
    cap_ (VolatileSystem.shared s') = cap_ (VolatileSystem.shared s).
Proof.
  destruct s as [c todo ppc cpc sent got]. vsys_open.
  intros (Hwf & Hcap & Hlog & Hloss & Hp & Hc).
  unfold VolatileSystem.consumer_ok in Hc.
  cbn [VolatileSystem.shared VolatileSystem.cpc] in Hc.
  destruct cpc as [it|it r|it r w|it r w|r|v r next|v r next|b v].
  - cbn [VolatileSteps.receive_step bind]. vsys_next. splits; auto.
    unfold VolatileSystem.consumer_ok. cbn. reflexivity.
  - subst r. cbn [VolatileSteps.receive_step bind]. vsys_next. splits; auto.
    unfold VolatileSystem.consumer_ok. cbn. split; [reflexivity|].
    now apply occupancy_pos_ne.
  - cbn [VolatileSteps.receive_step bind]. vsys_next. splits; auto.
  - destruct Hc as [-> Hpos]. cbn [VolatileSteps.receive_step bind].
    destruct (Z.eqb_spec (r_ c) w) as [E|N].
    + vsys_next. splits; auto. exact I.
    + vsys_next. splits; auto.
      unfold VolatileSystem.consumer_ok. cbn. auto.
  - destruct Hc as [-> Hpos]. rewrite vreceive_step_load by assumption.
    cbn [bind]. vsys_next. splits; auto.
    unfold VolatileSystem.consumer_ok. cbn. splits; auto.
  - cbn [VolatileSteps.receive_step bind]. vsys_next. splits; auto.
  - destruct Hc as (-> & -> & Hpos & ->).
    rewrite vreceive_step_cas. cbn [bind]. vsys_next.
    assert (occupancy c <> 0) as N by lia.
    pose proof (occupancy_recv_next c Hwf N) as Ho.
    fold (recv_next c).
    splits.
    + now apply wf_recv_next.
    + exact Hcap.
    + rewrite Hlog, (queued_recv_next c Hwf N), <- app_assoc. reflexivity.
    + exact Hloss.
    + eapply vproducer_ok_shared; [..|exact Hp]; try reflexivity.
      rewrite Ho. lia.
    + exact I.
  - contradiction.
Qed.

Lemma vsystem_run_inv (items : list T) (retry : bool)
    (sched : list AtomicSystem.thread) : forall s,
  VolatileSystem.sys_inv items retry s ->
  exists s',
    VolatileSystem.run retry sched s = Ok s' /\
    VolatileSystem.sys_inv items retry s' /\
    cap_ (VolatileSystem.shared s') = cap_ (VolatileSystem.shared s).
Proof.
  induction sched as [|who rest IH]; intros s H.
  - exists s. splits; auto.
  - cbn [VolatileSystem.run]. destruct who.
    + destruct (vproducer_step_inv items retry s H) as (s1 & -> & H1 & C1).
      cbn [bind]. destruct (IH s1 H1) as (s' & E & H' & C'). exists s'.
      splits; auto. congruence.
    + destruct (vconsumer_step_inv items retry s H) as (s1 & -> & H1 & C1).
      cbn [bind]. destruct (IH s1 H1) as (s' & E & H' & C'). exists s'.
      splits; auto. congruence.
Qed.

(** X8.  The [volatile] revision under every order of the two threads'
    accesses: its tests on out-of-date indices err only on the safe
    side, so that no access is undefined, the items delivered followed
    by the queued ones are the items accepted, in order, the queue
    never exceeds the capacity, and a producer that retries loses no
    item; and its compare-and-swap loops never go round: whenever a
    thread has reached its compare-and-swap, the index still has the
    value the thread read, so that the swap it is about to make
    succeeds, stores the next index and the call returns [true]. *)
Theorem volatile_interleaved_fifo (n : Z) (c : Channel T) (items : list T)
    (retry : bool) (sched : list AtomicSystem.thread) :
  Channel_ctor T n = Ok c ->
  exists s',
    VolatileSystem.run retry sched (VolatileSystem.start c items) = Ok s' /\
    map Some (VolatileSystem.sent s')
      = VolatileSystem.got s' ++ queued (VolatileSystem.shared s') /\
    Z.of_nat (length (queued (VolatileSystem.shared s'))) <= n /\
    (retry = false \/ VolatileSystem.sent s' ++ VolatileSystem.todo s' = items) /\
    (forall (item : T) (w next : Z),
        VolatileSystem.ppc s' = VolatileSteps.send_cas w next ->
        w_ (VolatileSystem.shared s') = w /\
        VolatileSteps.send_step item (VolatileSystem.shared s') (VolatileSystem.ppc s')
          = Ok (set_w (VolatileSystem.shared s') next, VolatileSteps.send_done true)) /\
    (forall (v : slot T) (r next : Z),
        VolatileSystem.cpc s' = VolatileSteps.receive_cas v r next ->
        r_ (VolatileSystem.shared s') = r /\
        VolatileSteps.receive_step (VolatileSystem.shared s') (VolatileSystem.cpc s')
          = Ok (set_r (VolatileSystem.shared s') next,
                VolatileSteps.receive_done true v)).
Proof.
  intros Hc. apply Channel_ctor_inv in Hc as [Hn ->].
  destruct (vsystem_run_inv items retry sched (VolatileSystem.start (fresh T n) items))
    as (s' & E & (Hwf & _ & Hlog & Hloss & Hp & Hcons) & Hcap).
  - unfold VolatileSystem.sys_inv, VolatileSystem.start,
      VolatileSystem.producer_ok, VolatileSystem.consumer_ok.
    cbn [VolatileSystem.shared VolatileSystem.todo VolatileSystem.ppc
         VolatileSystem.cpc VolatileSystem.sent VolatileSystem.got].
    rewrite queued_fresh by assumption.
    change (cap_ (fresh T n)) with n.
    splits; auto; [now apply wf_fresh|lia].
  - exists s'. splits; auto.
    + rewrite (length_queued _ Hwf). pose proof (wf_occ _ Hwf) as Hocc.
      change (cap_ (VolatileSystem.shared (VolatileSystem.start (fresh T n) items)))
        with n in Hcap. lia.
    + destruct retry; [right; now apply Hloss|now left].
    + intros item w next Hpc. unfold VolatileSystem.producer_ok in Hp.
      rewrite Hpc in Hp |- *. destruct Hp as (-> & _).
      split; [reflexivity|]. apply vsend_step_cas.
    + intros v r next Hpc. unfold VolatileSystem.consumer_ok in Hcons.
      rewrite Hpc in Hcons |- *. destruct Hcons as (-> & _).
      split; [reflexivity|]. apply vreceive_step_cas.
Qed.

End VolatileSystemRuns.

(** ** The further properties at concrete channels *)

Lemma Send_writes_producer_side_witness :
  let c : Channel Z := MkChannel 3 4 3 [Some 1; Some 2; None; None] 1 2 in
  let c' : Channel Z := MkChannel 3 4 3 [Some 1; Some 2; Some 9; None] 1 3 in
  (Atomic.Send c 9 = Ok (true, c') \/ Volatile.Send 1 c 9 = Ok (true, c')) /\
  producer_side_only c c'.
Proof.
  intros c c'.
  assert (Atomic.Send c 9 = Ok (true, c') \/ Volatile.Send 1 c 9 = Ok (true, c'))
    as H by (left; reflexivity).
  split; [exact H|]. exact (Send_writes_producer_side 1 c c' 9 true H).
Defined.

Lemma Receive_writes_consumer_side_witness :
  let c : Channel Z := MkChannel 3 4 3 [Some 1; Some 2; None; None] 1 2 in
  let c' : Channel Z := MkChannel 3 4 3 [Some 1; Some 2; None; None] 2 2 in
  (Atomic.Receive c None = Ok (true, Some 2, c') \/
   Volatile.Receive 1 c None = Ok (true, Some 2, c')) /\
  consumer_side_only c c'.
Proof.
  intros c c'.
  assert (Atomic.Receive c None = Ok (true, Some 2, c') \/
          Volatile.Receive 1 c None = Ok (true, Some 2, c'))
    as H by (right; reflexivity).
  split; [exact H|]. exact (Receive_writes_consumer_side 1 c c' None (Some 2) true H).
Defined.

Lemma Reserved_ctor_outcome_witness :
  INT_MIN <= 12 <= INT_MAX /\
  Reserved.Channel_ctor (T:=Z) 12 =
    if 12 =? INT_MAX then Undefined
    else if 12 <? -1 then Throws
    else if (12 =? -1) || is_pow2 (12 + 1) then Ok (rfresh Z 12)
    else AssertFailed.
Proof.
  assert (INT_MIN <= 12 <= INT_MAX) as H by (split; discriminate).
  split; [exact H|]. exact (Reserved_ctor_outcome 12 H).
Defined.

Lemma Reserved_fifo_and_capacity_witness :
  0 <= 3 /\
  Reserved.Channel_ctor 3 = Ok (rfresh Z 3) /\
  exists evs d',
    Reserved.run 1 (rfresh Z 3) [CallSend 1; CallSend 2; CallReceive] = Ok (evs, d') /\
    map Some (accepted evs) = delivered evs ++ queued (as_rounded d') /\
    Z.of_nat (length (queued (as_rounded d'))) <= 3 /\
    (forall t, exists b d'',
        Reserved.Send 1 d' t = Ok (b, d'') /\
        (b = true <-> Z.of_nat (length (queued (as_rounded d'))) < 3)) /\
    (forall item, exists b out d'',
        Reserved.Receive 1 d' item = Ok (b, out, d'') /\
        (b = true <-> queued (as_rounded d') <> [])).
Proof.
  assert (0 <= 3) as H by lia.
  split; [exact H|]. split; [reflexivity|].
  apply (Reserved_fifo_and_capacity 3 (rfresh Z 3) _ 0 H). reflexivity.
Defined.

Lemma Reserved_agrees_with_Atomic_witness :
  1 <= 3 /\
  Reserved.Channel_ctor 3 = Ok (rfresh Z 3) /\
  exists c : Channel Z,
    Channel_ctor Z 3 = Ok c /\
    rfresh Z 3 = of_rounded c /\
    Reserved.run 1 (rfresh Z 3) [CallSend 1; CallReceive; CallReceive] =
      let* '(evs, c') := Atomic.run c [CallSend 1; CallReceive; CallReceive] in
      Ok (evs, of_rounded c').
Proof.
  assert (1 <= 3) as H by lia.
  split; [exact H|]. split; [reflexivity|].
  apply (Reserved_agrees_with_Atomic 3 (rfresh Z 3) _ 0 H). reflexivity.
Defined.

Lemma fill_then_drain_witness :
  Channel_ctor Z 2 = Ok (fresh Z 2) /\
  Z.of_nat (length [5; 6]) = 2 /\
  exists c',
    Atomic.run (fresh Z 2)
      (map CallSend [5; 6] ++ CallSend 7 ::
       repeat CallReceive (length [5; 6]) ++ [CallReceive])
    = Ok (map (fun t => SendEv t true) [5; 6] ++ SendEv 7 false ::
          map (fun t => ReceiveEv true (Some t)) [5; 6] ++ [ReceiveEv false None],
          c') /\
    queued c' = [].
Proof.
  split; [reflexivity|]. split; [reflexivity|].
  apply (fill_then_drain 2 (fresh Z 2) [5; 6] 7); reflexivity.
Defined.

Lemma interleaved_fifo_witness :
  let sched := [AtomicSystem.Producer; AtomicSystem.Consumer; AtomicSystem.Producer;
                AtomicSystem.Consumer; AtomicSystem.Producer; AtomicSystem.Producer;
                AtomicSystem.Consumer; AtomicSystem.Consumer; AtomicSystem.Producer] in
  Channel_ctor Z 2 = Ok (fresh Z 2) /\
  exists s',
    AtomicSystem.run true sched (AtomicSystem.start (fresh Z 2) [1; 2; 3]) = Ok s' /\
    map Some (AtomicSystem.sent s')
      = AtomicSystem.got s' ++ queued (AtomicSystem.shared s') /\
    Z.of_nat (length (queued (AtomicSystem.shared s'))) <= 2 /\
    (true = false \/ AtomicSystem.sent s' ++ AtomicSystem.todo s' = [1; 2; 3]).
Proof.
  intros sched. split; [reflexivity|].
  apply (interleaved_fifo 2 (fresh Z 2) [1; 2; 3] true sched). reflexivity.
Defined.

Lemma volatile_interleaved_fifo_witness :
  let sched := repeat AtomicSystem.Producer 7 ++ repeat AtomicSystem.Consumer 6 ++
               repeat AtomicSystem.Producer 6 in
  Channel_ctor Z 2 = Ok (fresh Z 2) /\
  exists s',
    VolatileSystem.run true sched (VolatileSystem.start (fresh Z 2) [1; 2; 3]) = Ok s' /\
    VolatileSystem.ppc s' = VolatileSteps.send_cas 1 2 /\
    VolatileSystem.cpc s' = VolatileSteps.receive_cas (Some 1) 0 1 /\
    map Some (VolatileSystem.sent s')
      = VolatileSystem.got s' ++ queued (VolatileSystem.shared s') /\
    Z.of_nat (length (queued (VolatileSystem.shared s'))) <= 2 /\
    (true = false \/ VolatileSystem.sent s' ++ VolatileSystem.todo s' = [1; 2; 3]) /\
    (w_ (VolatileSystem.shared s') = 1 /\
     VolatileSteps.send_step 2 (VolatileSystem.shared s') (VolatileSystem.ppc s')
       = Ok (set_w (VolatileSystem.shared s') 2, VolatileSteps.send_done true)) /\
    (r_ (VolatileSystem.shared s') = 0 /\
     VolatileSteps.receive_step (VolatileSystem.shared s') (VolatileSystem.cpc s')
       = Ok (set_r (VolatileSystem.shared s') 1,
             VolatileSteps.receive_done true (Some 1))).
Proof.
  intros sched.
  assert (Channel_ctor Z 2 = Ok (fresh Z 2)) as Hc by reflexivity.
  split; [exact Hc|].
  destruct (volatile_interleaved_fifo 2 (fresh Z 2) [1; 2; 3] true sched Hc)
    as (s' & Hr & Hlog & Hlen & Hloss & Hp & Hcons).
  assert (VolatileSystem.ppc s' = VolatileSteps.send_cas 1 2 /\
          VolatileSystem.cpc s' = VolatileSteps.receive_cas (Some 1) 0 1) as [Ep Ec].
  { vm_compute in Hr. injection Hr as <-. split; reflexivity. }
  exists s'. split; [exact Hr|]. split; [exact Ep|]. split; [exact Ec|].
  split; [exact Hlog|]. split; [exact Hlen|]. split; [exact Hloss|].
  split; [exact (Hp 2 1 2 Ep)|exact (Hcons (Some 1) 0 1 Ec)].
Defined.

(** ** The example player *)

Section PlayerRuns.
Context {block : Type}.
Variable zeros : block.
Variable tail : block.
Implicit Types (p : Player.player (block:=block)) (h : list (option block)).

Lemma Atomic_Send_room (c : Channel nat) (t : nat) :
  wf c -> Z.of_nat (length (queued c)) < cap_ c ->
  Atomic.Send c t = Ok (true, send_next c t) /\
  wf (send_next c t) /\ queued (send_next c t) = queued c ++ [Some t].
Proof.
  intros H Hroom. rewrite (length_queued c H) in Hroom.
  assert (occupancy c <> cap_ c) as N by lia.
  rewrite Atomic_Send_wf by assumption.
  destruct (Z.eqb_spec (occupancy c) (cap_ c)); [contradiction|].
  auto using wf_send_next, queued_send_next.
Qed.

Lemma Atomic_Send_cases (c : Channel nat) (t : nat) :
  wf c ->
  Atomic.Send c t = Ok (false, c) \/
  Atomic.Send c t = Ok (true, send_next c t) /\
  wf (send_next c t) /\ queued (send_next c t) = queued c ++ [Some t].
Proof.
  intros H. rewrite Atomic_Send_wf by assumption.
  destruct (Z.eqb_spec (occupancy c) (cap_ c)) as [E|N]; [now left|right].
  auto using wf_send_next, queued_send_next.
Qed.

Lemma Atomic_Receive_cases (c : Channel nat) (item : slot nat) :
  wf c ->
  Atomic.Receive c item = Ok (false, item, c) \/
  exists t rest,
    queued c = Some t :: rest /\
    Atomic.Receive c item = Ok (true, Some t, recv_next c) /\
    wf (recv_next c) /\ queued (recv_next c) = rest.
Proof.
  intros H. rewrite Atomic_Receive_wf by assumption.
  destruct (Z.eqb_spec (occupancy c) 0) as [E|N]; [now left|right].
  pose proof (queued_recv_next c H N) as Hq.
  pose proof (wf_init c H) as Hi. rewrite Hq in Hi.
  apply Forall_cons in Hi as [Hne _].
  destruct (slot_at (buf_ c) (r_ c)) as [t|] eqn:Es; [|contradiction].
  exists t, (queued (recv_next c)). auto using wf_recv_next.
Qed.

Lemma chunks_NoDup (n : nat) : NoDup (map Some (seq 0 n)).
Proof.
  apply (NoDup_fmap_2 Some). apply NoDup_seq.
Qed.

Lemma chunk_in_seq (n c : nat) : Some c ∈ map Some (seq 0 n) -> (c < n)%nat.
Proof.
  intros H. apply list_elem_of_In, in_map_iff in H as (x & [= ->] & Hx).
  apply in_seq in Hx. lia.
Qed.

Lemma holds_block_insert h (q : list (option nat)) (qb : list block)
    (chunk : nat) (x : option block) :
  Some chunk ∉ q ->
  Forall2 (Player.holds_block h) q qb ->
  Forall2 (Player.holds_block (<[chunk := x]> h)) q qb.
Proof.
  intros Hn H. induction H as [|s b q qb Hs H IH]; [constructor|].
  apply not_elem_of_cons in Hn as [Hne Hn]. constructor; [|now apply IH].
  destruct Hs as (c & -> & Hc). exists c. split; [reflexivity|].
  rewrite list_lookup_insert_ne by congruence. exact Hc.
Qed.

Lemma holds_block_grow h (q : list (option nat)) (qb : list block)
    (x : option block) :
  Forall2 (Player.holds_block h) q qb ->
  Forall2 (Player.holds_block (h ++ [x])) q qb.
Proof.
  intros H. eapply Forall2_impl; [exact H|].
  intros s b (c & -> & Hc). exists c. split; [reflexivity|].
  apply lookup_app_l_Some. exact Hc.
Qed.

Ltac player_cbn :=
  unfold Player.held, Player.pending, Player.remaining, Player.played,
    Player.phase_ok in *;
  cbn [Player.filledChunks Player.emptyChunks Player.heap Player.file Player.mpc
       Player.cb Player.out Player.deleted Player.leaked Player.streaming app] in *.

(** What the bookkeeping of the chunks gives. *)
Lemma chunk_accounting (qe qf hd : list (option nat)) (dl : list nat) h :
  qe ++ qf ++ hd ++ map Some dl ≡ₚ map Some (seq 0 (length h)) ->
  (forall chunk, h !! chunk = Some None <-> chunk ∈ dl) ->
  (length qe + length qf + length hd + length dl)%nat = length h /\
  NoDup (qe ++ qf ++ hd) /\
  (forall chunk, Some chunk ∈ qe ++ qf ++ hd ->
                 (chunk ∉ dl) /\ (exists b, h !! chunk = Some (Some b))).
Proof.
  intros Hacct Hheap.
  pose proof (Permutation_length Hacct) as Hlen.
  rewrite !length_app, !length_map, length_seq in Hlen.
  assert (NoDup (qe ++ qf ++ hd ++ map Some dl)) as Hnd.
  { rewrite Hacct. apply chunks_NoDup. }
  rewrite !app_assoc in Hnd. apply NoDup_app in Hnd as (Hnd1 & Hdisj & _).
  rewrite <- !app_assoc in Hnd1, Hdisj.
  splits; [lia|exact Hnd1|].
  intros c Hc.
  assert (c ∉ dl) as Hnot.
  { intros Hin. apply (Hdisj (Some c) Hc).
    apply list_elem_of_In, in_map, list_elem_of_In, Hin. }
  split; [exact Hnot|].
  assert (c < length h)%nat as Hlt.
  { apply chunk_in_seq. rewrite <- Hacct. rewrite !app_assoc.
    apply elem_of_app. left. rewrite <- !app_assoc. exact Hc. }
  apply lookup_lt_is_Some in Hlt as [[b|] Hb]; [eauto|].
  exfalso. apply Hnot, Hheap, Hb.
Qed.

Lemma main_step_inv (f : list block) p :
  Player.player_inv tail f p ->
  exists p', Player.main_step zeros tail p = Ok p' /\ Player.player_inv tail f p'.
Proof.
  destruct p as [F E h fl pc cbk o dl lk].
  unfold Player.player_inv, Player.main_step. player_cbn.
  intros (HwF & HwE & HcF & HcE & Hacct & Hheap & -> & Hph & qb & Hqb & Hdata).
  destruct (chunk_accounting _ _ _ _ _ Hacct Hheap) as (Hlen & Hnd & Hlive).
  destruct pc as [i| |chunk|chunk full|i|]; player_cbn.
  - (* allocation *)
    destruct Hph as (Hi & Hle & HqF & -> & -> & -> & ->). rewrite HqF in *.
    cbn [map app length] in *. rewrite Nat.add_0_r in Hlen.
    destruct (Nat.ltb_spec i Player.kChunks) as [Hlt|Hge].
    + destruct (Atomic_Send_room E (length h) HwE) as (-> & HwE' & HqE').
      { rewrite HcE. lia. }
      cbn [bind]. eexists. split; [reflexivity|]. player_cbn.
      rewrite HqF, HqE', length_app, seq_app, List.map_app. cbn [length seq map].
      splits; auto.
      * rewrite <- Hacct. cbn [Nat.add]. solve_Permutation.
      * intros c. rewrite elem_of_nil. split; [|contradiction].
        intros Hc. apply lookup_app_Some in Hc as [Hc|[_ Hc]].
        -- apply Hheap in Hc. now apply elem_of_nil in Hc.
        -- destruct (c - length h)%nat as [|k]; simpl in Hc; [discriminate|].
           now destruct k.
      * lia.
      * exists []. inversion Hqb; subst. split; [constructor|exact Hdata].
    + eexists. split; [reflexivity|]. player_cbn. rewrite HqF.
      splits; auto; try (unfold Player.kChunks in *; lia).
      exists qb. split; assumption.
  - (* waiting for an empty chunk *)
    destruct Hph as (Hh & ->).
    destruct (Atomic_Receive_cases E None HwE)
      as [->|(t & rest & HqE & -> & HwE' & HqE')]; cbn [bind].
    + eexists. split; [reflexivity|]. player_cbn. splits; auto.
      exists qb. split; assumption.
    + eexists. split; [reflexivity|]. player_cbn. rewrite HqE'.
      rewrite HqE in Hacct. splits; auto.
      * rewrite <- Hacct. solve_Permutation.
      * exists qb. split; assumption.
  - (* reading the file into the chunk *)
    destruct Hph as (Hh & ->).
    destruct (Hlive chunk) as (_ & b0 & Hb0).
    { do 2 (apply elem_of_app; right). apply elem_of_cons. now left. }
    assert (chunk < length h)%nat as Hlt by (eapply lookup_lt_Some; exact Hb0).
    assert (Some chunk ∉ queued F) as HnF.
    { apply NoDup_app in Hnd as (_ & _ & Hnd2).
      apply NoDup_app in Hnd2 as (_ & Hd & _).
      intros Hin. apply (Hd _ Hin). apply elem_of_cons. now left. }
    unfold Player.chunk_load. rewrite Hb0. cbn [bind].
    assert (forall x : block, forall c : nat,
              <[chunk := Some x]> h !! c = Some None <-> c ∈ @nil nat) as Hheap'.
    { intros x c. destruct (decide (c = chunk)) as [->|Hne].
      - rewrite list_lookup_insert_eq by assumption.
        split; [discriminate|]. intros Hin. now apply elem_of_nil in Hin.
      - rewrite list_lookup_insert_ne by congruence. apply Hheap. }
    destruct fl as [|b rest].
    + eexists. split; [reflexivity|]. player_cbn.
      rewrite length_insert, list_lookup_insert_eq by assumption.
      splits; auto.
      exists qb. split; [now apply holds_block_insert|].
      rewrite <- Hdata. now rewrite app_nil_r.
    + eexists. split; [reflexivity|]. player_cbn.
      rewrite length_insert, list_lookup_insert_eq by assumption.
      splits; auto.
      exists qb. split; [now apply holds_block_insert|].
      rewrite <- Hdata. reflexivity.
  - (* sending the chunk to the audio thread *)
    destruct Hph as (Hh & ->).
    destruct (Hlive chunk) as (_ & b0 & Hb0).
    { do 2 (apply elem_of_app; right). apply elem_of_cons. now left. }
    rewrite Hb0 in Hdata.
    destruct (Atomic_Send_cases F chunk HwF) as [->|(-> & HwF' & HqF')]; cbn [bind].
    + eexists. split; [reflexivity|]. player_cbn. rewrite Hb0. splits; auto.
      exists qb. split; assumption.
    + eexists. split; [reflexivity|]. destruct full; player_cbn; rewrite HqF'.
      * splits; auto.
        -- rewrite <- Hacct. solve_Permutation.
        -- exists (qb ++ [b0]). split.
           ++ apply Forall2_app; [assumption|].
              constructor; [|constructor]. exists chunk. auto.
           ++ rewrite <- Hdata, <- !app_assoc. reflexivity.
      * splits; auto.
        -- rewrite <- Hacct. solve_Permutation.
        -- unfold Player.kChunks. lia.
        -- exists (qb ++ [b0]). split.
           ++ apply Forall2_app; [assumption|].
              constructor; [|constructor]. exists chunk. auto.
           ++ rewrite <- Hdata, <- !app_assoc. reflexivity.
  - (* taking the chunks back and deleting them *)
    destruct Hph as (Hh & Hd & Hle).
    destruct (Nat.ltb_spec i Player.kChunks) as [Hlt|Hge].
    + destruct (Atomic_Receive_cases E None HwE)
        as [->|(t & rest & HqE & -> & HwE' & HqE')]; cbn [bind].
      * eexists. split; [reflexivity|]. player_cbn. splits; auto.
        exists qb. split; assumption.
      * rewrite HqE in Hacct, Hnd, Hlive.
        destruct (Hlive t) as (Hnt & b0 & Hb0).
        { apply elem_of_app. left. apply elem_of_cons. now left. }
        assert (t < length h)%nat as Hlt' by (eapply lookup_lt_Some; exact Hb0).
        assert (Some t ∉ queued F) as HnF.
        { apply NoDup_app in Hnd as (_ & Hdj & _).
          intros Hin. apply (Hdj (Some t)).
          - apply elem_of_cons. now left.
          - apply elem_of_app. now left. }
        unfold Player.chunk_load. rewrite Hb0. cbn [bind].
        eexists. split; [reflexivity|]. player_cbn.
        rewrite HqE', length_insert, List.map_app. cbn [map].
        splits; auto.
        -- rewrite <- Hacct. solve_Permutation.
        -- intros c. rewrite elem_of_app, list_elem_of_singleton.
           destruct (decide (c = t)) as [->|Hne].
           ++ rewrite list_lookup_insert_eq by assumption. split; auto.
           ++ rewrite list_lookup_insert_ne by congruence.
              rewrite Hheap. split; [auto|]. intros [Hin|Heq]; [assumption|contradiction].
        -- rewrite length_app. cbn [length]. lia.
        -- exists qb. split; [now apply holds_block_insert|assumption].
    + eexists. split; [reflexivity|]. player_cbn. splits; auto.
      * lia.
      * exists qb. split; assumption.
  - destruct Hph as (Hh & Hd).
    eexists. split; [reflexivity|]. player_cbn. splits; auto.
    exists qb. split; assumption.
Qed.

Lemma audio_step_inv (f : list block) p :
  Player.player_inv tail f p ->
  exists p', Player.audio_step p = Ok p' /\ Player.player_inv tail f p'.
Proof.
  destruct p as [F E h fl pc cbk o dl lk].
  unfold Player.player_inv, Player.audio_step. player_cbn.
  intros (HwF & HwE & HcF & HcE & Hacct & Hheap & -> & Hph & qb & Hqb & Hdata).
  destruct (chunk_accounting _ _ _ _ _ Hacct Hheap) as (Hlen & Hnd & Hlive).
  destruct (Player.streaming pc) eqn:Hs.
  2:{ eexists. split; [reflexivity|]. player_cbn. splits; auto.
      exists qb. split; assumption. }
  assert (length h = Player.kChunks) as Hh.
  { destruct pc; try discriminate Hs; destruct Hph as [Hh _]; exact Hh. }
  destruct cbk as [chunk|].
  - (* sending the chunk back *)
    destruct (Atomic_Send_room E chunk HwE) as (-> & HwE' & HqE').
    { rewrite HcE. rewrite !length_app in Hlen. cbn [length] in Hlen.
      unfold Player.kChunks in *. lia. }
    cbn [bind]. eexists. split; [reflexivity|]. player_cbn. rewrite HqE'.
    splits; auto.
    + rewrite <- Hacct. solve_Permutation.
    + destruct pc; try discriminate Hs; exact Hph.
    + exists qb. split; assumption.
  - (* taking the next chunk and playing it *)
    destruct (Atomic_Receive_cases F None HwF)
      as [->|(t & rest & HqF & -> & HwF' & HqF')]; cbn [bind].
    + eexists. split; [reflexivity|]. player_cbn. splits; auto.
      * destruct pc; try discriminate Hs; exact Hph.
      * exists qb. split; [assumption|].
        rewrite omap_app. cbn. rewrite app_nil_r. exact Hdata.
    + rewrite HqF in Hqb, Hacct.
      apply Forall2_cons_inv_l in Hqb as (b & qb' & (c & [= <-] & Hb) & Hqb' & ->).
      unfold Player.chunk_load. rewrite Hb. cbn [bind].
      eexists. split; [reflexivity|]. player_cbn. rewrite HqF'.
      splits; auto.
      * rewrite <- Hacct. solve_Permutation.
      * destruct pc; try discriminate Hs; exact Hph.
      * exists qb'. split; [assumption|].
        rewrite omap_app. cbn. rewrite <- Hdata, <- !app_assoc. reflexivity.
Qed.

Lemma player_run_inv (f : list block) (sched : list Player.thread) : forall p,
  Player.player_inv tail f p ->
  exists p', Player.run zeros tail sched p = Ok p' /\ Player.player_inv tail f p'.
Proof.
  induction sched as [|who rest IH]; intros p H.
  - exists p. split; [reflexivity|assumption].
  - cbn [Player.run]. destruct who.
    + destruct (main_step_inv f p H) as (p1 & -> & H1). cbn [bind]. now apply IH.
    + destruct (audio_step_inv f p H) as (p1 & -> & H1). cbn [bind]. now apply IH.
Qed.

Lemma player_boot (f : list block) :
  exists p, Player.boot f = Ok p /\ Player.player_inv tail f p.
Proof.
  unfold Player.boot.
  assert (1 <= Z.of_nat Player.kChunks < 2 ^ 30) as Hk.
  { unfold Player.kChunks. split; [lia|reflexivity]. }
  rewrite (Channel_ctor_Ok (T:=nat) _ Hk). cbn [bind].
  eexists. split; [reflexivity|].
  unfold Player.player_inv. player_cbn.
  rewrite (queued_fresh (T:=nat) _ Hk).
  pose proof (wf_fresh (T:=nat) _ Hk) as Hwf.
  splits; auto.
  - intros c. rewrite lookup_nil, elem_of_nil. split; [discriminate|contradiction].
  - cbn. splits; auto. unfold Player.kChunks. lia.
  - exists []. split; [constructor|reflexivity].
Qed.

(** X9.  "The channel must be big enough to hold all of the chunks in
    flight because we want the audio thread to always be able to send
    on the first try": with ten chunks and two channels of capacity
    ten, however the main thread and the callback alternate, every
    [emptyChunks.Send(chunk)], in the start-up loop and in the
    callback, returns [true], so that no chunk is lost; and no call
    uses a pointer that was never received or a chunk that was
    deleted. *)
Theorem player_sends_never_fail (f : list block) (sched : list Player.thread) :
  exists p0 p',
    Player.boot f = Ok p0 /\
    Player.run zeros tail sched p0 = Ok p' /\
    Player.leaked p' = [] /\
    NoDup (queued (Player.emptyChunks p') ++ queued (Player.filledChunks p') ++
           Player.held p' ++ map Some (Player.deleted p')).
Proof.
  destruct (player_boot f) as (p0 & Hb & H0).
  destruct (player_run_inv f sched p0 H0) as (p' & Hr & H').
  exists p0, p'. splits; auto.
  - apply H'.
  - destruct H' as (_ & _ & _ & _ & Hacct & _). rewrite Hacct. apply chunks_NoDup.
Qed.

(** X10.  What reaches the sound card, silences apart, is at every
    moment a beginning of the file: its buffers in order, none
    skipped, repeated or overwritten while waiting to be played. *)
Theorem player_plays_in_order (f : list block) (sched : list Player.thread) :
  exists p0 p' rest,
    Player.boot f = Ok p0 /\
    Player.run zeros tail sched p0 = Ok p' /\
    Player.played p' ++ rest = f ++ [tail].
Proof.
  destruct (player_boot f) as (p0 & Hb & H0).
  destruct (player_run_inv f sched p0 H0) as (p' & Hr & H').
  destruct H' as (_ & _ & _ & _ & _ & _ & _ & _ & qb & _ & Hdata).
  exists p0, p', (qb ++ Player.pending p' ++ Player.remaining tail p').
  splits; auto.
Qed.

(** X11.  When [main] has reached its [return 0], the whole file has
    been played, both channels are empty, the callback holds no chunk,
    and each of the ten chunks has been deleted exactly once. *)
Theorem player_exit (f : list block) (sched : list Player.thread)
    (p0 p' : Player.player) :
  Player.boot f = Ok p0 ->
  Player.run zeros tail sched p0 = Ok p' ->
  Player.mpc p' = Player.main_stopped ->
  Player.played p' = f ++ [tail] /\
  queued (Player.filledChunks p') = [] /\
  queued (Player.emptyChunks p') = [] /\
  Player.cb p' = None /\
  map Some (Player.deleted p') ≡ₚ map Some (seq 0 Player.kChunks) /\
  Player.heap p' = replicate Player.kChunks None.
Proof.
  intros Hb Hr Hstop.
  destruct (player_boot f) as (q0 & Hb' & H0). rewrite Hb in Hb'. injection Hb' as <-.
  destruct (player_run_inv f sched p0 H0) as (q' & Hr' & H').
  rewrite Hr in Hr'. injection Hr' as <-.
  destruct p' as [F E h fl pc cbk o dl lk]. cbn in Hstop. subst pc.
  unfold Player.player_inv in H'. player_cbn.
  destruct H' as (HwF & HwE & HcF & HcE & Hacct & Hheap & -> & (Hh & Hd) & qb & Hqb & Hdata).
  destruct (chunk_accounting _ _ _ _ _ Hacct Hheap) as (Hlen & _ & _).
  rewrite ?length_app in Hlen.
  assert (queued E = []) as HqE by (apply length_zero_iff_nil; lia).
  assert (queued F = []) as HqF by (apply length_zero_iff_nil; lia).
  assert (cbk = None) as -> by (destruct cbk; [cbn in Hlen; lia|reflexivity]).
  rewrite HqE, HqF, Hh in Hacct. cbn [app] in Hacct.
  rewrite HqF in Hqb. inversion Hqb; subst qb.
  cbn [app] in Hdata. rewrite app_nil_r in Hdata.
  splits; auto.
  apply list_eq. intros c.
  destruct (decide (c < Player.kChunks)%nat) as [Hlt|Hge].
  - assert (c ∈ dl) as Hin.
    { assert (Some c ∈ map Some (seq 0 Player.kChunks)) as Hc.
      { apply list_elem_of_In, in_map, in_seq. lia. }
      rewrite <- Hacct in Hc.
      apply list_elem_of_In, in_map_iff in Hc as (x & [= ->] & Hx).
      now apply list_elem_of_In. }
    apply Hheap in Hin. rewrite Hin, lookup_replicate_2 by assumption.
    reflexivity.
  - rewrite lookup_ge_None_2 by lia. symmetry.
    apply lookup_replicate_None. lia.
Qed.

End PlayerRuns.

Lemma player_exit_witness :
  let sched :=
    repeat Player.Main 11 ++
    [Player.Main; Player.Main; Player.Main; Player.Audio; Player.Audio] ++
    [Player.Main; Player.Main; Player.Main; Player.Audio; Player.Audio] ++
    repeat Player.Main 11 in
  exists p0 p' : Player.player (block:=nat),
    Player.boot [5%nat] = Ok p0 /\
    Player.run 0%nat 7%nat sched p0 = Ok p' /\
    Player.mpc p' = Player.main_stopped /\
    (Player.played p' = [5%nat] ++ [7%nat] /\
     queued (Player.filledChunks p') = [] /\
     queued (Player.emptyChunks p') = [] /\
     Player.cb p' = None /\
     map Some (Player.deleted p') ≡ₚ map Some (seq 0 Player.kChunks) /\
     Player.heap p' = replicate Player.kChunks None).
Proof.
  intros sched.
  destruct (player_boot 7%nat [5%nat]) as (p0 & Hb & H0).
  destruct (player_run_inv 0%nat 7%nat [5%nat] sched p0 H0) as (p' & Hr & _).
  exists p0, p'.
  assert (Player.mpc p' = Player.main_stopped) as Hstop.
  { clear H0. vm_compute in Hb. injection Hb as <-.
    vm_compute in Hr. injection Hr as <-. reflexivity. }
  split; [exact Hb|]. split; [exact Hr|]. split; [exact Hstop|].
  exact (player_exit 0%nat 7%nat [5%nat] sched p0 p' Hb Hr Hstop).
Defined.
